(** * TSDuck pcap / pcap-ng reader and filter

    A shallow embedding of [ts::PcapFile] (tsPcapFile.h, tsPcapFile.cpp) and
    [ts::PcapFilter] (tsPcapFilter.cpp), and the properties of the reader
    that the specification states; then further properties of the reader and
    of the filter, and the loop of [ts::tlv::Connection::receiveMessage]
    (tstlvConnection.h).

    Conventions.
    - Fixed-width integers are [Z] with the wrap-around written out
      ([wrap64] for [uint64_t], [sint64] for [intmax_t] and the
      representation of [cn::microseconds]).
    - The input stream is the list of bytes that remain to be read.
    - [bool]-returning methods that report through [Report] return a sum:
      [inl e] is [false] with the kind of diagnostic [e], [inr x] is [true].
    - "No timestamp" is a negative number of microseconds, as in the source. *)

From Stdlib Require Import ZArith List Bool Lia Strings.Byte.
From Stdlib Require Import Floats.SpecFloat.
Import ListNotations.
Local Open Scope Z_scope.

(** ** Machine integers *)

Definition wrap64 (z : Z) : Z := z mod 2 ^ 64.

Definition sint64 (z : Z) : Z := (z + 2 ^ 63) mod 2 ^ 64 - 2 ^ 63.

Definition INT64_MAX : Z := 2 ^ 63 - 1.
Definition INT64_MIN : Z := - 2 ^ 63.
Definition SIZE_MAX : Z := 2 ^ 64 - 1.

Definition in_int64 (z : Z) : Prop := INT64_MIN <= z <= INT64_MAX.

(** ** Bytes and the readers of tsMemory.h *)

Definition byte_val (b : byte) : Z := Z.of_N (Byte.to_N b).

Definition byte_of_Z (z : Z) : byte :=
  match Byte.of_N (Z.to_N (z mod 256)) with
  | Some b => b
  | None => x00
  end.

Definition bytes_of (l : list Z) : list byte := map byte_of_Z l.

(** [buf[i]]; a read past the end of the buffer, which the guards of the
    source exclude, yields 0. *)
Definition byte_at (buf : list byte) (i : Z) : Z :=
  if i <? 0 then 0 else byte_val (nth (Z.to_nat i) buf x00).

Definition GetUInt16BE (buf : list byte) (off : Z) : Z :=
  Z.lor (Z.shiftl (byte_at buf off) 8) (byte_at buf (off + 1)).

Definition GetUInt16LE (buf : list byte) (off : Z) : Z :=
  Z.lor (Z.shiftl (byte_at buf (off + 1)) 8) (byte_at buf off).

Definition GetUInt24BE (buf : list byte) (off : Z) : Z :=
  Z.lor (Z.shiftl (byte_at buf off) 16)
        (Z.lor (Z.shiftl (byte_at buf (off + 1)) 8) (byte_at buf (off + 2))).

Definition GetUInt32BE (buf : list byte) (off : Z) : Z :=
  Z.lor (Z.shiftl (GetUInt16BE buf off) 16) (GetUInt16BE buf (off + 2)).

Definition GetUInt32LE (buf : list byte) (off : Z) : Z :=
  Z.lor (Z.shiftl (GetUInt16LE buf (off + 2)) 16) (GetUInt16LE buf off).

Definition GetUInt64BE (buf : list byte) (off : Z) : Z :=
  Z.lor (Z.shiftl (GetUInt32BE buf off) 32) (GetUInt32BE buf (off + 4)).

Definition GetUInt64LE (buf : list byte) (off : Z) : Z :=
  Z.lor (Z.shiftl (GetUInt32LE buf (off + 4)) 32) (GetUInt32LE buf off).

(** [buffer.data() + start], [size] bytes. *)
Definition sub_bytes (buf : list byte) (start size : Z) : list byte :=
  firstn (Z.to_nat size) (skipn (Z.to_nat start) buf).

Definition zlength {A} (l : list A) : Z := Z.of_nat (length l).

(** ** Constants of tsPcap.h and tsIPProtocols.h *)

(** Modelled from the spec: the magic numbers of tsPcap.h, which is not
    among the sources; the values are those of the table of the header
    decoder. *)
Definition PCAP_MAGIC_BE : Z := 0xA1B2C3D4.
Definition PCAP_MAGIC_LE : Z := 0xD4C3B2A1.
Definition PCAPNS_MAGIC_BE : Z := 0xA1B23C4D.
Definition PCAPNS_MAGIC_LE : Z := 0x4DC3B2A1.
Definition PCAPNG_MAGIC : Z := 0x0A0D0D0A.
Definition PCAPNG_ORDER_BE : Z := 0x1A2B3C4D.
Definition PCAPNG_ORDER_LE : Z := 0x4D3C2B1A.

(** Modelled from the spec: block types and interface options of tsPcap.h. *)
Definition PCAPNG_SECTION_HEADER : Z := 0x0A0D0D0A.
Definition PCAPNG_INTERFACE_DESC : Z := 0x00000001.
Definition PCAPNG_OBSOLETE_PACKET : Z := 0x00000002.
Definition PCAPNG_SIMPLE_PACKET : Z := 0x00000003.
Definition PCAPNG_ENHANCED_PACKET : Z := 0x00000006.
Definition PCAPNG_IF_TSRESOL : Z := 9.
Definition PCAPNG_IF_FCSLEN : Z := 13.
Definition PCAPNG_IF_TSOFFSET : Z := 14.

(** Modelled from the spec: link types and BSD loopback protocol words of
    tsPcap.h, with the values of the pcap link-type registry. *)
Definition LINKTYPE_NULL : Z := 0.
Definition LINKTYPE_ETHERNET : Z := 1.
Definition LINKTYPE_RAW : Z := 101.
Definition LINKTYPE_LOOP : Z := 108.
Definition LINKTYPE_UNKNOWN : Z := 0xFFFF.
Definition PCAPNG_BSD_IPv4 : Z := 2.
Definition PCAPNG_BSD_IPv6_24 : Z := 24.
Definition PCAPNG_BSD_IPv6_28 : Z := 28.
Definition PCAPNG_BSD_IPv6_30 : Z := 30.
Definition PCAPNG_BSD_UNKNOWN : Z := 0xFFFFFFFF.

(** Modelled from the spec: Ethernet and IP constants of tsIPProtocols.h. *)
Definition ETHER_HEADER_SIZE : Z := 14.
Definition ETHER_TYPE_OFFSET : Z := 12.
Definition ETHERTYPE_IPv4 : Z := 0x0800.
Definition ETHERTYPE_IPv6 : Z := 0x86DD.
Definition ETHERTYPE_802_1Q : Z := 0x8100.
Definition ETHERTYPE_802_1AD : Z := 0x88A8.
Definition ETHERTYPE_802_1AH : Z := 0x88E7.
Definition ETHERTYPE_NULL : Z := 0xFFFF.
Definition IPv4_VERSION : Z := 4.
Definition IPv6_VERSION : Z := 6.
Definition IP_SUBPROTO_TCP : Z := 6.
Definition IP_SUBPROTO_UDP : Z := 17.

(** [std::micro::den] and [std::nano::den]. *)
Definition micro_den : Z := 1000000.
Definition nano_den : Z := 1000000000.

(** Modelled from the spec: [Power10] of tsIntegerUtils.h ("10^n ticks/s"),
    as stored in an [intmax_t]. *)
Definition Power10 (n : Z) : Z := sint64 (10 ^ n).

(** Modelled from the spec: [mul_overflow] of tsIntegerUtils.h, true when the
    product does not fit a signed 64-bit integer. *)
Definition mul_overflow (a b : Z) : bool :=
  negb ((INT64_MIN <=? a * b) && (a * b <=? INT64_MAX)).

(** [round_up<uint16_t>(len, 4)]. *)
Definition round_up4 (len : Z) : Z := ((len + 3) / 4 * 4) mod 2 ^ 16.

(** ** Double-precision arithmetic (IEEE 754 binary64) *)

Module Double.

Definition prec : Z := 53.
Definition emax : Z := 1024.

(** [double(z)] for a 64-bit integer [z]: round to nearest, ties to even. *)
Definition of_Z (z : Z) : spec_float := binary_normalize prec emax z 0 false.

Definition mul : spec_float -> spec_float -> spec_float := SFmul prec emax.
Definition div : spec_float -> spec_float -> spec_float := SFdiv prec emax.

(** Conversion to a 64-bit integer: truncation toward zero.  The language
    leaves the conversion of a value out of range, an infinity or a NaN
    undefined; the model follows the conversion instruction of x86-64, which
    the compiled code uses: all of them give [INT64_MIN]. *)
Definition to_int64 (x : spec_float) : Z :=
  match x with
  | S754_zero _ => 0
  | S754_finite s m e =>
      let mag := if 0 <=? e then Z.pos m * 2 ^ e else Z.pos m / 2 ^ (- e) in
      let v := if s then - mag else mag in
      if (INT64_MIN <=? v) && (v <=? INT64_MAX) then v else INT64_MIN
  | _ => INT64_MIN
  end.

End Double.

(** ** The data model of tsPcapFile.h *)

(** Description of one capture interface.  [time_offset] is in
    microseconds, the unit of [cn::microseconds]. *)
Record InterfaceDesc := mkInterfaceDesc {
  link_type : Z;
  fcs_size : Z;
  time_units : Z;
  time_offset : Z
}.

Definition InterfaceDesc_default : InterfaceDesc :=
  {| link_type := LINKTYPE_UNKNOWN; fcs_size := 0; time_units := 0; time_offset := 0 |}.

(** The input stream [*_in]: the bytes that remain, the get position, whether
    the position can be told (a regular file, not a pipe or a terminal), the
    fail state, and the number of calls of [read] so far. *)
Record istream := mkIstream {
  rest : list byte;
  gpos : Z;
  seekable : bool;
  failed : bool;
  reads : nat
}.

Record PcapFile := mkPcapFile {
  _error : bool;
  _in : option istream;
  _be : bool;
  _ng : bool;
  _major : Z;
  _minor : Z;
  _file_size : Z;
  _packet_count : Z;
  _ip_packet_count : Z;
  _packets_size : Z;
  _ip_packets_size : Z;
  _first_timestamp : Z;
  _last_timestamp : Z;
  _if : list InterfaceDesc
}.

(** The default-constructed object. *)
Definition PcapFile_default : PcapFile :=
  {| _error := false; _in := None; _be := false; _ng := false;
     _major := 0; _minor := 0; _file_size := 0;
     _packet_count := 0; _ip_packet_count := 0;
     _packets_size := 0; _ip_packets_size := 0;
     _first_timestamp := -1; _last_timestamp := -1; _if := [] |}.

Definition set_error (v : bool) (f : PcapFile) : PcapFile :=
  mkPcapFile v (_in f) (_be f) (_ng f) (_major f) (_minor f) (_file_size f)
    (_packet_count f) (_ip_packet_count f) (_packets_size f) (_ip_packets_size f)
    (_first_timestamp f) (_last_timestamp f) (_if f).

Definition set_in (v : option istream) (f : PcapFile) : PcapFile :=
  mkPcapFile (_error f) v (_be f) (_ng f) (_major f) (_minor f) (_file_size f)
    (_packet_count f) (_ip_packet_count f) (_packets_size f) (_ip_packets_size f)
    (_first_timestamp f) (_last_timestamp f) (_if f).

Definition set_be (v : bool) (f : PcapFile) : PcapFile :=
  mkPcapFile (_error f) (_in f) v (_ng f) (_major f) (_minor f) (_file_size f)
    (_packet_count f) (_ip_packet_count f) (_packets_size f) (_ip_packets_size f)
    (_first_timestamp f) (_last_timestamp f) (_if f).

Definition set_ng (v : bool) (f : PcapFile) : PcapFile :=
  mkPcapFile (_error f) (_in f) (_be f) v (_major f) (_minor f) (_file_size f)
    (_packet_count f) (_ip_packet_count f) (_packets_size f) (_ip_packets_size f)
    (_first_timestamp f) (_last_timestamp f) (_if f).

Definition set_version (major minor : Z) (f : PcapFile) : PcapFile :=
  mkPcapFile (_error f) (_in f) (_be f) (_ng f) major minor (_file_size f)
    (_packet_count f) (_ip_packet_count f) (_packets_size f) (_ip_packets_size f)
    (_first_timestamp f) (_last_timestamp f) (_if f).

Definition set_file_size (v : Z) (f : PcapFile) : PcapFile :=
  mkPcapFile (_error f) (_in f) (_be f) (_ng f) (_major f) (_minor f) v
    (_packet_count f) (_ip_packet_count f) (_packets_size f) (_ip_packets_size f)
    (_first_timestamp f) (_last_timestamp f) (_if f).

Definition set_packet_count (v : Z) (f : PcapFile) : PcapFile :=
  mkPcapFile (_error f) (_in f) (_be f) (_ng f) (_major f) (_minor f) (_file_size f)
    v (_ip_packet_count f) (_packets_size f) (_ip_packets_size f)
    (_first_timestamp f) (_last_timestamp f) (_if f).

Definition set_ip_packet_count (v : Z) (f : PcapFile) : PcapFile :=
  mkPcapFile (_error f) (_in f) (_be f) (_ng f) (_major f) (_minor f) (_file_size f)
    (_packet_count f) v (_packets_size f) (_ip_packets_size f)
    (_first_timestamp f) (_last_timestamp f) (_if f).

Definition set_packets_size (v : Z) (f : PcapFile) : PcapFile :=
  mkPcapFile (_error f) (_in f) (_be f) (_ng f) (_major f) (_minor f) (_file_size f)
    (_packet_count f) (_ip_packet_count f) v (_ip_packets_size f)
    (_first_timestamp f) (_last_timestamp f) (_if f).

Definition set_ip_packets_size (v : Z) (f : PcapFile) : PcapFile :=
  mkPcapFile (_error f) (_in f) (_be f) (_ng f) (_major f) (_minor f) (_file_size f)
    (_packet_count f) (_ip_packet_count f) (_packets_size f) v
    (_first_timestamp f) (_last_timestamp f) (_if f).

Definition set_first_timestamp (v : Z) (f : PcapFile) : PcapFile :=
  mkPcapFile (_error f) (_in f) (_be f) (_ng f) (_major f) (_minor f) (_file_size f)
    (_packet_count f) (_ip_packet_count f) (_packets_size f) (_ip_packets_size f)
    v (_last_timestamp f) (_if f).

Definition set_last_timestamp (v : Z) (f : PcapFile) : PcapFile :=
  mkPcapFile (_error f) (_in f) (_be f) (_ng f) (_major f) (_minor f) (_file_size f)
    (_packet_count f) (_ip_packet_count f) (_packets_size f) (_ip_packets_size f)
    (_first_timestamp f) v (_if f).

Definition set_if (v : list InterfaceDesc) (f : PcapFile) : PcapFile :=
  mkPcapFile (_error f) (_in f) (_be f) (_ng f) (_major f) (_minor f) (_file_size f)
    (_packet_count f) (_ip_packet_count f) (_packets_size f) (_ip_packets_size f)
    (_first_timestamp f) (_last_timestamp f) v.

(** [isOpen()] and [endOfFile()]. *)
Definition isOpen (f : PcapFile) : bool :=
  match _in f with Some _ => true | None => false end.

Definition endOfFile (f : PcapFile) : bool := _error f.

(** The bytes that remain in the input, and the number of reads done. *)
Definition remaining (f : PcapFile) : list byte :=
  match _in f with Some s => rest s | None => [] end.

Definition read_calls (f : PcapFile) : nat :=
  match _in f with Some s => reads s | None => O end.

(** ** Diagnostics and the monad of the reader *)

(** The kind of diagnostic on a [false] return.  [ShortRead] is the silent
    [error()] of [readall] at the end of the input. *)
Inductive Error :=
| ShortRead
| UnknownMagic
| BadByteOrder
| BadBlockLength
| TruncatedSectionHeader
| BadInterfaceDesc
| CorruptOptionList
| NotOpen
| AlreadyOpen
| OpenFailed
| ErrorState.

Definition M (A : Type) : Type := PcapFile -> (Error + A) * PcapFile.

Definition ret {A} (a : A) : M A := fun f => (inr a, f).

(** [error()]: set the error indicator, return false. *)
Definition error (f : PcapFile) : PcapFile := set_error true f.

(** [return error(report, fmt, ...)]. *)
Definition fail {A} (e : Error) : M A := fun f => (inl e, error f).

(** [if (!m) return error(); k]. *)
Definition bind {A B} (m : M A) (k : A -> M B) : M B :=
  fun f =>
    match m f with
    | (inr a, f') => k a f'
    | (inl e, f') => (inl e, error f')
    end.

Definition modify (g : PcapFile -> PcapFile) : M unit := fun f => (inr tt, g f).

Definition get {A} (g : PcapFile -> A) : M A := fun f => (inr (g f), f).

Notation "x <- m ;; k" := (bind m (fun x => k))
  (at level 61, m at next level, right associativity).
Notation "m ;;; k" := (bind m (fun _ => k))
  (at level 61, right associativity).

(** ** Reading the input *)

(** [readall]: read exactly [size] bytes.  [istream::read] either delivers
    all the bytes or extracts what is left and sets the fail state, so the
    loop of the source runs at most once.  The position is recorded in
    [_file_size] when it can be told. *)
Definition readall (size : Z) : M (list byte) := fun f =>
  if size <=? 0 then (inr [], f)
  else
    match _in f with
    | None => (inl NotOpen, error f)
    | Some s =>
        if failed s || (zlength (rest s) <? size) then
          (inl ShortRead,
           error (set_in (Some (mkIstream [] (gpos s + (if failed s then 0 else zlength (rest s)))
                                          (seekable s) true (S (reads s)))) f))
        else
          let s' := mkIstream (skipn (Z.to_nat size) (rest s)) (gpos s + size)
                              (seekable s) false (S (reads s)) in
          let f' := set_in (Some s') f in
          (inr (firstn (Z.to_nat size) (rest s)),
           if seekable s then set_file_size (gpos s') f' else f')
    end.

(** [get16], [get32], [get64]: read using the endianness of the file. *)
Definition get16 (be : bool) (buf : list byte) (off : Z) : Z :=
  if be then GetUInt16BE buf off else GetUInt16LE buf off.
Definition get32 (be : bool) (buf : list byte) (off : Z) : Z :=
  if be then GetUInt32BE buf off else GetUInt32LE buf off.
Definition get64 (be : bool) (buf : list byte) (off : Z) : Z :=
  if be then GetUInt64BE buf off else GetUInt64LE buf off.

(** ** [readNgBlockBody]: read a pcap-ng block, the type being already read *)

(** Lines 242-256: the body of a Section Header starts with the byte-order
    magic, which gives the endianness; other blocks have read nothing yet. *)
Definition read_order_magic (block_type : Z) : M (list byte) :=
  if block_type =? PCAPNG_SECTION_HEADER then
    body <- readall 4 ;;
    let order_magic := GetUInt32BE body 0 in
    if negb (order_magic =? PCAPNG_ORDER_BE) && negb (order_magic =? PCAPNG_ORDER_LE)
    then fail BadByteOrder
    else modify (set_be (order_magic =? PCAPNG_ORDER_BE)) ;;; ret body
  else ret [].

(** Lines 258-283: check the block length [size], read the rest of the
    body after the [body] already read, then the trailing length. *)
Definition read_block_rest (size : Z) (body : list byte) : M (list byte) :=
  if negb (size mod 4 =? 0) || (size <? 12 + zlength body) then fail BadBlockLength
  else
    more <- readall (size - 12 - zlength body) ;;
    lenfield <- readall 4 ;;
    be <- get _be ;;
    let last_size := get32 be lenfield 0 in
    if negb (size =? last_size) then fail BadBlockLength
    else ret (body ++ more).

Definition readNgBlockBody (block_type : Z) : M (list byte) :=
  lenfield <- readall 4 ;;
  body <- read_order_magic block_type ;;
  be <- get _be ;;
  read_block_rest (get32 be lenfield 0) body.

(** ** [readHeader]: a file or section header, from its magic number *)

Definition is_pcap_magic (magic : Z) : bool :=
  (magic =? PCAP_MAGIC_BE) || (magic =? PCAP_MAGIC_LE) ||
  (magic =? PCAPNS_MAGIC_BE) || (magic =? PCAPNS_MAGIC_LE).

(** The FCS size announced by the byte [header[16]] of a pcap header. *)
Definition pcap_fcs_size (h16 : Z) : Z :=
  if Z.land h16 0x10 =? 0 then 0 else 2 * Z.land (Z.shiftr h16 5) 0x07.

(** [_if.resize(1)] keeps the first interface when there is one; the three
    assignments of the source then overwrite all fields but [time_offset]. *)
Definition pcap_interface (old : list InterfaceDesc) (magic : Z) (be : bool)
    (header : list byte) : InterfaceDesc :=
  let ifd := match old with i :: _ => i | [] => InterfaceDesc_default end in
  {| link_type := get16 be header 18;
     fcs_size := pcap_fcs_size (byte_at header 16);
     time_units := if (magic =? PCAP_MAGIC_BE) || (magic =? PCAP_MAGIC_LE)
                   then micro_den else nano_den;
     time_offset := time_offset ifd |}.

Definition readHeader (magic : Z) : M unit :=
  if is_pcap_magic magic then
    header <- readall 20 ;;
    let be := (magic =? PCAP_MAGIC_BE) || (magic =? PCAPNS_MAGIC_BE) in
    modify (fun f =>
      set_if [pcap_interface (_if f) magic be header]
        (set_version (get16 be header 0) (get16 be header 2)
           (set_be be (set_ng false f))))
  else if magic =? PCAPNG_MAGIC then
    modify (set_ng true) ;;;
    header <- readNgBlockBody magic ;;
    if zlength header <? 16 then fail TruncatedSectionHeader
    else
      modify (fun f =>
        set_if [] (set_version (get16 (_be f) header 4) (get16 (_be f) header 6) f))
  else fail UnknownMagic.

(** ** [analyzeNgInterface]: a pcap-ng interface description *)

(** The time offset option: seconds, as signed 64 bits, held in
    microseconds. *)
Definition tsoffset_micros (be : bool) (data : list byte) (off : Z) : Z :=
  sint64 (sint64 (get64 be data off) * micro_den).

(** The time resolution option.  The language leaves a shift of 64 bits
    or more undefined; the model follows the shift instruction of x86-64,
    which the compiled code uses and which takes the count modulo 64. *)
Definition tsresol_units (b : Z) : Z :=
  if Z.land b 0x80 =? 0 then Power10 b
  else sint64 (Z.shiftl 1 (Z.land b 0x7F mod 64)).

(** The loop on options; [pos] is [data - start], [size] is [end - start].
    Every turn advances by at least 4 bytes, which bounds the fuel. *)
Fixpoint ng_options (fuel : nat) (be : bool) (data : list byte) (size pos : Z)
    (ifd : InterfaceDesc) : Error + InterfaceDesc :=
  match fuel with
  | O => inr ifd
  | S fuel' =>
      if pos + 4 <=? size then
        let tag := get16 be data pos in
        let len := get16 be data (pos + 2) in
        let pos := pos + 4 in
        if size <? pos + len then inl CorruptOptionList
        else
          let ifd' :=
            if (tag =? PCAPNG_IF_FCSLEN) && (len =? 1) then
              mkInterfaceDesc (link_type ifd) (byte_at data pos) (time_units ifd) (time_offset ifd)
            else if (tag =? PCAPNG_IF_TSOFFSET) && (len =? 8) then
              mkInterfaceDesc (link_type ifd) (fcs_size ifd) (time_units ifd)
                              (tsoffset_micros be data pos)
            else if (tag =? PCAPNG_IF_TSRESOL) && (len =? 1) then
              mkInterfaceDesc (link_type ifd) (fcs_size ifd) (tsresol_units (byte_at data pos))
                              (time_offset ifd)
            else ifd in
          ng_options fuel' be data size (pos + round_up4 len) ifd'
      else inr ifd
  end.

Definition analyzeNgInterface (data : list byte) : M unit :=
  let size := zlength data in
  if size <? 8 then fail BadInterfaceDesc
  else
    be <- get _be ;;
    let ifd := mkInterfaceDesc (get16 be data 0) 0 micro_den 0 in
    match ng_options (length data) be data size 8 ifd with
    | inl e => fail e
    | inr ifd' => modify (fun f => set_if (_if f ++ [ifd']) f)
    end.

(** ** [open] and [close] *)

Definition close (f : PcapFile) : PcapFile := set_in None f.

(** [open(filename)].  [source] is what the file name designates, the
    standard input when it is empty or "-": [None] when it cannot be opened,
    else its bytes.  [piped] tells whether the position of the stream cannot
    be told, as for a pipe or a terminal, be it the standard input or a
    named file; the position of a regular file can be told, also when it is
    the standard input. *)
Definition reset_counters (f : PcapFile) : PcapFile :=
  mkPcapFile false (_in f) (_be f) (_ng f) (_major f) (_minor f) 0 0 0 0 0 (-1) (-1) (_if f).

Definition open (source : option (list byte)) (piped : bool) : M unit := fun f =>
  match _in f with
  | Some _ => (inl AlreadyOpen, f)
  | None =>
      let f := reset_counters f in
      match source with
      | None => (inl OpenFailed, f)
      | Some content =>
          let f := set_in (Some (mkIstream content 0 (negb piped) false O)) f in
          match readall 4 f with
          | (inl e, f') => (inl e, close f')
          | (inr magic, f') =>
              match readHeader (GetUInt32BE magic 0) f' with
              | (inl e, f'') => (inl e, close f'')
              | (inr _, f'') => (inr tt, f'')
              end
          end
      end
  end.

(** ** Addresses, packets and VLAN stacks *)

(** Modelled from the spec: [IPSocketAddress] (tsIPSocketAddress.h is not
    among the sources) is an address and an optional port; an unset
    address or port acts as a wildcard in [match]. *)
Record IPSocketAddress := mkSock {
  sa_address : option Z;
  sa_port : option Z
}.

Definition hasAddress (a : IPSocketAddress) : bool :=
  match sa_address a with Some _ => true | None => false end.
Definition hasPort (a : IPSocketAddress) : bool :=
  match sa_port a with Some _ => true | None => false end.

Definition opt_match (x y : option Z) : bool :=
  match x, y with
  | Some u, Some v => u =? v
  | _, _ => true
  end.

Definition sock_match (a other : IPSocketAddress) : bool :=
  opt_match (sa_address a) (sa_address other) && opt_match (sa_port a) (sa_port other).

(** [clear()]. *)
Definition sock_clear : IPSocketAddress := mkSock None None.

(** Modelled from the spec: what [IPPacket] exposes (tsIPPacket.h is not
    among the sources). *)
Record IPPacket := mkIPPacket {
  ip_source : IPSocketAddress;
  ip_destination : IPSocketAddress;
  ip_protocol : Z;
  ip_size : Z;
  ip_protocolDataSize : Z
}.

Record VLANId := mkVLANId {
  vlan_type : Z;
  vlan_id : Z
}.

Definition VLANIdStack := list VLANId.

(** ** Timestamps *)

(** [timeOffset(timestamp)]. *)
Definition timeOffset (f : PcapFile) (timestamp : Z) : Z :=
  if (timestamp <? 0) || (_first_timestamp f <? 0) then 0
  else timestamp - _first_timestamp f.

(** The raw tick count of an Enhanced or Obsolete packet block. *)
Definition ng_ticks (be : bool) (buffer : list byte) : Z :=
  sint64 (Z.shiftl (get32 be buffer 4) 32) + get32 be buffer 8.

(** The conversion of [tstamp] ticks of [units] per second to microseconds,
    for [units <> 0].  [/] and [%] truncate toward zero. *)
Definition ng_timestamp (units tstamp : Z) : Z :=
  if units =? micro_den then tstamp
  else if (units >? micro_den) && (Z.rem units micro_den =? 0) then
    Z.quot tstamp (Z.quot units micro_den)
  else if (units <? micro_den) && (Z.rem micro_den units =? 0) then
    sint64 (tstamp * Z.quot micro_den units)
  else if mul_overflow tstamp micro_den then
    Double.to_int64
      (Double.div (Double.mul (Double.of_Z tstamp) (Double.of_Z micro_den))
                  (Double.of_Z units))
  else Z.quot (tstamp * micro_den) units.

(** The timestamp of an Enhanced or Obsolete packet block on interface
    [if_index]; -1 when the interface is unknown or has no time unit. *)
Definition ng_block_timestamp (ifs : list InterfaceDesc) (if_index : Z)
    (be : bool) (buffer : list byte) : Z :=
  if (if_index <? zlength ifs) &&
     negb (time_units (nth (Z.to_nat if_index) ifs InterfaceDesc_default) =? 0)
  then ng_timestamp (time_units (nth (Z.to_nat if_index) ifs InterfaceDesc_default))
                    (ng_ticks be buffer)
  else -1.

(** The timestamp of a pcap record. *)
Definition pcap_timestamp (units tstamp sub_tstamp : Z) : Z :=
  if units <? 0 then -1
  else tstamp * micro_den + Z.quot (sub_tstamp * micro_den) units.

(** Lines 423-429 of [readIP]: adjust the timestamp of the packet and
    record it as first and last timestamp.  Returns the adjusted timestamp. *)
Definition update_timestamps (timestamp offset : Z) (f : PcapFile) : Z * PcapFile :=
  if 0 <=? timestamp then
    let timestamp := sint64 (timestamp + offset) in
    let f := if _first_timestamp f <? 0 then set_first_timestamp timestamp f else f in
    (timestamp, set_last_timestamp timestamp f)
  else (timestamp, f).

(** ** Link-layer decapsulation *)

(** The loop on VLAN encapsulations.  A turn either consumes at least 4 of
    the [cap_size] bytes or sets [cap_size] to 0, which bounds the fuel. *)
Fixpoint vlan_loop (fuel : nat) (buffer : list byte)
    (ether_type cap_start cap_size : Z) (vlans : VLANIdStack)
    : Z * Z * Z * VLANIdStack :=
  match fuel with
  | O => (ether_type, cap_start, cap_size, vlans)
  | S fuel' =>
      if negb (ether_type =? ETHERTYPE_IPv4) && negb (ether_type =? ETHERTYPE_IPv6)
         && (0 <? cap_size) then
        if ((ether_type =? ETHERTYPE_802_1Q) || (ether_type =? ETHERTYPE_802_1AD))
           && (4 <=? cap_size) then
          let ether_type' := GetUInt16BE buffer (cap_start + 2) in
          vlan_loop fuel' buffer ether_type' (cap_start + 4) (cap_size - 4)
            (vlans ++ [mkVLANId ether_type' (Z.land (GetUInt16BE buffer cap_start) 0x0FFF)])
        else if (ether_type =? ETHERTYPE_802_1AH) && (18 <=? cap_size) then
          let ether_type' := GetUInt16BE buffer (cap_start + 16) in
          vlan_loop fuel' buffer ether_type' (cap_start + 18) (cap_size - 18)
            (vlans ++ [mkVLANId ether_type' (Z.land (GetUInt24BE buffer (cap_start + 1)) 0x0FFF)])
        else
          vlan_loop fuel' buffer ether_type cap_start 0 vlans
      else (ether_type, cap_start, cap_size, vlans)
  end.

Definition vlan_fuel (cap_size : Z) : nat := S (Z.to_nat cap_size).

Definition vlan_unwrap (buffer : list byte) (ether_type cap_start cap_size : Z)
    (vlans : VLANIdStack) : Z * Z * Z * VLANIdStack :=
  vlan_loop (vlan_fuel cap_size) buffer ether_type cap_start cap_size vlans.

(** The Ethernet branch: EtherType at offset 12, 14-byte header and
    trailing FCS removed, then the VLAN loop. *)
Definition ethernet_decap (buffer : list byte) (fcs cap_start cap_size : Z)
    : Z * Z * VLANIdStack :=
  let ether_type := GetUInt16BE buffer (cap_start + ETHER_TYPE_OFFSET) in
  let '(_, start, size, vlans) :=
    vlan_unwrap buffer ether_type (cap_start + ETHER_HEADER_SIZE)
                (cap_size - (ETHER_HEADER_SIZE + fcs)) [] in
  (start, size, vlans).

Definition bsd_protocol (lt : Z) (be : bool) (buffer : list byte) (cap_start cap_size : Z) : Z :=
  if 4 <=? cap_size then
    if lt =? LINKTYPE_NULL then get32 be buffer cap_start
    else if lt =? LINKTYPE_LOOP then GetUInt32BE buffer cap_start
    else PCAPNG_BSD_UNKNOWN
  else PCAPNG_BSD_UNKNOWN.

Definition is_bsd_ip (bsd_proto : Z) : bool :=
  (bsd_proto =? PCAPNG_BSD_IPv4) || (bsd_proto =? PCAPNG_BSD_IPv6_24) ||
  (bsd_proto =? PCAPNG_BSD_IPv6_28) || (bsd_proto =? PCAPNG_BSD_IPv6_30).

(** Lines 439-502 of [readIP]: locate a possible IP datagram in the captured
    packet; a [cap_size] of 0 means none. *)
Definition decapsulate (ifd : InterfaceDesc) (be : bool) (buffer : list byte)
    (cap_start cap_size : Z) : Z * Z * VLANIdStack :=
  let lt := link_type ifd in
  if is_bsd_ip (bsd_protocol lt be buffer cap_start cap_size) then
    (cap_start + 4, cap_size - 4, [])
  else if ((lt =? LINKTYPE_ETHERNET) || (lt =? LINKTYPE_NULL) || (lt =? LINKTYPE_LOOP))
          && (ETHER_HEADER_SIZE + fcs_size ifd <? cap_size) then
    ethernet_decap buffer (fcs_size ifd) cap_start cap_size
  else if (lt =? LINKTYPE_RAW) && (1 <=? cap_size) then
    let version := byte_at buffer cap_start in
    if negb (version =? IPv4_VERSION) && negb (version =? IPv6_VERSION)
    then (cap_start, 0, [])
    else (cap_start, cap_size, [])
  else (cap_start, 0, []).

(** ** [PcapFile::readIP] *)

(** A captured packet as the first half of a turn of the loop leaves it:
    the block or record, and where the packet lies in it. *)
Record Captured := mkCaptured {
  c_buffer : list byte;
  cap_start : Z;
  cap_size : Z;
  orig_size : Z;
  if_index : Z;
  c_timestamp : Z
}.

Definition incr_packet_count (f : PcapFile) : PcapFile :=
  set_packet_count (wrap64 (_packet_count f + 1)) f.

Definition is_packet_block (type : Z) : bool :=
  (type =? PCAPNG_ENHANCED_PACKET) || (type =? PCAPNG_OBSOLETE_PACKET).

(** Lines 330-385: a pcap-ng block of type [type].  [None] stands for
    [continue]. *)
Definition ng_block (type : Z) : M (option Captured) :=
  if type =? PCAPNG_SECTION_HEADER then
    readHeader type ;;; ret None
  else
    buffer <- readNgBlockBody type ;;
    if type =? PCAPNG_INTERFACE_DESC then
      analyzeNgInterface buffer ;;; ret None
    else if is_packet_block type && (20 <=? zlength buffer) then
      modify incr_packet_count ;;;
      be <- get _be ;;
      ifs <- get _if ;;
      let idx := if type =? PCAPNG_OBSOLETE_PACKET then get16 be buffer 0
                 else get32 be buffer 0 in
      ret (Some {| c_buffer := buffer;
                   cap_start := 20;
                   cap_size := Z.min (get32 be buffer 12) (zlength buffer - 20);
                   orig_size := get32 be buffer 16;
                   if_index := idx;
                   c_timestamp := ng_block_timestamp ifs idx be buffer |})
    else if (type =? PCAPNG_SIMPLE_PACKET) && (4 <=? zlength buffer) then
      modify incr_packet_count ;;;
      be <- get _be ;;
      let orig := get32 be buffer 0 in
      ret (Some {| c_buffer := buffer;
                   cap_start := 4;
                   cap_size := Z.min orig (zlength buffer - 4);
                   orig_size := orig;
                   if_index := 0;
                   c_timestamp := -1 |})
    else ret None.

(** Lines 324-329: the block type, then the block. *)
Definition read_ng_block : M (option Captured) :=
  type_field <- readall 4 ;;
  be <- get _be ;;
  ng_block (get32 be type_field 0).

(** Lines 394-408: a pcap record after its 16-byte header. *)
Definition pcap_record (header : list byte) : M (option Captured) :=
  be <- get _be ;;
  ifs <- get _if ;;
  let tstamp := get32 be header 0 in
  let sub_tstamp := get32 be header 4 in
  let size := get32 be header 8 in
  buffer <- readall size ;;
  ret (Some {| c_buffer := buffer;
               cap_start := 0;
               cap_size := size;
               orig_size := get32 be header 12;
               if_index := 0;
               c_timestamp := pcap_timestamp (time_units (nth 0 ifs InterfaceDesc_default))
                                             tstamp sub_tstamp |}).

(** Lines 388-393: the packet is counted, then the header is read. *)
Definition read_pcap_record : M (option Captured) :=
  modify incr_packet_count ;;;
  header <- readall 16 ;;
  pcap_record header.

Definition read_block : M (option Captured) := fun f =>
  if _ng f then read_ng_block f else read_pcap_record f.

Definition interface_of (f : PcapFile) (idx : Z) : InterfaceDesc :=
  if idx <? zlength (_if f) then nth (Z.to_nat idx) (_if f) InterfaceDesc_default
  else InterfaceDesc_default.

(** What a successful [readIP] delivers. *)
Definition Found : Type := IPPacket * VLANIdStack * Z.

Section Reader.

(** [IPPacket::reset(data, size)], the parser of IP datagrams, is outside
    of the reader: [None] when the bytes are not a valid datagram. *)
Variable packet_reset : list byte -> option IPPacket.

(** Lines 411-514: process the captured packet.  [None] stands for the
    next turn of the loop. *)
Definition process_captured (c : Captured) : M (option Found) := fun f =>
  let f := set_packets_size (wrap64 (_packets_size f + cap_size c)) f in
  if cap_size c <? orig_size c then (inr None, f)
  else
    let ifd := interface_of f (if_index c) in
    let '(timestamp, f) := update_timestamps (c_timestamp c) (time_offset ifd) f in
    let '(start, size, vlans) :=
      decapsulate ifd (_be f) (c_buffer c) (cap_start c) (cap_size c) in
    if 0 <? size then
      match packet_reset (sub_bytes (c_buffer c) start size) with
      | Some packet =>
          (inr (Some (packet, vlans, timestamp)),
           set_ip_packets_size (wrap64 (_ip_packets_size f + size))
             (set_ip_packet_count (wrap64 (_ip_packet_count f + 1)) f))
      | None => (inr None, f)
      end
    else (inr None, f).

(** One turn of the loop of [readIP]. *)
Definition readIP_turn : M (option Found) := fun f =>
  match read_block f with
  | (inl e, f') => (inl e, f')
  | (inr None, f') => (inr None, f')
  | (inr (Some c), f') => process_captured c f'
  end.

(** The loop; [None] when the fuel is exhausted. *)
Fixpoint readIP_loop (fuel : nat) (f : PcapFile) : option ((Error + Found) * PcapFile) :=
  match fuel with
  | O => None
  | S fuel' =>
      match readIP_turn f with
      | (inl e, f') => Some (inl e, f')
      | (inr (Some r), f') => Some (inr r, f')
      | (inr None, f') => readIP_loop fuel' f'
      end
  end.

(** Every turn that goes on has consumed input, so one more than the number
    of remaining bytes is enough fuel ([readIP_loop_total]). *)
Definition readIP_fuel (f : PcapFile) : nat := S (length (remaining f)).

Definition readIP : M Found := fun f =>
  match _in f with
  | None => (inl NotOpen, f)
  | Some _ =>
      if _error f then (inl ErrorState, f)
      else
        match readIP_loop (readIP_fuel f) f with
        | Some r => r
        | None => (inl ErrorState, error f)
        end
  end.

End Reader.

(** ** [PcapFilter] *)

(** Modelled from the spec: [VLANIdStack::match] (not among the sources):
    for each expected id in order, some tag with that id exists at or after
    the current outer-to-inner cursor. *)
Fixpoint vlans_match (vlans expected : VLANIdStack) : bool :=
  match expected with
  | [] => true
  | e :: es =>
      (fix find (vl : VLANIdStack) : bool :=
         match vl with
         | [] => false
         | v :: vs => if vlan_id v =? vlan_id e then vlans_match vs es else find vs
         end) vlans
  end.

(** The options of the command line as [Args] delivers them: absent or a
    value; a date option is absent, undecodable, or a date given as
    milliseconds from the Unix epoch (negative before it). *)
Inductive DateArg :=
| DateAbsent
| DateInvalid
| DateValue (millis : Z).

Record Args := mkArgs {
  arg_first_packet : option Z;
  arg_last_packet : option Z;
  arg_first_timestamp : option Z;
  arg_last_timestamp : option Z;
  arg_first_date : DateArg;
  arg_last_date : DateArg;
  arg_vlan_id : list Z
}.

Record PcapFilter := mkPcapFilter {
  file : PcapFile;
  _protocols : list Z;
  _source : IPSocketAddress;
  _destination : IPSocketAddress;
  _bidirectional_filter : bool;
  _wildcard_filter : bool;
  _first_packet : Z;
  _last_packet : Z;
  _first_time_offset : Z;
  _last_time_offset : Z;
  _first_time : Z;
  _last_time : Z;
  _opt_first_packet : Z;
  _opt_last_packet : Z;
  _opt_first_time_offset : Z;
  _opt_last_time_offset : Z;
  _opt_first_time : Z;
  _opt_last_time : Z;
  _opt_vlans : VLANIdStack
}.

Definition set_file (v : PcapFile) (p : PcapFilter) : PcapFilter :=
  mkPcapFilter v (_protocols p) (_source p) (_destination p)
    (_bidirectional_filter p) (_wildcard_filter p)
    (_first_packet p) (_last_packet p) (_first_time_offset p) (_last_time_offset p)
    (_first_time p) (_last_time p)
    (_opt_first_packet p) (_opt_last_packet p) (_opt_first_time_offset p)
    (_opt_last_time_offset p) (_opt_first_time p) (_opt_last_time p) (_opt_vlans p).

Definition set_addresses (src dst : IPSocketAddress) (p : PcapFilter) : PcapFilter :=
  mkPcapFilter (file p) (_protocols p) src dst
    (_bidirectional_filter p) (_wildcard_filter p)
    (_first_packet p) (_last_packet p) (_first_time_offset p) (_last_time_offset p)
    (_first_time p) (_last_time p)
    (_opt_first_packet p) (_opt_last_packet p) (_opt_first_time_offset p)
    (_opt_last_time_offset p) (_opt_first_time p) (_opt_last_time p) (_opt_vlans p).

Definition set_flow (protocols : list Z) (src dst : IPSocketAddress)
    (bidirectional wildcard : bool) (p : PcapFilter) : PcapFilter :=
  mkPcapFilter (file p) protocols src dst bidirectional wildcard
    (_first_packet p) (_last_packet p) (_first_time_offset p) (_last_time_offset p)
    (_first_time p) (_last_time p)
    (_opt_first_packet p) (_opt_last_packet p) (_opt_first_time_offset p)
    (_opt_last_time_offset p) (_opt_first_time p) (_opt_last_time p) (_opt_vlans p).

(** [getDate]: a date option as microseconds since the Unix epoch.  The
    dates of the format have four-digit years, which keeps the product far
    from the bounds of 64 bits. *)
Definition getDate (arg : DateArg) (def_value : Z) : Z :=
  match arg with
  | DateAbsent => def_value
  | DateInvalid => def_value
  | DateValue millis => if millis <? 0 then def_value else millis * 1000
  end.

Definition getValue (arg : option Z) (def_value : Z) : Z :=
  match arg with Some v => v | None => def_value end.

(** [loadArgs]. *)
Definition loadArgs (args : Args) (p : PcapFilter) : PcapFilter :=
  mkPcapFilter (file p) (_protocols p) (_source p) (_destination p)
    (_bidirectional_filter p) (_wildcard_filter p)
    (_first_packet p) (_last_packet p) (_first_time_offset p) (_last_time_offset p)
    (_first_time p) (_last_time p)
    (getValue (arg_first_packet args) 0)
    (getValue (arg_last_packet args) SIZE_MAX)
    (getValue (arg_first_timestamp args) 0)
    (getValue (arg_last_timestamp args) INT64_MAX)
    (getDate (arg_first_date args) 0)
    (getDate (arg_last_date args) INT64_MAX)
    (map (fun id => mkVLANId ETHERTYPE_NULL id) (arg_vlan_id args)).

(** The protocol and address filters. *)
Definition setProtocolFilterTCP : PcapFilter -> PcapFilter :=
  fun p => set_flow [IP_SUBPROTO_TCP] (_source p) (_destination p)
                    (_bidirectional_filter p) (_wildcard_filter p) p.
Definition setProtocolFilterUDP : PcapFilter -> PcapFilter :=
  fun p => set_flow [IP_SUBPROTO_UDP] (_source p) (_destination p)
                    (_bidirectional_filter p) (_wildcard_filter p) p.
Definition setProtocolFilter (protocols : list Z) : PcapFilter -> PcapFilter :=
  fun p => set_flow protocols (_source p) (_destination p)
                    (_bidirectional_filter p) (_wildcard_filter p) p.
Definition clearProtocolFilter : PcapFilter -> PcapFilter :=
  fun p => set_flow [] (_source p) (_destination p)
                    (_bidirectional_filter p) (_wildcard_filter p) p.
Definition setSourceFilter (addr : IPSocketAddress) : PcapFilter -> PcapFilter :=
  fun p => set_flow (_protocols p) addr (_destination p) false (_wildcard_filter p) p.
Definition setDestinationFilter (addr : IPSocketAddress) : PcapFilter -> PcapFilter :=
  fun p => set_flow (_protocols p) (_source p) addr false (_wildcard_filter p) p.
Definition setBidirectionalFilter (addr1 addr2 : IPSocketAddress) : PcapFilter -> PcapFilter :=
  fun p => set_flow (_protocols p) addr1 addr2 true (_wildcard_filter p) p.
Definition setWildcardFilter (on : bool) : PcapFilter -> PcapFilter :=
  fun p => set_flow (_protocols p) (_source p) (_destination p) (_bidirectional_filter p) on p.

Definition contains (protocols : list Z) (x : Z) : bool := existsb (Z.eqb x) protocols.

Definition is_empty {A} (l : list A) : bool :=
  match l with [] => true | _ => false end.

Definition use_port (p : PcapFilter) : bool :=
  is_empty (_protocols p) || contains (_protocols p) IP_SUBPROTO_TCP
  || contains (_protocols p) IP_SUBPROTO_UDP.

Definition addressFilterIsSet (p : PcapFilter) : bool :=
  hasAddress (_source p) && (negb (use_port p) || hasPort (_source p)) &&
  hasAddress (_destination p) && (negb (use_port p) || hasPort (_destination p)).

(** [PcapFilter::open]: the superclass, then the filters are reinitialized
    when it succeeded. *)
Definition reinit_filters (p : PcapFilter) : PcapFilter :=
  mkPcapFilter (file p) [] sock_clear sock_clear false true
    (_opt_first_packet p) (_opt_last_packet p) (_opt_first_time_offset p)
    (_opt_last_time_offset p) (_opt_first_time p) (_opt_last_time p)
    (_opt_first_packet p) (_opt_last_packet p) (_opt_first_time_offset p)
    (_opt_last_time_offset p) (_opt_first_time p) (_opt_last_time p) (_opt_vlans p).

Definition PcapFilter_open (source : option (list byte)) (piped : bool)
    (p : PcapFilter) : (Error + unit) * PcapFilter :=
  match open source piped (file p) with
  | (inr _, f') => (inr tt, reinit_filters (set_file f' p))
  | (inl e, f') => (inl e, set_file f' p)
  end.

(** What the body of the loop of [PcapFilter::readIP] does with a packet
    that the superclass returned. *)
Inductive Verdict := Stop | Drop | Accept.

(** Lines 224-240: final conditions and general filters. *)
Definition window_verdict (p : PcapFilter) (packet : IPPacket)
    (vlans : VLANIdStack) (timestamp : Z) : Verdict :=
  let f := file p in
  if (_last_packet p <? _packet_count f) || (_last_time p <? timestamp)
     || (_last_time_offset p <? timeOffset f timestamp) then Stop
  else if (negb (is_empty (_protocols p)) && negb (contains (_protocols p) (ip_protocol packet)))
          || (_packet_count f <? _first_packet p)
          || (timestamp <? _first_time p)
          || (timeOffset f timestamp <? _first_time_offset p)
          || negb (vlans_match vlans (_opt_vlans p)) then Drop
  else Accept.

(** Lines 242-267: the packet against the filtered session; an unspecified
    filter takes the addresses of the packet it lets through. *)
Definition flow_verdict (p : PcapFilter) (packet : IPPacket) : Verdict * PcapFilter :=
  let src := ip_source packet in
  let dst := ip_destination packet in
  let unspecified := negb (_wildcard_filter p) && negb (addressFilterIsSet p) in
  if sock_match src (_source p) && sock_match dst (_destination p) then
    (Accept, if unspecified then set_addresses src dst p else p)
  else if _bidirectional_filter p && sock_match src (_destination p)
          && sock_match dst (_source p) then
    (Accept, if unspecified then set_addresses dst src p else p)
  else (Drop, p).

Definition filter_packet (p : PcapFilter) (packet : IPPacket)
    (vlans : VLANIdStack) (timestamp : Z) : Verdict * PcapFilter :=
  match window_verdict p packet vlans timestamp with
  | Accept => flow_verdict p packet
  | v => (v, p)
  end.

Section Filter.

Variable packet_reset : list byte -> option IPPacket.

(** [PcapFilter::readIP]: read packets until one matches all filters.
    [inl None] is the [false] of a final condition, [inl (Some e)] the
    [false] of the superclass. *)
Fixpoint PcapFilter_loop (fuel : nat) (p : PcapFilter)
    : option ((option Error + Found) * PcapFilter) :=
  match fuel with
  | O => None
  | S fuel' =>
      match readIP packet_reset (file p) with
      | (inl e, f') => Some (inl (Some e), set_file f' p)
      | (inr (packet, vlans, timestamp), f') =>
          let p := set_file f' p in
          match filter_packet p packet vlans timestamp with
          | (Stop, p') => Some (inl None, p')
          | (Drop, p') => PcapFilter_loop fuel' p'
          | (Accept, p') => Some (inr (packet, vlans, timestamp), p')
          end
      end
  end.

Definition PcapFilter_readIP (p : PcapFilter) : (option Error + Found) * PcapFilter :=
  match PcapFilter_loop (readIP_fuel (file p)) p with
  | Some r => r
  | None => (inl (Some ErrorState), p)
  end.

End Filter.

(** ** The vocabulary of the properties *)

(** The reader after a successful [readall] of [n > 0] bytes. *)
Definition advance (n : Z) (f : PcapFile) : PcapFile :=
  match _in f with
  | None => f
  | Some s =>
      let s' := mkIstream (skipn (Z.to_nat n) (rest s)) (gpos s + n)
                          (seekable s) false (S (reads s)) in
      let f' := set_in (Some s') f in
      if seekable s then set_file_size (gpos s') f' else f'
  end.

(** The input is in a good state and holds at least [n] more bytes. *)
Definition readable (n : Z) (f : PcapFile) : Prop :=
  exists s, _in f = Some s /\ failed s = false /\ n <= zlength (rest s).

(** The input is open, in a good state, at offset [k] of [str]. *)
Definition at_offset (str : list byte) (k : Z) (f : PcapFile) : Prop :=
  exists s, _in f = Some s /\ failed s = false /\ rest s = skipn (Z.to_nat k) str.

(** The counters and timestamps that only the second half of a turn of
    [readIP] changes. *)
Definition counters (f : PcapFile) : Z * Z * Z * Z * Z :=
  (_ip_packet_count f, _packets_size f, _ip_packets_size f,
   _first_timestamp f, _last_timestamp f).

(** What all the reading operations guarantee: a failure sets the error
    indicator and a success leaves it alone, input is only consumed, the file
    stays open, and the counters above are untouched. *)
Definition regular {A} (m : M A) : Prop :=
  forall f,
    (match fst (m f) with
     | inl _ => _error (snd (m f)) = true
     | inr _ => _error (snd (m f)) = _error f
     end) /\
    (length (remaining (snd (m f))) <= length (remaining f))%nat /\
    isOpen (snd (m f)) = isOpen f /\
    counters (snd (m f)) = counters f.

(** An operation that does not count a packet, and one that counts exactly
    one when it delivers a captured packet. *)
Definition keeps_count {A} (m : M A) : Prop :=
  forall f, _packet_count (snd (m f)) = _packet_count f.

Definition counts_packet (m : M (option Captured)) : Prop :=
  forall f, match fst (m f) with
            | inr (Some _) => _packet_count (snd (m f)) = wrap64 (_packet_count f + 1)
            | _ => True
            end.

(** The reader after [n] calls of [readIP]. *)
Fixpoint after_reads (packet_reset : list byte -> option IPPacket) (n : nat)
    (f : PcapFile) : PcapFile :=
  match n with
  | O => f
  | S n' => after_reads packet_reset n' (snd (readIP packet_reset f))
  end.

(** The captured packets that reach lines 423-429, in read order, each as
    its timestamp and the time offset of its interface; [observe] is what
    the reader records of them. *)
Definition observe (obs : list (Z * Z)) (f : PcapFile) : PcapFile :=
  fold_left (fun f o => snd (update_timestamps (fst o) (snd o) f)) obs f.

(** The real timestamps among them, adjusted by the time offset. *)
Definition adjusted (obs : list (Z * Z)) : list Z :=
  map (fun o => sint64 (fst o + snd o)) (filter (fun o => 0 <=? fst o) obs).

Fixpoint nondecreasing (l : list Z) : Prop :=
  match l with
  | [] => True
  | x :: l' => match l' with [] => True | y :: _ => x <= y end /\ nondecreasing l'
  end.



(** The fields of the block that [readNgBlockBody] is about to read, the
    input being at the leading length.  A Section Header gives its own
    endianness by the byte-order magic that follows the leading length, and
    these 4 bytes of its body are read before the length is interpreted.
    The trailing length is the 32-bit value that follows the body. *)
Definition already_read (block_type : Z) : Z :=
  if block_type =? PCAPNG_SECTION_HEADER then 4 else 0.

Definition block_endianness (block_type : Z) (f : PcapFile) : bool :=
  if block_type =? PCAPNG_SECTION_HEADER
  then GetUInt32BE (remaining f) 4 =? PCAPNG_ORDER_BE
  else _be f.

Definition leading_length (block_type : Z) (f : PcapFile) : Z :=
  get32 (block_endianness block_type f) (remaining f) 0.

(** The trailing length: the last four bytes of the block of [L] bytes
    that the leading length announces, the type, which is already read,
    being the first four. *)
Definition trailing_length (block_type : Z) (f : PcapFile) : Z :=
  get32 (block_endianness block_type f) (remaining f)
        (leading_length block_type f - 8).

(** The input holds the leading length and, for a Section Header, a valid
    byte-order magic. *)
Definition block_start (block_type : Z) (f : PcapFile) : Prop :=
  readable (4 + already_read block_type) f /\
  (block_type = PCAPNG_SECTION_HEADER ->
   GetUInt32BE (remaining f) 4 = PCAPNG_ORDER_BE \/
   GetUInt32BE (remaining f) 4 = PCAPNG_ORDER_LE).

(** The FCS size in the words of the specification: bit 0x10 of the byte
    gates a nibble of the byte, four bits, which is doubled to bytes.  The
    two nibbles of a byte are [high_nibble] and [low_nibble]. *)
Definition high_nibble (b : Z) : Z := Z.shiftr b 4.
Definition low_nibble (b : Z) : Z := Z.land b 0x0F.

Definition spec_fcs_size (nibble : Z -> Z) (b : Z) : Z :=
  if Z.land b 0x10 =? 0 then 0 else 2 * nibble b.

(** The input holds the whole block: its leading length, a valid byte-order
    magic for a Section Header, and what is left of the [L] bytes that the
    leading length announces. *)
Definition block_present (block_type : Z) (f : PcapFile) : Prop :=
  block_start block_type f /\
  leading_length block_type f - 4 <= zlength (remaining f).

(** Line 245: some field of the stream addresses is unspecified and
    wildcards are not allowed. *)
Definition unspecified_filter (p : PcapFilter) : bool :=
  negb (_wildcard_filter p) && negb (addressFilterIsSet p).

(** Lines 250 and 257: the two ways of belonging to the filtered session. *)
Definition forward_match (p : PcapFilter) (packet : IPPacket) : bool :=
  sock_match (ip_source packet) (_source p) && sock_match (ip_destination packet) (_destination p).

Definition backward_match (p : PcapFilter) (packet : IPPacket) : bool :=
  _bidirectional_filter p && sock_match (ip_source packet) (_destination p)
  && sock_match (ip_destination packet) (_source p).

(** Both endpoints of a packet have what [addressFilterIsSet] asks for. *)
Definition fully_specified (p : PcapFilter) (packet : IPPacket) : Prop :=
  hasAddress (ip_source packet) = true /\ hasAddress (ip_destination packet) = true /\
  (use_port p = true ->
   hasPort (ip_source packet) = true /\ hasPort (ip_destination packet) = true).

(** The flow part of a filter. *)
Definition flow_of (p : PcapFilter) : list Z * IPSocketAddress * IPSocketAddress * bool * bool :=
  (_protocols p, _source p, _destination p, _bidirectional_filter p, _wildcard_filter p).

(** The filters that a program reaches once [loadArgs] has loaded the
    options [args]: [open] succeeds, then packets are read and the protocol
    and address filters are set, in any order. *)
Inductive Session (packet_reset : list byte -> option IPPacket) (args : Args)
    : PcapFilter -> Prop :=
| session_open (p0 p : PcapFilter) (source : option (list byte)) (piped : bool) :
    PcapFilter_open source piped (loadArgs args p0) = (inr tt, p) ->
    Session packet_reset args p
| session_readIP (p : PcapFilter) :
    Session packet_reset args p ->
    Session packet_reset args (snd (PcapFilter_readIP packet_reset p))
| session_set_flow (p : PcapFilter) (protocols : list Z) (src dst : IPSocketAddress)
    (bidirectional wildcard : bool) :
    Session packet_reset args p ->
    Session packet_reset args (set_flow protocols src dst bidirectional wildcard p).

(** ** A parser and files to run the reader on *)

(** A minimal IPv4 parser standing for [IPPacket::reset] in the examples:
    version 4, a complete header, ports for TCP and UDP. *)
Definition ipv4_reset (data : list byte) : option IPPacket :=
  let ihl := 4 * Z.land (byte_at data 0) 0x0F in
  if (Z.shiftr (byte_at data 0) 4 =? 4) && (20 <=? ihl) && (ihl <=? zlength data) then
    let proto := byte_at data 9 in
    let ports := ((proto =? IP_SUBPROTO_TCP) || (proto =? IP_SUBPROTO_UDP))
                 && (ihl + 4 <=? zlength data) in
    Some {| ip_source := mkSock (Some (GetUInt32BE data 12))
                                (if ports then Some (GetUInt16BE data ihl) else None);
            ip_destination := mkSock (Some (GetUInt32BE data 16))
                                     (if ports then Some (GetUInt16BE data (ihl + 2)) else None);
            ip_protocol := proto;
            ip_size := zlength data;
            ip_protocolDataSize := zlength data - ihl |}
  else None.

(** Big-endian and little-endian encodings, to write files down. *)
Definition be16 (z : Z) : list Z := [z / 256; z mod 256].
Definition be32 (z : Z) : list Z := be16 (z / 65536) ++ be16 (z mod 65536).
Definition le32 (z : Z) : list Z := rev (be32 z).

(** Hosts A = 10.0.0.1, B = 10.0.0.2, C and D. *)
Definition host_A : Z := 0x0A000001.
Definition host_B : Z := 0x0A000002.
Definition host_C : Z := 0x0A000003.
Definition host_D : Z := 0x0A000004.

(** An IPv4 datagram with a UDP or TCP port pair and [pad] bytes of data. *)
Definition ipv4_datagram (proto src sport dst dport : Z) (pad : nat) : list Z :=
  [0x45; 0] ++ be16 (24 + Z.of_nat pad) ++ [0; 0; 0; 0; 64; proto; 0; 0]
  ++ be32 src ++ be32 dst ++ be16 sport ++ be16 dport ++ repeat 0 pad.

(** An Ethernet frame: two MAC addresses, then the EtherType and what
    follows it. *)
Definition ether_frame (payload : list Z) : list Z :=
  [2; 0; 0; 0; 0; 1; 2; 0; 0; 0; 0; 2] ++ payload.

(** A UDP datagram from A:53 to B:9999 in an Ethernet frame, 42 bytes. *)
Definition udp_frame : list Z :=
  ether_frame (be16 ETHERTYPE_IPv4
               ++ ipv4_datagram IP_SUBPROTO_UDP host_A 53 host_B 9999 4).

(** An 802.1ad tag, id 100, over an 802.1Q tag, id 200, over IPv4. *)
Definition nested_vlan_frame : list Z :=
  ether_frame (be16 ETHERTYPE_802_1AD ++ be16 100 ++ be16 ETHERTYPE_802_1Q ++ be16 200
               ++ be16 ETHERTYPE_IPv4
               ++ ipv4_datagram IP_SUBPROTO_UDP host_A 53 host_B 9999 4).

(** A big-endian microsecond pcap file header for link type [lt], and a
    record. *)
Definition pcap_header_be (lt : Z) : list Z :=
  be32 PCAP_MAGIC_BE ++ be16 2 ++ be16 4 ++ be32 0 ++ be32 0 ++ be32 65535 ++ be32 lt.

Definition pcap_record_be (sec usec orig : Z) (data : list Z) : list Z :=
  be32 sec ++ be32 usec ++ be32 (zlength data) ++ be32 orig ++ data.

(** A pcap file header announcing an FCS of 4 bytes ([header[16] = 0x50]). *)
Definition pcap_header_fcs : list Z := pcap_header_be 0x50000001.

(** A big-endian pcap-ng block, body padded by the caller. *)
Definition ng_block_be (type : Z) (body : list Z) : list Z :=
  be32 type ++ be32 (zlength body + 12) ++ body ++ be32 (zlength body + 12).

Definition ng_section_be : list Z :=
  ng_block_be PCAPNG_SECTION_HEADER
    (be32 PCAPNG_ORDER_BE ++ be16 1 ++ be16 0 ++ be32 0xFFFFFFFF ++ be32 0xFFFFFFFF).


(** An interface with nanosecond resolution. *)
Definition nano_interface : InterfaceDesc :=
  mkInterfaceDesc LINKTYPE_ETHERNET 0 nano_den 0.

(** An opened reader on the given bytes, and a reader whose input is the
    given bytes, for the operations that follow [open]. *)
Definition opened (content : list Z) : (Error + unit) * PcapFile :=
  open (Some (bytes_of content)) false PcapFile_default.

Definition reader_on (content : list Z) : PcapFile :=
  set_in (Some (mkIstream (bytes_of content) 0 true false O)) PcapFile_default.

(** A pcap file with one UDP datagram captured at 10.5 s. *)
Definition one_packet_file : list Z :=
  pcap_header_be LINKTYPE_ETHERNET ++ pcap_record_be 10 500000 42 udp_frame.

(** A pcap file whose second record is older than the first one: the
    packets were captured at 10 s and at 5 s. *)
Definition unordered_file : list Z :=
  pcap_header_be LINKTYPE_ETHERNET
  ++ pcap_record_be 10 0 42 udp_frame ++ pcap_record_be 5 0 42 udp_frame.

(** A pcap file whose first record is truncated (1500 bytes on the
    network, 500 captured) and whose second record is complete. *)
Definition truncated_file : list Z :=
  pcap_header_be LINKTYPE_ETHERNET
  ++ pcap_record_be 10 0 1500 (repeat 0 500) ++ pcap_record_be 11 0 42 udp_frame.

(** A pcap file that ends in the middle of its second record. *)
Definition cut_file : list Z :=
  pcap_header_be LINKTYPE_ETHERNET
  ++ pcap_record_be 10 0 42 udp_frame ++ be32 11 ++ be32 0 ++ be32 42.

(** A pcap file with the nested VLAN frame as its only record. *)
Definition nested_vlan_file : list Z :=
  pcap_header_be LINKTYPE_ETHERNET
  ++ pcap_record_be 1 0 (zlength nested_vlan_frame) nested_vlan_frame.

(** A big-endian pcap-ng file: a section, an Ethernet interface, and a
    Simple Packet block, which has no timestamp, with the UDP datagram. *)
Definition simple_packet_file : list Z :=
  ng_section_be
  ++ ng_block_be PCAPNG_INTERFACE_DESC (be16 LINKTYPE_ETHERNET ++ be16 0 ++ be32 65535)
  ++ ng_block_be PCAPNG_SIMPLE_PACKET (be32 42 ++ udp_frame ++ [0; 0]).




(** A little-endian input at a Section Header whose leading length is 12,
    followed by the byte-order magic and by 12 again. *)
Definition short_section : list Z :=
  le32 12 ++ be32 PCAPNG_ORDER_LE ++ le32 12.

(** The input of [readNgBlockBody] at a little-endian Interface Description
    block of 20 bytes, and the same with a trailing length of 24. *)
Definition idb_input : list Z := le32 20 ++ [1; 0; 0; 0; 0; 0; 0; 0] ++ le32 20.
Definition idb_input_bad : list Z := le32 20 ++ [1; 0; 0; 0; 0; 0; 0; 0] ++ le32 24.

(** A filter on reader [f] as [open] leaves it when no option was given,
    and a filter opened on the given bytes. *)
Definition no_args : Args := mkArgs None None None None DateAbsent DateAbsent [].

Definition blank_filter (f : PcapFile) : PcapFilter :=
  mkPcapFilter f [] sock_clear sock_clear false true 0 0 0 0 0 0 0 0 0 0 0 0 [].

Definition fresh_filter (f : PcapFile) : PcapFilter :=
  reinit_filters (loadArgs no_args (blank_filter f)).

Definition opened_filter (content : list Z) : (Error + unit) * PcapFilter :=
  PcapFilter_open (Some (bytes_of content)) false
                  (loadArgs no_args (blank_filter PcapFile_default)).

(** A filter that learns its addresses, in one direction and in both. *)
Definition learning_filter : PcapFilter :=
  setWildcardFilter false (fresh_filter PcapFile_default).

Definition learning_filter_bidirectional : PcapFilter :=
  setWildcardFilter false
    (setBidirectionalFilter sock_clear sock_clear (fresh_filter PcapFile_default)).

(** Packets as the parser delivers them: ICMP without ports, UDP and TCP
    with ports. *)
Definition packet_of (proto : Z) (src dst : IPSocketAddress) : IPPacket :=
  mkIPPacket src dst proto 28 8.

Definition icmp_A_B : IPPacket :=
  packet_of 1 (mkSock (Some host_A) None) (mkSock (Some host_B) None).
Definition udp_A_B : IPPacket :=
  packet_of IP_SUBPROTO_UDP (mkSock (Some host_A) (Some 5)) (mkSock (Some host_B) (Some 6)).
Definition tcp_A_B : IPPacket :=
  packet_of IP_SUBPROTO_TCP (mkSock (Some host_A) (Some 1234)) (mkSock (Some host_B) (Some 80)).
Definition tcp_B_A : IPPacket :=
  packet_of IP_SUBPROTO_TCP (mkSock (Some host_B) (Some 80)) (mkSock (Some host_A) (Some 1234)).
Definition tcp_C_D : IPPacket :=
  packet_of IP_SUBPROTO_TCP (mkSock (Some host_C) (Some 9)) (mkSock (Some host_D) (Some 9)).

(** The filter after the packets [pkts] went through the body of the loop
    of [PcapFilter::readIP], none of them with VLAN tags, all at time 0. *)
Definition filter_run (pkts : list IPPacket) (p : PcapFilter) : PcapFilter :=
  fold_left (fun p pkt => snd (filter_packet p pkt [] 0)) pkts p.

(** ** The vocabulary of the further properties *)

(** The four bytes of a 32-bit value in the endianness [be], the inverse
    of [get32]. *)
Definition put32 (be : bool) (z : Z) : list byte :=
  bytes_of (if be then be32 z else le32 z).

(** The input is a regular file of [size] bytes; while no read has failed
    [_file_size] is the position in it, and a failed read has set the error
    indicator. *)
Definition positioned (size : Z) (f : PcapFile) : Prop :=
  exists s, _in f = Some s /\ seekable s = true /\
            0 <= _file_size f <= size /\
            (failed s = true -> _error f = true) /\
            (failed s = false ->
             _file_size f = gpos s /\ gpos s + zlength (rest s) = size).

(** An operation that keeps the reader positioned. *)
Definition keeps_position {A} (m : M A) : Prop :=
  forall size f, positioned size f -> positioned size (snd (m f)).

(** What the first half of a turn does to [_packet_count], whatever its
    outcome: a delivered packet is counted once, a skipped block is not
    counted, and a failure has counted at most one packet. *)
Definition counts_spec (m : M (option Captured)) : Prop :=
  forall f,
    match fst (m f) with
    | inr (Some _) => _packet_count (snd (m f)) = wrap64 (_packet_count f + 1)
    | inr None => _packet_count (snd (m f)) = _packet_count f
    | inl _ => _packet_count (snd (m f)) = _packet_count f \/
               _packet_count (snd (m f)) = wrap64 (_packet_count f + 1)
    end.

(** The packet counters are in order and bounded by the input: every
    counted packet but the last one of a reader in error has consumed
    input. *)
Definition counted (bound : Z) (f : PcapFile) : Prop :=
  0 <= _ip_packet_count f <= _packet_count f /\
  _packet_count f + zlength (remaining f) + (if _error f then 0 else 1) <= bound.


(** The [size] bytes at [start] lie inside [buffer]. *)
Definition within (buffer : list byte) (start size : Z) : Prop :=
  0 <= start /\ 0 <= size /\ start + size <= zlength buffer.

(** A VLAN id is a 12-bit value. *)
Definition vlan_id_ok (v : VLANId) : Prop := 0 <= vlan_id v < 4096.

(** The FCS size of an interface is read from one byte. *)
Definition wf_interface (i : InterfaceDesc) : Prop := 0 <= fcs_size i <= 255.

Definition interfaces_wf (f : PcapFile) : Prop := Forall wf_interface (_if f).

(** [m] keeps the invariant [P] of the reader, also when it fails. *)
Definition preserves {A} (P : PcapFile -> Prop) (m : M A) : Prop :=
  forall f, P f -> P (snd (m f)).


(** The reader is in pcap-ng format, or has the single interface of a pcap
    file, whose time unit is the microsecond or the nanosecond. *)
Definition pcap_mode_ok (f : PcapFile) : Prop :=
  _ng f = true \/
  exists i, _if f = [i] /\ (time_units i = micro_den \/ time_units i = nano_den).


(** A packet read at the state [f] of the superclass passes the window,
    protocol, VLAN and address filters of [p]. *)
Definition passes (p : PcapFilter) (f : PcapFile) (packet : IPPacket)
    (vlans : VLANIdStack) (timestamp : Z) : Prop :=
  _first_packet p <= _packet_count f <= _last_packet p /\
  _first_time p <= timestamp <= _last_time p /\
  _first_time_offset p <= timeOffset f timestamp <= _last_time_offset p /\
  (_protocols p = [] \/ contains (_protocols p) (ip_protocol packet) = true) /\
  vlans_match vlans (_opt_vlans p) = true /\
  (forward_match p packet = true \/ backward_match p packet = true).

(** One of the final conditions of the filter [p] holds at [f]. *)
Definition final_condition (p : PcapFilter) (f : PcapFile) (timestamp : Z) : Prop :=
  _last_packet p < _packet_count f \/ _last_time p < timestamp \/
  _last_time_offset p < timeOffset f timestamp.


(** [totalPacketsSize()] and [totalIPPacketsSize()]. *)
Definition totalPacketsSize (f : PcapFile) : Z := _packets_size f.
Definition totalIPPacketsSize (f : PcapFile) : Z := _ip_packets_size f.

(** The size counters are in order and bounded by the input: the bytes of
    the captured packets have been consumed. *)
Definition sized (bound : Z) (f : PcapFile) : Prop :=
  0 <= _ip_packets_size f <= _packets_size f /\
  _packets_size f + zlength (remaining f) <= bound.

(** ** [tlv::Connection]: receiving TLV messages (tstlvConnection.h) *)

Module TLV.

Section Connection.

(** The superclass [TCPConnection], [tlv::Protocol] and [MessageFactory] are
    not among the sources; the connection is modelled over what
    [receiveMessage] asks of them.  [Net] is the state of the TCP
    connection.  [receive size] is [SuperClass::receive(data, size, abort,
    report)]: the bytes received, or [None] when it returns false.
    [send resp] is [sendMessage] on the response and its result.
    [GetUInt16] is the 16-bit reader of tsMemory.h.  [analyze bb] stands for the [MessageFactory] built on the whole message: [inl
    msg] when [errorStatus()] is [tlv::OK], [msg] being what [factory]
    builds, possibly nothing, and [inr resp] otherwise, [resp] being what
    [buildErrorResponse] builds.  The locks are not modelled. *)
Variable Net : Type.
Variable Message : Type.
Variable receive : Z -> Net -> option (list byte) * Net.
Variable send : Message -> Net -> bool * Net.
Variable disconnect : Net -> Net.
Variable GetUInt16 : list byte -> Z -> Z.
Variable analyze : list byte -> option Message + Message.

Record Connection := mkConnection {
  net : Net;
  has_version : bool;
  _auto_error_response : bool;
  _max_invalid_msg : Z;
  _invalid_msg_count : Z
}.

Definition set_net (n : Net) (c : Connection) : Connection :=
  mkConnection n (has_version c) (_auto_error_response c) (_max_invalid_msg c)
               (_invalid_msg_count c).

Definition set_invalid_msg_count (k : Z) (c : Connection) : Connection :=
  mkConnection (net c) (has_version c) (_auto_error_response c) (_max_invalid_msg c) k.

(** [handleConnected], after the superclass. *)
Definition handleConnected (c : Connection) : Connection := set_invalid_msg_count 0 c.

Definition setAutoErrorResponse (on : bool) (c : Connection) : Connection :=
  mkConnection (net c) (has_version c) on (_max_invalid_msg c) (_invalid_msg_count c).

Definition setMaxInvalidMessages (n : Z) (c : Connection) : Connection :=
  mkConnection (net c) (has_version c) (_auto_error_response c) n (_invalid_msg_count c).

Definition header_size (c : Connection) : Z := if has_version c then 5 else 4.
Definition length_offset (c : Connection) : Z := if has_version c then 3 else 2.

(** What a turn of the loop of [receiveMessage] ends with: a return, with
    the message when it is [true], or the next turn. *)
Inductive Turn :=
| Return (msg : option (option Message)) (c : Connection)
| Again (c : Connection).

(** The part of a turn that follows an invalid message. *)
Definition invalid_message (resp : Message) (c : Connection) : Turn :=
  let c := set_invalid_msg_count (wrap64 (_invalid_msg_count c + 1)) c in
  let after_response :=
    if _auto_error_response c then
      match send resp (net c) with
      | (true, n) => inr (set_net n c)
      | (false, n) => inl (set_net n c)
      end
    else inr c in
  match after_response with
  | inl c => Return None c
  | inr c =>
      if (0 <? _max_invalid_msg c) && (_max_invalid_msg c <=? _invalid_msg_count c)
      then Return None (set_net (disconnect (net c)) c)
      else Again c
  end.

(** One turn: the header, the payload whose length is the 16-bit field of
    the header, then the analysis of the whole message. *)
Definition receive_turn (c : Connection) : Turn :=
  match receive (header_size c) (net c) with
  | (None, n) => Return None (set_net n c)
  | (Some header, n) =>
      let length := GetUInt16 header (length_offset c) in
      match receive length n with
      | (None, n) => Return None (set_net n c)
      | (Some payload, n) =>
          let c := set_net n c in
          match analyze (header ++ payload) with
          | inl msg => Return (Some msg) (set_invalid_msg_count 0 c)
          | inr resp => invalid_message resp c
          end
      end
  end.

(** [receiveMessage]; [None] when the fuel is exhausted. *)
Fixpoint receiveMessage (fuel : nat) (c : Connection)
    : option (option (option Message) * Connection) :=
  match fuel with
  | O => None
  | S fuel' =>
      match receive_turn c with
      | Return msg c' => Some (msg, c')
      | Again c' => receiveMessage fuel' c'
      end
  end.

End Connection.

End TLV.

(** A peer to run the connection on: the bytes that are still to come, a
    send that always succeeds, and a protocol that accepts every message or
    none. *)
Definition wire_receive (size : Z) (input : list byte) : option (list byte) * list byte :=
  if zlength input <? size then (None, [])
  else (Some (firstn (Z.to_nat size) input), skipn (Z.to_nat size) input).

Definition wire_send (resp : list byte) (input : list byte) : bool * list byte :=
  (true, input).

Definition wire_disconnect (input : list byte) : list byte := [].

Definition accept_all (bb : list byte) : option (list byte) + list byte := inl (Some bb).

Definition reject_all (bb : list byte) : option (list byte) + list byte := inr [].

Definition wire_connection (input : list Z) (max_invalid_msg : Z)
    : TLV.Connection (list byte) :=
  TLV.mkConnection (list byte) (bytes_of input) true true max_invalid_msg 0.

Definition wire_receiveMessage
    (analyze : list byte -> option (list byte) + list byte) :=
  TLV.receiveMessage (list byte) (list byte) wire_receive wire_send wire_disconnect
                     GetUInt16BE analyze.

(** * Properties *)

(** ** Machine integers and bytes *)


Lemma sint64_range (z : Z) : in_int64 (sint64 z).
Proof.
  unfold in_int64, sint64, INT64_MIN, INT64_MAX.
  pose proof (Z.mod_pos_bound (z + 2 ^ 63) (2 ^ 64)). lia.
Qed.

Lemma byte_val_range (b : byte) : 0 <= byte_val b < 256.
Proof.
  unfold byte_val. pose proof (Byte.to_N_bounded b). lia.
Qed.

Lemma byte_at_range (buf : list byte) (i : Z) : 0 <= byte_at buf i < 256.
Proof.
  unfold byte_at. destruct (i <? 0); [lia | apply byte_val_range].
Qed.


(** ** [timeOffset] *)

(** C2, as stated, fails: after the two packets of [unordered_file] the
    offset of the second packet, 5 s, from the first timestamp, 10 s, is
    negative, not [max 0 (ts - first_timestamp)]. *)
Lemma timeOffset_not_max_counterexample :
  let f := after_reads ipv4_reset 2 (snd (opened unordered_file)) in
  _first_timestamp f = 10000000 /\
  _last_timestamp f = 5000000 /\
  timeOffset f (_last_timestamp f) = -5000000 /\
  timeOffset f (_last_timestamp f) <> Z.max 0 (_last_timestamp f - _first_timestamp f).
Proof.
  vm_compute. repeat split; congruence.
Qed.

(** C2 (amended): [timeOffset ts] is 0 whenever [ts] or the first timestamp
    is unset (negative); when both are set it is [ts - first_timestamp],
    which is [max 0 (ts - first_timestamp)] when [ts] is not before the
    first timestamp and is negative when it is. *)
Theorem timeOffset_cases (f : PcapFile) (ts : Z) :
  (ts < 0 \/ _first_timestamp f < 0 -> timeOffset f ts = 0) /\
  (0 <= _first_timestamp f <= ts ->
     timeOffset f ts = Z.max 0 (ts - _first_timestamp f) /\ 0 <= timeOffset f ts) /\
  (0 <= ts < _first_timestamp f ->
     timeOffset f ts = ts - _first_timestamp f /\ timeOffset f ts < 0).
Proof.
  unfold timeOffset.
  split; [| split].
  - intros [H | H].
    + assert (E : (ts <? 0) = true) by (apply Z.ltb_lt; lia). now rewrite E.
    + assert (E : (_first_timestamp f <? 0) = true) by (apply Z.ltb_lt; lia).
      rewrite E. now rewrite orb_true_r.
  - intros H.
    assert (E1 : (ts <? 0) = false) by (apply Z.ltb_ge; lia).
    assert (E2 : (_first_timestamp f <? 0) = false) by (apply Z.ltb_ge; lia).
    rewrite E1, E2. simpl. lia.
  - intros H.
    assert (E1 : (ts <? 0) = false) by (apply Z.ltb_ge; lia).
    assert (E2 : (_first_timestamp f <? 0) = false) by (apply Z.ltb_ge; lia).
    rewrite E1, E2. simpl. lia.
Qed.

Lemma timeOffset_cases_witness :
  let f := set_first_timestamp 3 PcapFile_default in
  timeOffset f (-1) = 0 /\
  (timeOffset f 7 = Z.max 0 (7 - 3) /\ 0 <= timeOffset f 7) /\
  (timeOffset f 2 = 2 - 3 /\ timeOffset f 2 < 0).
Proof.
  intros f. split; [| split].
  - apply (proj1 (timeOffset_cases f (-1))). left. lia.
  - apply (proj1 (proj2 (timeOffset_cases f 7))). simpl. lia.
  - apply (proj2 (proj2 (timeOffset_cases f 2))). simpl. lia.
Defined.

(** ** Timestamps of pcap-ng packet blocks *)






(** The double-precision case: a resolution of 7000001 ticks per second
    and 2^50 ticks, whose product by 10^6 does not fit 64 bits. *)
Example ng_timestamp_double :
  mul_overflow (2 ^ 50) micro_den = true /\
  ng_timestamp 7000001 (2 ^ 50) = 160842820857114.
Proof. vm_compute. split; reflexivity. Qed.

(** The double-precision case out of range: with 1024 ticks per second and
    2^62 ticks the quotient, 2^52 * 10^6, does not fit 64 bits, and the
    conversion gives [INT64_MIN]: the packet has no timestamp. *)
Example ng_timestamp_double_out_of_range :
  mul_overflow (2 ^ 62) micro_den = true /\
  ng_timestamp 1024 (2 ^ 62) = INT64_MIN.
Proof. vm_compute. split; reflexivity. Qed.

(** A binary resolution beyond 63 bits: the shift count is taken modulo
    64. *)
Example tsresol_units_shift :
  tsresol_units 0xC0 = 1 /\ tsresol_units 0x8A = 1024 /\ tsresol_units 6 = 1000000.
Proof. vm_compute. repeat split. Qed.

(** ** Reading bytes *)

Lemma byte_at_firstn (l : list byte) (n i : Z) :
  0 <= i < n -> byte_at (firstn (Z.to_nat n) l) i = byte_at l i.
Proof.
  intros H. unfold byte_at.
  destruct (i <? 0) eqn:E; [reflexivity |].
  rewrite nth_firstn.
  assert (L : (Z.to_nat i <? Z.to_nat n)%nat = true) by (apply Nat.ltb_lt; lia).
  now rewrite L.
Qed.

Lemma byte_at_skipn (l : list byte) (k i : Z) :
  0 <= k -> 0 <= i -> byte_at (skipn (Z.to_nat k) l) i = byte_at l (k + i).
Proof.
  intros Hk Hi. unfold byte_at.
  assert (E1 : (i <? 0) = false) by (apply Z.ltb_ge; lia).
  assert (E2 : (k + i <? 0) = false) by (apply Z.ltb_ge; lia).
  rewrite E1, E2, nth_skipn. f_equal. f_equal. lia.
Qed.

Lemma byte_at_sub (l : list byte) (k n i : Z) :
  0 <= k -> 0 <= i < n ->
  byte_at (firstn (Z.to_nat n) (skipn (Z.to_nat k) l)) i = byte_at l (k + i).
Proof.
  intros Hk Hi. rewrite byte_at_firstn by lia. apply byte_at_skipn; lia.
Qed.

Lemma GetUInt32BE_sub (l : list byte) (k n off : Z) :
  0 <= k -> 0 <= off -> off + 4 <= n ->
  GetUInt32BE (firstn (Z.to_nat n) (skipn (Z.to_nat k) l)) off = GetUInt32BE l (k + off).
Proof.
  intros Hk Ho Hn. unfold GetUInt32BE, GetUInt16BE.
  rewrite !byte_at_sub by lia.
  replace (k + (off + 1)) with (k + off + 1) by lia.
  replace (k + (off + 2)) with (k + off + 2) by lia.
  replace (k + (off + 2 + 1)) with (k + off + 2 + 1) by lia.
  reflexivity.
Qed.

Lemma get32_sub (be : bool) (l : list byte) (k n off : Z) :
  0 <= k -> 0 <= off -> off + 4 <= n ->
  get32 be (firstn (Z.to_nat n) (skipn (Z.to_nat k) l)) off = get32 be l (k + off).
Proof.
  intros Hk Ho Hn. unfold get32. destruct be.
  - now apply GetUInt32BE_sub.
  - unfold GetUInt32LE, GetUInt16LE.
    rewrite !byte_at_sub by lia.
    replace (k + (off + 1)) with (k + off + 1) by lia.
    replace (k + (off + 2)) with (k + off + 2) by lia.
    replace (k + (off + 2 + 1)) with (k + off + 2 + 1) by lia.
    reflexivity.
Qed.

Lemma zlength_nonneg {A} (l : list A) : 0 <= zlength l.
Proof. unfold zlength. lia. Qed.

Lemma zlength_firstn (l : list byte) (n : Z) :
  0 <= n <= zlength l -> zlength (firstn (Z.to_nat n) l) = n.
Proof. unfold zlength. intros H. rewrite length_firstn. lia. Qed.

Lemma zlength_skipn (l : list byte) (n : Z) :
  0 <= n <= zlength l -> zlength (skipn (Z.to_nat n) l) = zlength l - n.
Proof. unfold zlength. intros H. rewrite length_skipn. lia. Qed.

(** [readall] on an input that holds the bytes. *)
Lemma readall_success (n : Z) (f : PcapFile) (s : istream) :
  _in f = Some s -> failed s = false -> 0 < n <= zlength (rest s) ->
  readall n f = (inr (firstn (Z.to_nat n) (rest s)), advance n f).
Proof.
  intros Hin Hf Hn. unfold readall, advance.
  assert (E1 : (n <=? 0) = false) by (apply Z.leb_gt; lia).
  assert (E2 : (zlength (rest s) <? n) = false) by (apply Z.ltb_ge; lia).
  rewrite E1, Hin, Hf, E2. reflexivity.
Qed.

(** [readall] on an input that is too short. *)
Lemma readall_short (n : Z) (f : PcapFile) (s : istream) :
  _in f = Some s -> zlength (rest s) < n ->
  fst (readall n f) = inl ShortRead.
Proof.
  intros Hin Hn. unfold readall.
  assert (E1 : (n <=? 0) = false) by (pose proof (zlength_nonneg (rest s)); apply Z.leb_gt; lia).
  assert (E2 : (zlength (rest s) <? n) = true) by (apply Z.ltb_lt; lia).
  rewrite E1, Hin, E2, orb_true_r. reflexivity.
Qed.

Lemma readall_zero (n : Z) (f : PcapFile) : n <= 0 -> readall n f = (inr [], f).
Proof.
  intros H. unfold readall.
  assert (E : (n <=? 0) = true) by (apply Z.leb_le; lia). now rewrite E.
Qed.

Lemma advance_in (n : Z) (f : PcapFile) (s : istream) :
  _in f = Some s ->
  _in (advance n f) =
    Some (mkIstream (skipn (Z.to_nat n) (rest s)) (gpos s + n) (seekable s) false (S (reads s))).
Proof.
  intros H. unfold advance. rewrite H. destruct (seekable s); reflexivity.
Qed.

Lemma advance_fields (n : Z) (f : PcapFile) :
  _error (advance n f) = _error f /\ _be (advance n f) = _be f /\
  _ng (advance n f) = _ng f /\ _if (advance n f) = _if f /\
  _packet_count (advance n f) = _packet_count f /\
  _ip_packet_count (advance n f) = _ip_packet_count f /\
  _packets_size (advance n f) = _packets_size f /\
  _ip_packets_size (advance n f) = _ip_packets_size f /\
  _first_timestamp (advance n f) = _first_timestamp f /\
  _last_timestamp (advance n f) = _last_timestamp f.
Proof.
  unfold advance. destruct (_in f) as [s |]; [destruct (seekable s) |]; repeat split.
Qed.

(** ** The header of a pcap file *)

Lemma land_0x10_testbit (b : Z) :
  Z.land b 0x10 = if Z.testbit b 4 then 16 else 0.
Proof.
  apply Z.bits_inj'. intros n Hn. rewrite Z.land_spec.
  change 16 with (2 ^ 4). rewrite Z.pow2_bits_eqb by lia.
  destruct (Z.eqb_spec 4 n) as [<- | Hne].
  - rewrite andb_true_r. destruct (Z.testbit b 4) eqn:E.
    + rewrite Z.pow2_bits_eqb by lia. reflexivity.
    + now rewrite Z.bits_0.
  - rewrite andb_false_r. destruct (Z.testbit b 4).
    + rewrite Z.pow2_bits_eqb by lia. symmetry. now apply Z.eqb_neq.
    + now rewrite Z.bits_0.
Qed.

Lemma fcs_field_div (b : Z) :
  0 <= b < 256 -> Z.land (Z.shiftr b 5) 0x07 = b / 32 /\ 0 <= b / 32 <= 7.
Proof.
  intros Hb.
  assert (Hdiv : 0 <= b / 32 < 8).
  { split; [apply Z.div_pos; lia | apply Z.div_lt_upper_bound; lia]. }
  split; [| lia].
  rewrite Z.shiftr_div_pow2 by lia. change (2 ^ 5) with 32.
  change 7 with (Z.ones 3). rewrite Z.land_ones by lia.
  apply Z.mod_small. change (2 ^ 3) with 8. lia.
Qed.

(** The state of [open] once the magic number is read. *)
Lemma open_pcap_inv (content : list byte) (piped : bool) (f0 f : PcapFile) :
  is_pcap_magic (GetUInt32BE content 0) = true ->
  open (Some content) piped f0 = (inr tt, f) ->
  exists old be,
    _if f = [pcap_interface old (GetUInt32BE content 0) be
               (firstn (Z.to_nat 20) (skipn (Z.to_nat 4) content))].
Proof.
  intros Hmagic Hopen. unfold open in Hopen.
  destruct (_in f0) as [s0 |] eqn:Hin0; [discriminate |].
  set (f1 := set_in (Some (mkIstream content 0 (negb piped) false 0)) (reset_counters f0)) in Hopen.
  destruct (Z.ltb_spec (zlength content) 4) as [Hshort | Hlong].
  { pose proof (readall_short 4 f1 _ eq_refl Hshort) as Hs.
    destruct (readall 4 f1) as [[e | m] f2]; simpl in Hs; [discriminate | discriminate]. }
  rewrite (readall_success 4 f1 _ eq_refl eq_refl) in Hopen by (cbn [rest]; lia).
  cbn [rest] in Hopen.
  assert (Hm : GetUInt32BE (firstn (Z.to_nat 4) content) 0 = GetUInt32BE content 0).
  { apply (GetUInt32BE_sub content 0 4 0); lia. }
  rewrite Hm in Hopen. unfold readHeader in Hopen. rewrite Hmagic in Hopen.
  unfold bind in Hopen.
  assert (Hin2 : _in (advance 4 f1) =
                 Some (mkIstream (skipn (Z.to_nat 4) content) (0 + 4) (negb piped) false 1)).
  { apply (advance_in 4 f1 _ eq_refl). }
  destruct (Z.ltb_spec (zlength (skipn (Z.to_nat 4) content)) 20) as [Hshort | Hlong2].
  { pose proof (readall_short 20 (advance 4 f1) _ Hin2 Hshort) as Hs.
    destruct (readall 20 (advance 4 f1)) as [[e | m] f2]; simpl in Hs; discriminate. }
  rewrite (readall_success 20 (advance 4 f1) _ Hin2 eq_refl) in Hopen by (cbn [rest]; lia).
  simpl rest in Hopen. unfold modify in Hopen.
  injection Hopen as <-. simpl. eexists. eexists. reflexivity.
Qed.

(** C8, as stated, fails: the FCS field is not a nibble of the byte.  With
    [header[16] = 0x50] the installed interface has an FCS of 4 bytes, twice
    the three bits 5 to 7 of the byte, while twice the high nibble is 10 and
    twice the low nibble is 0. *)
Lemma fcs_nibble_counterexample :
  let content := bytes_of pcap_header_fcs in
  exists f ifd,
    open (Some content) false PcapFile_default = (inr tt, f) /\
    _if f = [ifd] /\
    byte_at content 20 = 0x50 /\
    fcs_size ifd = 4 /\
    spec_fcs_size high_nibble (byte_at content 20) = 10 /\
    spec_fcs_size low_nibble (byte_at content 20) = 0.
Proof.
  intros content. eexists. eexists.
  split; [vm_compute; reflexivity |].
  split; [reflexivity |].
  repeat split; vm_compute; reflexivity.
Qed.

(** C8 (amended): when a legacy pcap file is opened, exactly one interface
    is installed, and its FCS size is 0 if bit 0x10 of [header[16]] (the byte
    at offset 20 of the file) is clear, and otherwise twice the value of the
    three-bit FCS field of that byte, its bits 5 to 7,
    [(header[16] >> 5) & 0x07], hence at most 14. *)
Theorem pcap_open_fcs_size (content : list byte) (piped : bool) (f0 f : PcapFile) :
  is_pcap_magic (GetUInt32BE content 0) = true ->
  open (Some content) piped f0 = (inr tt, f) ->
  let header := sub_bytes content 4 20 in
  let b := byte_at header 16 in
  b = byte_at content 20 /\
  exists ifd,
    _if f = [ifd] /\
    (Z.testbit b 4 = false -> fcs_size ifd = 0) /\
    (Z.testbit b 4 = true ->
       fcs_size ifd = 2 * Z.land (Z.shiftr b 5) 0x07 /\
       fcs_size ifd = 2 * (b / 32)) /\
    0 <= fcs_size ifd <= 14.
Proof.
  intros Hmagic Hopen header b.
  assert (Hb : b = byte_at content 20).
  { subst b header. unfold sub_bytes. rewrite byte_at_sub by lia. reflexivity. }
  split; [exact Hb |].
  destruct (open_pcap_inv content piped f0 f Hmagic Hopen) as (old & be & Hif).
  exists (pcap_interface old (GetUInt32BE content 0) be header).
  split; [exact Hif |].
  change (fcs_size (pcap_interface old (GetUInt32BE content 0) be header))
    with (pcap_fcs_size b).
  pose proof (byte_at_range header 16) as Hr. fold b in Hr.
  destruct (fcs_field_div b Hr) as [Hfield Hdiv].
  unfold pcap_fcs_size. rewrite land_0x10_testbit, Hfield.
  destruct (Z.testbit b 4); simpl (_ =? _).
  - split; [discriminate |]. split; [intros _; split; reflexivity | lia].
  - split; [reflexivity |]. split; [discriminate | lia].
Qed.

Lemma pcap_open_fcs_size_witness :
  let content := bytes_of pcap_header_fcs in
  exists f ifd,
    open (Some content) false PcapFile_default = (inr tt, f) /\
    _if f = [ifd] /\ fcs_size ifd = 4.
Proof.
  intros content.
  set (f := snd (open (Some content) false PcapFile_default)).
  assert (Hopen : open (Some content) false PcapFile_default = (inr tt, f))
    by (vm_compute; reflexivity).
  destruct (pcap_open_fcs_size content false PcapFile_default f eq_refl Hopen)
    as (_ & ifd & Hif & _ & H1 & _).
  exists f, ifd. split; [exact Hopen |]. split; [exact Hif |].
  destruct (H1 eq_refl) as [H _]. rewrite H. reflexivity.
Defined.

(** ** The options of an interface description *)

Lemma round_up4_nonneg (len : Z) : 0 <= round_up4 len.
Proof. unfold round_up4. apply Z.mod_pos_bound. lia. Qed.

(** The fuel of [analyzeNgInterface] is enough: more fuel gives the same
    interface. *)
Lemma ng_options_fuel (n m : nat) (be : bool) (data : list byte) (size pos : Z)
    (ifd : InterfaceDesc) :
  (Z.to_nat (size - pos) <= n)%nat -> (Z.to_nat (size - pos) <= m)%nat ->
  ng_options n be data size pos ifd = ng_options m be data size pos ifd.
Proof.
  revert m pos ifd. induction n as [| n IH]; intros m pos ifd Hn Hm.
  - destruct m as [| m]; [reflexivity |]. simpl.
    assert (E : (pos + 4 <=? size) = false) by (apply Z.leb_gt; lia).
    now rewrite E.
  - destruct m as [| m]; simpl.
    + assert (E : (pos + 4 <=? size) = false) by (apply Z.leb_gt; lia).
      now rewrite E.
    + destruct (Z.leb_spec (pos + 4) size) as [Hfit | Hend]; [| reflexivity].
      destruct (size <? pos + 4 + get16 be data (pos + 2)); [reflexivity |].
      pose proof (round_up4_nonneg (get16 be data (pos + 2))) as Hr.
      apply IH; lia.
Qed.

Lemma analyzeNgInterface_fuel (m : nat) (be : bool) (data : list byte) (ifd : InterfaceDesc) :
  (length data <= m)%nat ->
  ng_options (length data) be data (zlength data) 8 ifd
  = ng_options m be data (zlength data) 8 ifd.
Proof.
  intros H. apply ng_options_fuel; unfold zlength; lia.
Qed.

(** ** Ethernet decapsulation *)






(** The same frame through [readIP]. *)
Example nested_vlan_readIP :
  match fst (readIP ipv4_reset (snd (opened nested_vlan_file))) with
  | inr (_, vlans, _) => vlans = [mkVLANId 0x8100 100; mkVLANId 0x0800 200]
  | inl _ => False
  end.
Proof. vm_compute. reflexivity. Qed.

(** ** First and last timestamps *)

Lemma last_cons {A} (x d : A) (l : list A) : last (x :: l) d = last l x.
Proof.
  revert x d. induction l as [| y l IH]; intros x d; [reflexivity |].
  change (last (x :: y :: l) d) with (last (y :: l) d).
  rewrite IH. symmetry. apply IH.
Qed.

Lemma observe_last (obs : list (Z * Z)) (f : PcapFile) :
  _last_timestamp (observe obs f) = last (adjusted obs) (_last_timestamp f).
Proof.
  revert f. induction obs as [| [t o] obs IH]; intros f; [reflexivity |].
  unfold observe in *. simpl fold_left. rewrite IH.
  unfold adjusted, update_timestamps. simpl.
  destruct (0 <=? t); [| reflexivity].
  simpl map. rewrite last_cons.
  destruct (_first_timestamp f <? 0); reflexivity.
Qed.

Lemma observe_first (obs : list (Z * Z)) (f : PcapFile) :
  _first_timestamp (observe obs f) =
  if 0 <=? _first_timestamp f then _first_timestamp f
  else match find (fun x => 0 <=? x) (adjusted obs) with
       | Some x => x
       | None => last (adjusted obs) (_first_timestamp f)
       end.
Proof.
  revert f. induction obs as [| [t o] obs IH]; intros f.
  - simpl. destruct (0 <=? _first_timestamp f); reflexivity.
  - unfold observe in *. simpl fold_left. rewrite IH.
    unfold adjusted, update_timestamps. simpl.
    destruct (0 <=? t); [| reflexivity].
    simpl map. cbn [find]. rewrite last_cons.
    destruct (Z.ltb_spec (_first_timestamp f) 0) as [Hneg | Hpos].
    + assert (E : (0 <=? _first_timestamp f) = false) by (apply Z.leb_gt; lia).
      rewrite E. simpl. destruct (0 <=? sint64 (t + o)); reflexivity.
    + assert (E : (0 <=? _first_timestamp f) = true) by (apply Z.leb_le; lia).
      rewrite E. simpl. now rewrite E.
Qed.

Lemma nondecreasing_hd_le (x : Z) (l : list Z) :
  nondecreasing (x :: l) -> Forall (fun y => x <= y) (x :: l).
Proof.
  revert x. induction l as [| y l IH]; intros x H.
  - constructor; [lia | constructor].
  - destruct H as [Hxy Hl]. constructor; [lia |].
    specialize (IH y Hl). eapply Forall_impl; [| exact IH].
    simpl. intros z Hz. lia.
Qed.

Lemma last_in {A} (l : list A) (x : A) : In (last l x) (x :: l).
Proof.
  revert x. induction l as [| y l IH]; intros x; [now left |].
  rewrite last_cons. right. apply IH.
Qed.

(** C1, as stated, fails: after the two packets of [unordered_file],
    captured at 10 s and at 5 s, the first timestamp is that of the first
    packet, not the smallest one, and it is greater than the last one. *)
Lemma first_timestamp_not_smallest_counterexample :
  let f := after_reads ipv4_reset 2 (snd (opened unordered_file)) in
  _ip_packet_count f = 2 /\
  _first_timestamp f = 10000000 /\
  _last_timestamp f = 5000000 /\
  ~ (_first_timestamp f <= _last_timestamp f).
Proof.
  vm_compute. repeat split; congruence.
Qed.

(** C1 (amended): after any sequence of captured packets read from a reader
    that [open] left without timestamps, [_last_timestamp] is the most
    recently observed real (non-negative), offset-adjusted timestamp and
    [_first_timestamp] is the first observed one that is not negative once
    adjusted, not the smallest; when the adjusted timestamps are not negative
    and come in non-decreasing order, the first one is the smallest and
    [first_timestamp <= last_timestamp]. *)
Theorem first_last_timestamps (obs : list (Z * Z)) (f : PcapFile) :
  _first_timestamp f < 0 ->
  let a := adjusted obs in
  let f' := observe obs f in
  _last_timestamp f' = last a (_last_timestamp f) /\
  _first_timestamp f' =
    match find (fun x => 0 <=? x) a with
    | Some x => x
    | None => last a (_first_timestamp f)
    end /\
  (Forall (fun x => 0 <= x) a -> nondecreasing a -> a <> [] ->
     _first_timestamp f' = hd 0 a /\
     Forall (fun x => _first_timestamp f' <= x) a /\
     _first_timestamp f' <= _last_timestamp f').
Proof.
  intros Hneg a f'. subst f'.
  rewrite observe_last, observe_first.
  assert (E : (0 <=? _first_timestamp f) = false) by (apply Z.leb_gt; lia).
  rewrite E. fold a.
  split; [reflexivity |]. split; [reflexivity |].
  intros Hpos Hsorted Hne.
  destruct a as [| x a']; [congruence |].
  assert (Hx : 0 <= x) by (now inversion Hpos).
  cbn [find hd]. assert (Ex : (0 <=? x) = true) by (now apply Z.leb_le).
  rewrite Ex. split; [reflexivity |].
  pose proof (nondecreasing_hd_le x a' Hsorted) as Hall.
  split; [exact Hall |].
  rewrite last_cons.
  rewrite Forall_forall in Hall. apply Hall. apply last_in.
Qed.

Lemma first_last_timestamps_witness :
  let f := observe [(10, 0); (-1, 0); (12, 5); (20, 0)] PcapFile_default in
  _first_timestamp f = 10 /\ _last_timestamp f = 20 /\
  _first_timestamp f <= _last_timestamp f.
Proof.
  intros f.
  assert (Hneg : _first_timestamp PcapFile_default < 0) by (simpl; lia).
  destruct (first_last_timestamps [(10, 0); (-1, 0); (12, 5); (20, 0)] PcapFile_default Hneg)
    as (Hlast & Hfirst & Hsorted).
  assert (Hpos : Forall (fun x => 0 <= x) (adjusted [(10, 0); (-1, 0); (12, 5); (20, 0)])).
  { vm_compute. repeat constructor; discriminate. }
  assert (Hnd : nondecreasing (adjusted [(10, 0); (-1, 0); (12, 5); (20, 0)])).
  { vm_compute. repeat split; discriminate. }
  assert (Hne : adjusted [(10, 0); (-1, 0); (12, 5); (20, 0)] <> []).
  { vm_compute. discriminate. }
  destruct (Hsorted Hpos Hnd Hne) as (Hhd & _ & Hle).
  split; [exact Hhd |]. split; [exact Hlast | exact Hle].
Defined.

Section ReaderTimestamps.

Variable packet_reset : list byte -> option IPPacket.

(** What a captured packet does to the first and last timestamps: nothing
    when it is truncated, otherwise what [update_timestamps] does with its
    timestamp and the time offset of its interface. *)
Lemma process_captured_timestamps (c : Captured) (f : PcapFile) :
  let f' := snd (process_captured packet_reset c f) in
  let obs := if cap_size c <? orig_size c then []
             else [(c_timestamp c, time_offset (interface_of f (if_index c)))] in
  _first_timestamp f' = _first_timestamp (observe obs f) /\
  _last_timestamp f' = _last_timestamp (observe obs f).
Proof.
  unfold process_captured.
  destruct (cap_size c <? orig_size c); [split; reflexivity |].
  change (interface_of (set_packets_size (wrap64 (_packets_size f + cap_size c)) f) (if_index c))
    with (interface_of f (if_index c)).
  unfold observe, update_timestamps. cbn [fold_left fst snd].
  destruct (0 <=? c_timestamp c).
  - change (_first_timestamp (set_packets_size (wrap64 (_packets_size f + cap_size c)) f))
      with (_first_timestamp f).
    destruct (_first_timestamp f <? 0);
      match goal with
      | |- context [decapsulate ?i ?b ?bu ?s ?z] =>
          destruct (decapsulate i b bu s z) as [[start size] vlans]
      end;
      (destruct (0 <? size); [destruct (packet_reset _) |]); split; reflexivity.
  - match goal with
    | |- context [decapsulate ?i ?b ?bu ?s ?z] =>
        destruct (decapsulate i b bu s z) as [[start size] vlans]
    end;
    (destruct (0 <? size); [destruct (packet_reset _) |]); split; reflexivity.
Qed.

End ReaderTimestamps.

(** ** What every reading operation guarantees *)

Lemma regular_ret {A} (a : A) : regular (ret a).
Proof. intros f. simpl. repeat split; try reflexivity; lia. Qed.

Lemma regular_get {A} (g : PcapFile -> A) : regular (get g).
Proof. intros f. simpl. repeat split; try reflexivity; lia. Qed.

Lemma regular_fail {A} (e : Error) : regular (@fail A e).
Proof. intros f. simpl. repeat split; try reflexivity; lia. Qed.

Lemma regular_modify (g : PcapFile -> PcapFile) :
  (forall f, _error (g f) = _error f /\ _in (g f) = _in f /\ counters (g f) = counters f) ->
  regular (modify g).
Proof.
  intros H f. destruct (H f) as (He & Hi & Hc). simpl.
  unfold remaining, isOpen. rewrite Hi. repeat split; auto.
Qed.

Lemma regular_bind {A B} (m : M A) (k : A -> M B) :
  regular m -> (forall a, regular (k a)) -> regular (bind m k).
Proof.
  intros Hm Hk f. unfold bind.
  specialize (Hm f). destruct (m f) as [[e | a] f1]; simpl in Hm.
  - destruct Hm as (He & Hl & Ho & Hc). simpl. repeat split; auto.
  - destruct Hm as (He & Hl & Ho & Hc).
    specialize (Hk a f1). destruct (k a f1) as [r f2]; simpl in *.
    destruct Hk as (He2 & Hl2 & Ho2 & Hc2).
    repeat split; try congruence; try lia.
    destruct r; congruence.
Qed.

Lemma regular_readall (n : Z) : regular (readall n).
Proof.
  intros f. unfold readall.
  destruct (n <=? 0) eqn:En; [simpl; repeat split; try reflexivity; lia |].
  destruct (_in f) as [s |] eqn:Hin.
  - destruct (failed s || (zlength (rest s) <? n)) eqn:Ef.
    + simpl. unfold remaining, isOpen. simpl. rewrite Hin.
      repeat split; try reflexivity; try lia.
    + destruct (seekable s); simpl; unfold remaining, isOpen; simpl; rewrite Hin;
        repeat split; try reflexivity; try (rewrite length_skipn; lia).
  - simpl. unfold remaining, isOpen. simpl. rewrite Hin.
    repeat split; try reflexivity; try lia.
Qed.

Ltac regular_tac :=
  repeat first
    [ apply regular_ret
    | apply regular_get
    | apply regular_fail
    | apply regular_readall
    | apply regular_modify; intros ?; repeat split; reflexivity
    | apply regular_bind; [| intros ?]
    | match goal with
      | |- regular (if ?c then _ else _) => destruct c
      | |- regular (match ?x with _ => _ end) => destruct x
      end ].

Lemma regular_read_order_magic (block_type : Z) : regular (read_order_magic block_type).
Proof. unfold read_order_magic. regular_tac. Qed.

Lemma regular_read_block_rest (size : Z) (body : list byte) :
  regular (read_block_rest size body).
Proof. unfold read_block_rest. regular_tac. Qed.

Lemma regular_readNgBlockBody (block_type : Z) : regular (readNgBlockBody block_type).
Proof.
  unfold readNgBlockBody.
  apply regular_bind; [apply regular_readall | intros lenfield].
  apply regular_bind; [apply regular_read_order_magic | intros body].
  apply regular_bind; [apply regular_get | intros be].
  apply regular_read_block_rest.
Qed.

Lemma regular_readHeader (magic : Z) : regular (readHeader magic).
Proof.
  unfold readHeader.
  destruct (is_pcap_magic magic); [regular_tac |].
  destruct (magic =? PCAPNG_MAGIC); [| regular_tac].
  apply regular_bind; [regular_tac | intros _].
  apply regular_bind; [apply regular_readNgBlockBody | intros header].
  regular_tac.
Qed.

Lemma regular_analyzeNgInterface (data : list byte) : regular (analyzeNgInterface data).
Proof. unfold analyzeNgInterface. regular_tac. Qed.

(** [read_block] counts the packet, which [regular] does not mention. *)
Lemma regular_incr_packet_count : regular (modify incr_packet_count).
Proof. regular_tac. Qed.

Lemma regular_ng_block (type : Z) : regular (ng_block type).
Proof.
  unfold ng_block.
  destruct (_ =? PCAPNG_SECTION_HEADER).
  { apply regular_bind; [apply regular_readHeader | intros _; apply regular_ret]. }
  apply regular_bind; [apply regular_readNgBlockBody | intros buffer].
  destruct (_ =? PCAPNG_INTERFACE_DESC).
  { apply regular_bind; [apply regular_analyzeNgInterface | intros _; apply regular_ret]. }
  destruct (is_packet_block _ && _).
  { apply regular_bind; [apply regular_incr_packet_count | intros _]. regular_tac. }
  destruct (_ && _).
  { apply regular_bind; [apply regular_incr_packet_count | intros _]. regular_tac. }
  apply regular_ret.
Qed.

Lemma regular_read_ng_block : regular read_ng_block.
Proof.
  unfold read_ng_block.
  apply regular_bind; [apply regular_readall | intros type_field].
  apply regular_bind; [apply regular_get | intros be].
  apply regular_ng_block.
Qed.

Lemma regular_pcap_record (header : list byte) : regular (pcap_record header).
Proof. unfold pcap_record. regular_tac. Qed.

Lemma regular_read_pcap_record : regular read_pcap_record.
Proof.
  unfold read_pcap_record.
  apply regular_bind; [apply regular_incr_packet_count | intros _].
  apply regular_bind; [apply regular_readall | intros header].
  apply regular_pcap_record.
Qed.

Lemma regular_read_block : regular read_block.
Proof.
  intros f. unfold read_block. destruct (_ng f).
  - apply regular_read_ng_block.
  - apply regular_read_pcap_record.
Qed.

(** ** The loop of [readIP] *)

Lemma readall_progress (n : Z) (f f1 : PcapFile) (a : list byte) :
  0 < n -> readall n f = (inr a, f1) ->
  (length (remaining f1) < length (remaining f))%nat.
Proof.
  intros Hn. unfold readall.
  assert (E : (n <=? 0) = false) by (apply Z.leb_gt; lia). rewrite E.
  destruct (_in f) as [s |] eqn:Hin; [| discriminate].
  destruct (failed s || (zlength (rest s) <? n)) eqn:Ef; [discriminate |].
  apply orb_false_iff in Ef. destruct Ef as [_ Ef]. apply Z.ltb_ge in Ef.
  unfold zlength in Ef.
  intros H. injection H as _ <-.
  unfold remaining. rewrite Hin.
  destruct (seekable s); simpl; rewrite length_skipn; lia.
Qed.

Lemma bind_readall_progress {B} (n : Z) (k : list byte -> M B) (f f' : PcapFile) (x : B) :
  0 < n -> (forall a, regular (k a)) -> bind (readall n) k f = (inr x, f') ->
  (length (remaining f') < length (remaining f))%nat.
Proof.
  intros Hn Hk. unfold bind.
  destruct (readall n f) as [[e | a] f1] eqn:Hr; [discriminate |].
  pose proof (readall_progress n f f1 a Hn Hr) as Hlt.
  intros H. destruct (Hk a f1) as (_ & Hle & _). rewrite H in Hle. simpl in Hle. lia.
Qed.

Lemma read_block_progress (f f' : PcapFile) (x : option Captured) :
  read_block f = (inr x, f') ->
  (length (remaining f') < length (remaining f))%nat.
Proof.
  unfold read_block. destruct (_ng f).
  - unfold read_ng_block. apply bind_readall_progress; [lia |].
    intros a. apply regular_bind; [apply regular_get | intros be; apply regular_ng_block].
  - unfold read_pcap_record. unfold bind at 1. unfold modify at 1.
    intros H. apply bind_readall_progress in H; [exact H | lia |].
    intros a. apply regular_pcap_record.
Qed.

Section ReaderLoop.

Variable packet_reset : list byte -> option IPPacket.

(** The second half of a turn never fails, reads nothing and leaves the
    error indicator alone. *)
Lemma process_captured_safe (c : Captured) (f : PcapFile) :
  (exists r, fst (process_captured packet_reset c f) = inr r) /\
  _in (snd (process_captured packet_reset c f)) = _in f /\
  _error (snd (process_captured packet_reset c f)) = _error f /\
  _packet_count (snd (process_captured packet_reset c f)) = _packet_count f.
Proof.
  unfold process_captured.
  destruct (cap_size c <? orig_size c); [simpl; eauto |].
  unfold update_timestamps.
  destruct (0 <=? c_timestamp c);
    [destruct (_first_timestamp _ <? 0) |];
    match goal with
    | |- context [decapsulate ?i ?b ?bu ?s ?z] =>
        destruct (decapsulate i b bu s z) as [[start size] vlans]
    end;
    (destruct (0 <? size); [destruct (packet_reset _) |]); simpl; eauto.
Qed.

Lemma readIP_turn_spec (f : PcapFile) :
  match readIP_turn packet_reset f with
  | (inl _, f') => _error f' = true /\ isOpen f' = isOpen f
  | (inr None, f') =>
      (length (remaining f') < length (remaining f))%nat /\
      _error f' = _error f /\ isOpen f' = isOpen f
  | (inr (Some _), f') =>
      (length (remaining f') < length (remaining f))%nat /\
      _error f' = _error f /\ isOpen f' = isOpen f
  end.
Proof.
  unfold readIP_turn.
  pose proof (regular_read_block f) as (He & Hl & Ho & _).
  destruct (read_block f) as [[e | [c |]] f1] eqn:Hrb; simpl in He, Hl, Ho.
  - split; assumption.
  - destruct (process_captured_safe c f1) as ((r & Hr) & Hin & Herr & _).
    pose proof (read_block_progress f f1 _ Hrb) as Hlt.
    destruct (process_captured packet_reset c f1) as [r' f2]. simpl in *. subst r'.
    assert (Hrem : remaining f2 = remaining f1) by (unfold remaining; now rewrite Hin).
    assert (Hop : isOpen f2 = isOpen f1) by (unfold isOpen; now rewrite Hin).
    destruct r; rewrite ?Hrem; repeat split; congruence || lia.
  - pose proof (read_block_progress f f1 _ Hrb) as Hlt.
    repeat split; assumption.
Qed.

(** The fuel of [readIP] is enough: the loop always comes to a result. *)
Lemma readIP_loop_total (n : nat) (f : PcapFile) :
  (length (remaining f) < n)%nat -> readIP_loop packet_reset n f <> None.
Proof.
  revert f. induction n as [| n IH]; intros f Hn; [lia |]. simpl.
  pose proof (readIP_turn_spec f) as H.
  destruct (readIP_turn packet_reset f) as [[e | [r |]] f1]; try discriminate.
  apply IH. lia.
Qed.

(** A packet is never delivered without input being consumed. *)
Lemma readIP_loop_progress (n : nat) (f f' : PcapFile) (r : Found) :
  readIP_loop packet_reset n f = Some (inr r, f') ->
  (length (remaining f') < length (remaining f))%nat.
Proof.
  revert f. induction n as [| n IH]; intros f; [discriminate |]. simpl.
  pose proof (readIP_turn_spec f) as H.
  destruct (readIP_turn packet_reset f) as [[e1 | [r1 |]] f1].
  - discriminate.
  - intros H1. injection H1 as _ <-. apply H.
  - intros H1. apply IH in H1. lia.
Qed.

Lemma readIP_progress (f f' : PcapFile) (r : Found) :
  readIP packet_reset f = (inr r, f') ->
  (length (remaining f') < length (remaining f))%nat.
Proof.
  unfold readIP. destruct (_in f); [| discriminate].
  destruct (_error f); [discriminate |].
  destruct (readIP_loop packet_reset (readIP_fuel f) f) as [[r1 f1] |] eqn:Hloop;
    [| discriminate].
  intros H. injection H as -> ->. eapply readIP_loop_progress. eassumption.
Qed.

(** A failure of the loop leaves the error indicator set. *)
Lemma readIP_loop_latches (n : nat) (f f' : PcapFile) (e : Error) :
  readIP_loop packet_reset n f = Some (inl e, f') ->
  _error f' = true /\ isOpen f' = isOpen f.
Proof.
  revert f. induction n as [| n IH]; intros f; [discriminate |]. simpl.
  pose proof (readIP_turn_spec f) as H.
  destruct (readIP_turn packet_reset f) as [[e1 | [r |]] f1].
  - intros H1. injection H1 as _ <-. exact H.
  - discriminate.
  - intros H1. destruct (IH f1 H1) as [He Ho]. split; [exact He |].
    destruct H as (_ & _ & Ho1). congruence.
Qed.

Lemma readIP_latches (f f' : PcapFile) (e : Error) :
  isOpen f = true -> readIP packet_reset f = (inl e, f') ->
  _error f' = true /\ isOpen f' = true.
Proof.
  intros Hopen. unfold readIP. unfold isOpen in Hopen.
  destruct (_in f) as [s |] eqn:Hin; [| discriminate].
  destruct (_error f) eqn:Herr.
  - intros H. injection H as _ <-. split; [exact Herr |]. unfold isOpen. now rewrite Hin.
  - destruct (readIP_loop packet_reset (readIP_fuel f) f) as [[r f1] |] eqn:Hloop.
    + intros H. injection H as -> ->.
      destruct (readIP_loop_latches _ _ _ _ Hloop) as [He Ho].
      split; [exact He |]. rewrite Ho. unfold isOpen. now rewrite Hin.
    + exfalso. revert Hloop. apply readIP_loop_total. unfold readIP_fuel. lia.
Qed.

Lemma readIP_in_error (f : PcapFile) :
  isOpen f = true -> _error f = true -> readIP packet_reset f = (inl ErrorState, f).
Proof.
  intros Hopen Herr. unfold readIP. unfold isOpen in Hopen.
  destruct (_in f); [| discriminate]. now rewrite Herr.
Qed.

Lemma after_reads_in_error (n : nat) (f : PcapFile) :
  isOpen f = true -> _error f = true -> after_reads packet_reset n f = f.
Proof.
  intros Hopen Herr. induction n as [| n IH]; [reflexivity |].
  simpl. rewrite readIP_in_error by assumption. exact IH.
Qed.

End ReaderLoop.

Lemma open_resets_error (source : option (list byte)) (piped : bool) (f f' : PcapFile) :
  isOpen f = false -> open source piped f = (inr tt, f') ->
  _error f' = false /\ isOpen f' = true.
Proof.
  intros Hclosed. unfold open. unfold isOpen in Hclosed.
  destruct (_in f); [discriminate |].
  destruct source as [content |]; [| discriminate].
  set (f1 := set_in _ (reset_counters f)).
  pose proof (regular_readall 4 f1) as (He1 & _ & Ho1 & _).
  destruct (readall 4 f1) as [[e | magic] f2]; [discriminate |]. simpl in He1, Ho1.
  pose proof (regular_readHeader (GetUInt32BE magic 0) f2) as (He2 & _ & Ho2 & _).
  destruct (readHeader (GetUInt32BE magic 0) f2) as [[e | u] f3]; [discriminate |].
  simpl in He2, Ho2. intros H. injection H as <-.
  split; [congruence |]. rewrite Ho2, Ho1. reflexivity.
Qed.

Lemma open_failure_closed (source : option (list byte)) (piped : bool) (f f' : PcapFile)
    (e : Error) :
  isOpen f = false -> open source piped f = (inl e, f') -> isOpen f' = false.
Proof.
  intros Hclosed. unfold open. unfold isOpen in Hclosed.
  destruct (_in f) eqn:Hin; [discriminate |].
  destruct source as [content |].
  - destruct (readall 4 _) as [[e1 | magic] f2].
    + intros H. injection H as _ <-. reflexivity.
    + destruct (readHeader (GetUInt32BE magic 0) f2) as [[e2 | u] f3]; [| discriminate].
      intros H. injection H as _ <-. reflexivity.
  - intros H. injection H as _ <-. unfold isOpen. simpl. now rewrite Hin.
Qed.

(** C9: a [readIP] that fails on an open file, whatever the read or format
    failure, leaves the error indicator set; from then on every call of
    [readIP] on that open file returns false and leaves the reader as it is,
    the input and the count of reads included, so it reads nothing; and
    [open], on a reader that is not open, resets the indicator; when [open]
    itself fails the reader is closed, and [readIP] returns false there too,
    without a read. *)
Theorem error_latch (packet_reset : list byte -> option IPPacket) :
  (forall f e f1, isOpen f = true -> readIP packet_reset f = (inl e, f1) ->
     _error f1 = true /\ isOpen f1 = true /\
     forall n, let f2 := after_reads packet_reset n f1 in
       readIP packet_reset f2 = (inl ErrorState, f2) /\
       f2 = f1 /\ read_calls f2 = read_calls f1 /\ remaining f2 = remaining f1) /\
  (forall source piped f f', isOpen f = false -> open source piped f = (inr tt, f') ->
     _error f' = false /\ isOpen f' = true) /\
  (forall source piped f e f', isOpen f = false -> open source piped f = (inl e, f') ->
     isOpen f' = false /\ readIP packet_reset f' = (inl NotOpen, f')).
Proof.
  split; [| split].
  - intros f e f1 Hopen Hread.
    destruct (readIP_latches packet_reset f f1 e Hopen Hread) as [He Ho].
    split; [exact He |]. split; [exact Ho |].
    intros n f2. subst f2. rewrite after_reads_in_error by assumption.
    split; [now apply readIP_in_error |]. repeat split.
  - apply open_resets_error.
  - intros source piped f e f' Hclosed Hopen.
    assert (Hc : isOpen f' = false) by (eapply open_failure_closed; eassumption).
    split; [exact Hc |]. unfold readIP. unfold isOpen in Hc.
    destruct (_in f'); [discriminate | reflexivity].
Qed.

Lemma error_latch_witness :
  let f := snd (readIP ipv4_reset (snd (opened cut_file))) in
  let f1 := snd (readIP ipv4_reset f) in
  fst (readIP ipv4_reset f) = inl ShortRead /\
  _error f1 = true /\
  readIP ipv4_reset (after_reads ipv4_reset 3 f1) = (inl ErrorState, after_reads ipv4_reset 3 f1) /\
  read_calls (after_reads ipv4_reset 3 f1) = read_calls f1 /\
  _error (snd (opened cut_file)) = false.
Proof.
  intros f f1.
  assert (Hopen : isOpen f = true) by (vm_compute; reflexivity).
  assert (Hread : readIP ipv4_reset f = (inl ShortRead, f1)) by (vm_compute; reflexivity).
  destruct (error_latch ipv4_reset) as (Hlatch & Hreset & _).
  destruct (Hlatch f ShortRead f1 Hopen Hread) as (He & _ & Hn).
  destruct (Hn 3%nat) as (H1 & _ & H2 & _).
  assert (Hclosed : isOpen PcapFile_default = false) by reflexivity.
  assert (Ho : open (Some (bytes_of cut_file)) false PcapFile_default
               = (inr tt, snd (opened cut_file))) by (vm_compute; reflexivity).
  destruct (Hreset _ _ _ _ Hclosed Ho) as [Hr _].
  split; [now rewrite Hread |]. split; [exact He |]. split; [exact H1 |].
  split; [exact H2 | exact Hr].
Defined.

(** ** Counting packets *)

Lemma keeps_count_ret {A} (a : A) : keeps_count (ret a).
Proof. intros f. reflexivity. Qed.

Lemma keeps_count_get {A} (g : PcapFile -> A) : keeps_count (get g).
Proof. intros f. reflexivity. Qed.

Lemma keeps_count_fail {A} (e : Error) : keeps_count (@fail A e).
Proof. intros f. reflexivity. Qed.

Lemma keeps_count_modify (g : PcapFile -> PcapFile) :
  (forall f, _packet_count (g f) = _packet_count f) -> keeps_count (modify g).
Proof. intros H f. apply H. Qed.

Lemma keeps_count_bind {A B} (m : M A) (k : A -> M B) :
  keeps_count m -> (forall a, keeps_count (k a)) -> keeps_count (bind m k).
Proof.
  intros Hm Hk f. unfold bind. specialize (Hm f).
  destruct (m f) as [[e | a] f1]; simpl in *; [exact Hm |].
  rewrite Hk. exact Hm.
Qed.

Lemma keeps_count_readall (n : Z) : keeps_count (readall n).
Proof.
  intros f. unfold readall. destruct (n <=? 0); [reflexivity |].
  destruct (_in f) as [s |]; [| reflexivity].
  destruct (failed s || (zlength (rest s) <? n)); [reflexivity |].
  destruct (seekable s); reflexivity.
Qed.

Ltac keeps_count_tac :=
  repeat first
    [ apply keeps_count_ret
    | apply keeps_count_get
    | apply keeps_count_fail
    | apply keeps_count_readall
    | apply keeps_count_modify; intros ?; reflexivity
    | apply keeps_count_bind; [| intros ?]
    | match goal with
      | |- keeps_count (if ?c then _ else _) => destruct c
      | |- keeps_count (match ?x with _ => _ end) => destruct x
      end ].

Lemma keeps_count_readNgBlockBody (block_type : Z) : keeps_count (readNgBlockBody block_type).
Proof. unfold readNgBlockBody, read_order_magic, read_block_rest. keeps_count_tac. Qed.

Lemma keeps_count_readHeader (magic : Z) : keeps_count (readHeader magic).
Proof.
  unfold readHeader.
  destruct (is_pcap_magic magic); [keeps_count_tac |].
  destruct (magic =? PCAPNG_MAGIC); [| keeps_count_tac].
  apply keeps_count_bind; [keeps_count_tac | intros _].
  apply keeps_count_bind; [apply keeps_count_readNgBlockBody | intros header].
  keeps_count_tac.
Qed.

Lemma counts_packet_none (m : M unit) : counts_packet (m ;;; ret None).
Proof.
  intros f. unfold bind, ret. destruct (m f) as [[e | a] f1]; exact I.
Qed.

Lemma counts_packet_bind {A} (m : M A) (k : A -> M (option Captured)) :
  keeps_count m -> (forall a, counts_packet (k a)) -> counts_packet (bind m k).
Proof.
  intros Hm Hk f. unfold bind. specialize (Hm f).
  destruct (m f) as [[e | a] f1]; simpl in *; [exact I |].
  specialize (Hk a f1). rewrite <- Hm. exact Hk.
Qed.

Lemma counts_packet_incr (k : M (option Captured)) :
  keeps_count k -> counts_packet (modify incr_packet_count ;;; k).
Proof.
  intros Hk f. unfold bind, modify. specialize (Hk (incr_packet_count f)).
  destruct (k (incr_packet_count f)) as [[e | [c |]] f1]; simpl in *; try exact I.
  exact Hk.
Qed.

Lemma counts_packet_ng_block (type : Z) : counts_packet (ng_block type).
Proof.
  unfold ng_block.
  destruct (_ =? PCAPNG_SECTION_HEADER); [apply counts_packet_none |].
  apply counts_packet_bind; [apply keeps_count_readNgBlockBody | intros buffer].
  destruct (_ =? PCAPNG_INTERFACE_DESC); [apply counts_packet_none |].
  destruct (is_packet_block _ && _); [apply counts_packet_incr; keeps_count_tac |].
  destruct (_ && _); [apply counts_packet_incr; keeps_count_tac |].
  intros f. exact I.
Qed.

Lemma counts_packet_read_block : counts_packet read_block.
Proof.
  intros f. unfold read_block. destruct (_ng f).
  - revert f. unfold read_ng_block.
    apply counts_packet_bind; [apply keeps_count_readall | intros type_field].
    apply counts_packet_bind; [apply keeps_count_get | intros be].
    apply counts_packet_ng_block.
  - revert f. unfold read_pcap_record.
    apply counts_packet_incr. unfold pcap_record. keeps_count_tac.
Qed.

(** [open] leaves the counters at zero and the timestamps unset. *)
Lemma open_counters (source : option (list byte)) (piped : bool) (f f' : PcapFile) :
  open source piped f = (inr tt, f') ->
  _packet_count f' = 0 /\ counters f' = (0, 0, 0, -1, -1).
Proof.
  unfold open. destruct (_in f); [discriminate |].
  destruct source as [content |]; [| discriminate].
  set (f1 := set_in _ (reset_counters f)).
  pose proof (regular_readall 4 f1) as (_ & _ & _ & Hc1).
  pose proof (keeps_count_readall 4 f1) as Hk1.
  destruct (readall 4 f1) as [[e | magic] f2]; [discriminate |]. simpl in Hc1, Hk1.
  pose proof (regular_readHeader (GetUInt32BE magic 0) f2) as (_ & _ & _ & Hc2).
  pose proof (keeps_count_readHeader (GetUInt32BE magic 0) f2) as Hk2.
  destruct (readHeader (GetUInt32BE magic 0) f2) as [[e | u] f3]; [discriminate |].
  simpl in Hc2, Hk2. intros H. injection H as <-.
  split; [rewrite Hk2, Hk1 | rewrite Hc2, Hc1]; reflexivity.
Qed.

Section Truncated.

Variable packet_reset : list byte -> option IPPacket.

(** C5: when the block or record read at the start of a turn is a captured
    packet whose captured size is smaller than its original size, the turn
    delivers no IP datagram and the loop goes on with the next record; the
    packet is counted in [_packet_count], its captured size is added to
    [_packets_size], and [_ip_packet_count] and [_ip_packets_size] are as
    before. *)
Theorem truncated_record_skipped (f f1 : PcapFile) (c : Captured) :
  read_block f = (inr (Some c), f1) ->
  cap_size c < orig_size c ->
  let f2 := set_packets_size (wrap64 (_packets_size f + cap_size c)) f1 in
  readIP_turn packet_reset f = (inr None, f2) /\
  (forall n, readIP_loop packet_reset (S n) f = readIP_loop packet_reset n f2) /\
  (length (remaining f2) < length (remaining f))%nat /\
  _packet_count f2 = wrap64 (_packet_count f + 1) /\
  _packets_size f2 = wrap64 (_packets_size f + cap_size c) /\
  _ip_packet_count f2 = _ip_packet_count f /\
  _ip_packets_size f2 = _ip_packets_size f.
Proof.
  intros Hrb Htrunc f2.
  pose proof (regular_read_block f) as (_ & _ & _ & Hc).
  pose proof (counts_packet_read_block f) as Hcount.
  pose proof (read_block_progress f f1 _ Hrb) as Hlt.
  rewrite Hrb in Hc, Hcount. simpl in Hc, Hcount.
  unfold counters in Hc. injection Hc as Hipc Hps Hips _ _.
  assert (Hturn : readIP_turn packet_reset f = (inr None, f2)).
  { unfold readIP_turn. rewrite Hrb. unfold process_captured.
    assert (E : (cap_size c <? orig_size c) = true) by (apply Z.ltb_lt; lia).
    rewrite E. subst f2. now rewrite Hps. }
  split; [exact Hturn |].
  split; [intros n; simpl; now rewrite Hturn |].
  subst f2. simpl. repeat split; assumption.
Qed.

End Truncated.

Lemma truncated_record_skipped_witness :
  let f := snd (opened truncated_file) in
  exists f2,
    readIP_turn ipv4_reset f = (inr None, f2) /\
    _packet_count f2 = 1 /\ _packets_size f2 = 500 /\
    _ip_packet_count f2 = 0 /\ _ip_packets_size f2 = 0.
Proof.
  intros f.
  pose (c := match fst (read_block f) with
             | inr (Some c) => c
             | _ => mkCaptured [] 0 0 0 0 0
             end).
  pose (f1 := snd (read_block f)).
  assert (Hrb : read_block f = (inr (Some c), f1)) by (vm_compute; reflexivity).
  assert (Htrunc : cap_size c < orig_size c) by (vm_compute; reflexivity).
  destruct (truncated_record_skipped ipv4_reset f f1 c Hrb Htrunc)
    as (Hturn & _ & _ & Hpc & Hps & Hipc & Hips).
  eexists. split; [exact Hturn |].
  rewrite Hpc, Hps, Hipc, Hips.
  repeat split; vm_compute; reflexivity.
Defined.

(** The first record of [truncated_file] is skipped, the second one is
    delivered. *)
Example truncated_file_readIP :
  let r := readIP ipv4_reset (snd (opened truncated_file)) in
  (match fst r with inr (_, _, ts) => ts = 11000000 | inl _ => False end) /\
  _packet_count (snd r) = 2 /\ _ip_packet_count (snd r) = 1 /\
  _packets_size (snd r) = 542 /\ _ip_packets_size (snd r) = 28.
Proof. vm_compute. repeat split; reflexivity. Qed.

(** ** The integer readers *)

Lemma lor_shiftl_add (a b k : Z) :
  0 <= k -> 0 <= b < 2 ^ k -> Z.lor (Z.shiftl a k) b = a * 2 ^ k + b.
Proof.
  intros Hk Hb.
  assert (Hland : Z.land (Z.shiftl a k) b = 0).
  { apply Z.bits_inj'. intros n Hn. rewrite Z.land_spec, Z.bits_0.
    destruct (Z.lt_ge_cases n k) as [Hlt | Hge].
    - rewrite Z.shiftl_spec_low by assumption. reflexivity.
    - rewrite <- (Z.mod_small b (2 ^ k)) by assumption.
      rewrite Z.mod_pow2_bits_high by lia. apply andb_false_r. }
  pose proof (Z.add_lor_land (Z.shiftl a k) b) as H.
  rewrite Hland in H. rewrite Z.shiftl_mul_pow2 in * by assumption. lia.
Qed.

Lemma GetUInt16BE_value (buf : list byte) (off : Z) :
  GetUInt16BE buf off = byte_at buf off * 256 + byte_at buf (off + 1).
Proof.
  unfold GetUInt16BE. pose proof (byte_at_range buf (off + 1)).
  rewrite lor_shiftl_add; [reflexivity | lia | simpl; lia].
Qed.

Lemma GetUInt16LE_value (buf : list byte) (off : Z) :
  GetUInt16LE buf off = byte_at buf (off + 1) * 256 + byte_at buf off.
Proof.
  unfold GetUInt16LE. pose proof (byte_at_range buf off).
  rewrite lor_shiftl_add; [reflexivity | lia | simpl; lia].
Qed.

Lemma get16_range (be : bool) (buf : list byte) (off : Z) :
  0 <= get16 be buf off < 2 ^ 16.
Proof.
  pose proof (byte_at_range buf off). pose proof (byte_at_range buf (off + 1)).
  unfold get16. destruct be; rewrite ?GetUInt16BE_value, ?GetUInt16LE_value; lia.
Qed.

Lemma GetUInt32BE_value (buf : list byte) (off : Z) :
  GetUInt32BE buf off = GetUInt16BE buf off * 65536 + GetUInt16BE buf (off + 2).
Proof.
  unfold GetUInt32BE. pose proof (get16_range true buf (off + 2)) as H. simpl get16 in H.
  rewrite lor_shiftl_add; [reflexivity | lia | exact H].
Qed.

Lemma GetUInt32LE_value (buf : list byte) (off : Z) :
  GetUInt32LE buf off = GetUInt16LE buf (off + 2) * 65536 + GetUInt16LE buf off.
Proof.
  unfold GetUInt32LE. pose proof (get16_range false buf off) as H. simpl get16 in H.
  rewrite lor_shiftl_add; [reflexivity | lia | exact H].
Qed.

Lemma GetUInt32BE_range (buf : list byte) (off : Z) : 0 <= GetUInt32BE buf off < 2 ^ 32.
Proof.
  rewrite GetUInt32BE_value.
  pose proof (get16_range true buf off) as H1. pose proof (get16_range true buf (off + 2)) as H2.
  simpl get16 in H1, H2. lia.
Qed.

Lemma get32_range (be : bool) (buf : list byte) (off : Z) :
  0 <= get32 be buf off < 2 ^ 32.
Proof.
  unfold get32. destruct be; [apply GetUInt32BE_range |].
  rewrite GetUInt32LE_value.
  pose proof (get16_range false buf off) as H1. pose proof (get16_range false buf (off + 2)) as H2.
  simpl get16 in H1, H2. lia.
Qed.

Lemma byte_val_of_Z (z : Z) : byte_val (byte_of_Z z) = z mod 256.
Proof.
  unfold byte_val, byte_of_Z.
  pose proof (Z.mod_pos_bound z 256 ltac:(lia)) as Hr.
  pose proof (Byte.to_of_N_option_map (Z.to_N (z mod 256))) as H.
  destruct (Byte.of_N (Z.to_N (z mod 256))) as [b |]; simpl in H.
  - destruct (Z.to_N (z mod 256) <=? 255)%N; [| discriminate].
    injection H as ->. lia.
  - assert (E : (Z.to_N (z mod 256) <=? 255)%N = true) by (apply N.leb_le; lia).
    rewrite E in H. discriminate.
Qed.

Lemma byte_at_first4 (a b c d : byte) (l : list byte) :
  byte_at (a :: b :: c :: d :: l) 0 = byte_val a /\
  byte_at (a :: b :: c :: d :: l) 1 = byte_val b /\
  byte_at (a :: b :: c :: d :: l) 2 = byte_val c /\
  byte_at (a :: b :: c :: d :: l) 3 = byte_val d.
Proof. repeat split. Qed.

(** [get32] reads back what [put32] wrote, in both byte orders. *)
Lemma get32_put32 (be : bool) (z : Z) (tail : list byte) :
  0 <= z < 2 ^ 32 -> get32 be (put32 be z ++ tail) 0 = z.
Proof.
  intros Hz. unfold get32, put32. change (2 ^ 32) with 4294967296 in Hz.
  destruct be.
  - rewrite GetUInt32BE_value, !GetUInt16BE_value.
    unfold be32, be16, bytes_of. cbn [map app].
    change (0 + 1) with 1. change (0 + 2) with 2. change (2 + 1) with 3.
    match goal with
    | |- context [byte_at (?a :: ?b :: ?c :: ?d :: ?l) _] =>
        destruct (byte_at_first4 a b c d l) as (-> & -> & -> & ->)
    end.
    rewrite !byte_val_of_Z. Z.div_mod_to_equations. lia.
  - rewrite GetUInt32LE_value, !GetUInt16LE_value.
    unfold le32, be32, be16, bytes_of. cbn [map app rev].
    change (0 + 1) with 1. change (0 + 2) with 2. change (2 + 1) with 3.
    match goal with
    | |- context [byte_at (?a :: ?b :: ?c :: ?d :: ?l) _] =>
        destruct (byte_at_first4 a b c d l) as (-> & -> & -> & ->)
    end.
    rewrite !byte_val_of_Z. Z.div_mod_to_equations. lia.
Qed.

Lemma zlength_put32 (be : bool) (z : Z) : zlength (put32 be z) = 4.
Proof. unfold put32. destruct be; reflexivity. Qed.

(** ** The framing of pcap-ng blocks *)

Lemma firstn_add {A} (n m : nat) (l : list A) :
  firstn (n + m) l = firstn n l ++ firstn m (skipn n l).
Proof.
  revert l. induction n as [| n IH]; intros l; [reflexivity |].
  destruct l as [| x l]; [now rewrite !firstn_nil |].
  simpl. now rewrite IH.
Qed.

Lemma sub_bytes_app (str : list byte) (k n m : Z) :
  0 <= k -> 0 <= n -> 0 <= m ->
  sub_bytes str k n ++ sub_bytes str (k + n) m = sub_bytes str k (n + m).
Proof.
  intros Hk Hn Hm. unfold sub_bytes.
  replace (Z.to_nat (n + m)) with (Z.to_nat n + Z.to_nat m)%nat by lia.
  rewrite firstn_add, skipn_skipn.
  replace (Z.to_nat (k + n)) with (Z.to_nat n + Z.to_nat k)%nat by lia.
  reflexivity.
Qed.

Lemma zlength_sub_bytes (str : list byte) (k n : Z) :
  0 <= k -> 0 <= n -> k + n <= zlength str -> zlength (sub_bytes str k n) = n.
Proof.
  intros Hk Hn Hlen. unfold sub_bytes.
  rewrite zlength_firstn; [reflexivity |]. rewrite zlength_skipn; lia.
Qed.

Lemma at_offset_start (f : PcapFile) (n : Z) :
  readable n f -> at_offset (remaining f) 0 f /\ n <= zlength (remaining f).
Proof.
  intros (s & Hin & Hf & Hlen). unfold at_offset, remaining. rewrite Hin.
  split; [| exact Hlen]. exists s. repeat split; assumption.
Qed.

Lemma at_offset_readall (str : list byte) (k n : Z) (f : PcapFile) :
  at_offset str k f -> 0 <= k -> 0 <= n -> k + n <= zlength str ->
  exists f',
    readall n f = (inr (sub_bytes str k n), f') /\
    at_offset str (k + n) f' /\ _be f' = _be f.
Proof.
  intros (s & Hin & Hf & Hrest) Hk Hn Hlen.
  destruct (Z.eq_dec n 0) as [-> | Hpos].
  - exists f. rewrite readall_zero by lia. split; [reflexivity |].
    split; [| reflexivity]. rewrite Z.add_0_r. exists s. repeat split; assumption.
  - exists (advance n f).
    assert (Hl : zlength (rest s) = zlength str - k).
    { rewrite Hrest. apply zlength_skipn. lia. }
    rewrite (readall_success n f s Hin Hf) by lia.
    rewrite Hrest. split; [reflexivity |]. split.
    + eexists. split; [apply (advance_in n f s Hin) |]. simpl.
      split; [reflexivity |]. rewrite Hrest, skipn_skipn. f_equal. lia.
    + apply advance_fields.
Qed.

Lemma at_offset_short (str : list byte) (k n : Z) (f : PcapFile) :
  at_offset str k f -> 0 <= k <= zlength str -> zlength str < k + n ->
  fst (readall n f) = inl ShortRead.
Proof.
  intros (s & Hin & Hf & Hrest) Hk Hlen.
  apply (readall_short n f s Hin). rewrite Hrest, zlength_skipn; lia.
Qed.

Lemma at_offset_set_be (str : list byte) (k : Z) (b : bool) (f : PcapFile) :
  at_offset str k f -> at_offset str k (set_be b f).
Proof. intros (s & Hin & H). exists s. split; [exact Hin | exact H]. Qed.

Lemma at_offset_remaining (str : list byte) (k : Z) (f : PcapFile) :
  at_offset str k f -> remaining f = skipn (Z.to_nat k) str.
Proof. intros (s & Hin & _ & Hrest). unfold remaining. now rewrite Hin. Qed.

Lemma get32_sub_bytes (be : bool) (str : list byte) (k : Z) :
  0 <= k -> get32 be (sub_bytes str k 4) 0 = get32 be str k.
Proof.
  intros Hk. unfold sub_bytes. rewrite get32_sub by lia. now rewrite Z.add_0_r.
Qed.

(** Lines 258-283, the input being at offset [k] of [str]. *)
Lemma read_block_rest_spec (str : list byte) (k size : Z) (body : list byte) (f : PcapFile) :
  at_offset str k f -> 0 <= k <= zlength str ->
  let n := size - 12 - zlength body in
  (size mod 4 <> 0 \/ size < 12 + zlength body ->
     fst (read_block_rest size body f) = inl BadBlockLength) /\
  (size mod 4 = 0 -> 12 + zlength body <= size ->
     (zlength str < k + n + 4 -> fst (read_block_rest size body f) = inl ShortRead) /\
     (k + n + 4 <= zlength str -> size <> get32 (_be f) str (k + n) ->
        fst (read_block_rest size body f) = inl BadBlockLength) /\
     (k + n + 4 <= zlength str -> size = get32 (_be f) str (k + n) ->
        exists f', read_block_rest size body f = (inr (body ++ sub_bytes str k n), f') /\
                   at_offset str (k + n + 4) f')).
Proof.
  intros Hat Hk n. unfold read_block_rest. split.
  - intros Hbad.
    assert (E : negb (size mod 4 =? 0) || (size <? 12 + zlength body) = true).
    { destruct Hbad as [H | H].
      - apply Z.eqb_neq in H. now rewrite H.
      - apply Z.ltb_lt in H. rewrite H. apply orb_true_r. }
    now rewrite E.
  - intros Hmod Hsize.
    assert (E : negb (size mod 4 =? 0) || (size <? 12 + zlength body) = false).
    { rewrite Hmod. change (0 =? 0) with true. cbn [negb orb]. apply Z.ltb_ge. lia. }
    rewrite E. fold n. assert (Hn : 0 <= n) by (unfold n; lia).
    unfold bind.
    destruct (Z.le_gt_cases (k + n) (zlength str)) as [Hfit | Hshort].
    + destruct (at_offset_readall str k n f Hat) as (f1 & Hr1 & Hat1 & Hbe1); try lia.
      rewrite Hr1.
      destruct (Z.le_gt_cases (k + n + 4) (zlength str)) as [Hfit2 | Hshort2].
      * destruct (at_offset_readall str (k + n) 4 f1 Hat1) as (f2 & Hr2 & Hat2 & Hbe2);
          try lia.
        rewrite Hr2. unfold get. rewrite get32_sub_bytes by lia. rewrite Hbe2, Hbe1.
        split; [lia |]. split.
        -- intros _ Hne. apply Z.eqb_neq in Hne. now rewrite Hne.
        -- intros _ Heq. rewrite <- Heq, Z.eqb_refl. simpl.
           exists f2. split; [reflexivity | exact Hat2].
      * pose proof (at_offset_short str (k + n) 4 f1 Hat1) as Hs.
        destruct (readall 4 f1) as [[e | a] f2]; simpl in Hs.
        -- split; [intros _; simpl; apply Hs; lia |]. split; intros; lia.
        -- assert (@inr Error _ a = inl ShortRead) by (apply Hs; lia). discriminate.
    + pose proof (at_offset_short str k n f Hat Hk) as Hs.
      destruct (readall n f) as [[e | a] f1]; simpl in Hs.
      * split; [intros _; simpl; apply Hs; lia |]. split; intros; lia.
      * assert (@inr Error _ a = inl ShortRead) by (apply Hs; lia). discriminate.
Qed.

(** Lines 242-256, the input being after the leading length. *)
Lemma read_order_magic_spec (str : list byte) (block_type : Z) (f : PcapFile) :
  at_offset str 4 f -> 4 + already_read block_type <= zlength str ->
  (block_type = PCAPNG_SECTION_HEADER ->
   GetUInt32BE str 4 = PCAPNG_ORDER_BE \/ GetUInt32BE str 4 = PCAPNG_ORDER_LE) ->
  exists f',
    read_order_magic block_type f = (inr (sub_bytes str 4 (already_read block_type)), f') /\
    at_offset str (4 + already_read block_type) f' /\
    _be f' = if block_type =? PCAPNG_SECTION_HEADER
             then GetUInt32BE str 4 =? PCAPNG_ORDER_BE else _be f.
Proof.
  intros Hat Hlen Hmagic. unfold read_order_magic, already_read in *.
  destruct (Z.eqb_spec block_type PCAPNG_SECTION_HEADER) as [Hsh | Hother].
  - destruct (at_offset_readall str 4 4 f Hat) as (f1 & Hr & Hat1 & Hbe); try lia.
    unfold bind. rewrite Hr.
    assert (Hm : GetUInt32BE (sub_bytes str 4 4) 0 = GetUInt32BE str 4).
    { unfold sub_bytes. rewrite GetUInt32BE_sub by lia. reflexivity. }
    rewrite Hm.
    assert (E : negb (GetUInt32BE str 4 =? PCAPNG_ORDER_BE)
                && negb (GetUInt32BE str 4 =? PCAPNG_ORDER_LE) = false).
    { destruct (Hmagic Hsh) as [-> | ->]; reflexivity. }
    rewrite E. unfold modify, ret.
    eexists. split; [reflexivity |]. split; [| reflexivity].
    now apply at_offset_set_be.
  - exists f. unfold ret. split; [reflexivity |]. split; [| reflexivity].
    now rewrite Z.add_0_r.
Qed.

(** [readNgBlockBody] comes down to lines 258-283 on the leading length. *)
Lemma readNgBlockBody_rest (block_type : Z) (f : PcapFile) :
  block_start block_type f ->
  exists f',
    readNgBlockBody block_type f =
      read_block_rest (leading_length block_type f)
                      (sub_bytes (remaining f) 4 (already_read block_type)) f' /\
    at_offset (remaining f) (4 + already_read block_type) f' /\
    _be f' = block_endianness block_type f.
Proof.
  intros [Hread Hmagic].
  destruct (at_offset_start f _ Hread) as [Hat Hlen].
  set (str := remaining f) in *.
  assert (Ha : 0 <= already_read block_type).
  { unfold already_read. destruct (_ =? _); lia. }
  destruct (at_offset_readall str 0 4 f Hat) as (f1 & Hr1 & Hat1 & Hbe1); try lia.
  destruct (read_order_magic_spec str block_type f1 Hat1 Hlen Hmagic) as (f2 & Hr2 & Hat2 & Hbe2).
  exists f2. unfold readNgBlockBody, bind. rewrite Hr1, Hr2. unfold get.
  assert (Hbe : _be f2 = block_endianness block_type f).
  { unfold block_endianness. fold str. rewrite Hbe2, Hbe1. reflexivity. }
  rewrite get32_sub_bytes by lia. unfold leading_length. fold str. rewrite Hbe.
  repeat split; assumption.
Qed.

(** The byte-order magic of a Section Header, read in the byte order that
    it announces, is the magic number itself. *)
Lemma order_magic_value (str : list byte) (off : Z) :
  GetUInt32BE str off = PCAPNG_ORDER_BE \/ GetUInt32BE str off = PCAPNG_ORDER_LE ->
  get32 (GetUInt32BE str off =? PCAPNG_ORDER_BE) str off = PCAPNG_ORDER_BE.
Proof.
  intros [H | H].
  - rewrite H at 1. rewrite Z.eqb_refl. exact H.
  - rewrite H at 1. change (PCAPNG_ORDER_LE =? PCAPNG_ORDER_BE) with false.
    unfold get32. revert H.
    rewrite GetUInt32BE_value, GetUInt32LE_value, !GetUInt16BE_value, !GetUInt16LE_value.
    replace (off + 2 + 1) with (off + 3) by lia.
    pose proof (byte_at_range str off). pose proof (byte_at_range str (off + 1)).
    pose proof (byte_at_range str (off + 2)). pose proof (byte_at_range str (off + 3)).
    unfold PCAPNG_ORDER_BE, PCAPNG_ORDER_LE. lia.
Qed.

(** The outcome of [readNgBlockBody] once the leading length [L] and, for a
    Section Header, a valid byte-order magic are read: the length is
    rejected at once when it is not a multiple of 4 or does not cover what
    is read already; else the rest of the block is read, and the trailing
    length is compared when it is there. *)
Lemma readNgBlockBody_lengths (block_type : Z) (f : PcapFile) :
  block_start block_type f ->
  let L := leading_length block_type f in
  let L' := trailing_length block_type f in
  (fst (readNgBlockBody block_type f) = inl BadBlockLength <->
     L mod 4 <> 0 \/ L < 12 + already_read block_type \/
     (L - 4 <= zlength (remaining f) /\ L <> L')) /\
  (forall body f', readNgBlockBody block_type f = (inr body, f') ->
     L = L' /\ 12 <= L /\ L mod 4 = 0 /\
     body = sub_bytes (remaining f) 4 (L - 12) /\ zlength body = L - 12 /\
     remaining f' = skipn (Z.to_nat (L - 4)) (remaining f)).
Proof.
  intros Hstart L L'.
  destruct (readNgBlockBody_rest block_type f Hstart) as (f2 & Heq & Hat & Hbe).
  destruct Hstart as [Hread _].
  destruct (at_offset_start f _ Hread) as [_ Hlen].
  set (str := remaining f) in *. set (a := already_read block_type) in *.
  assert (Ha : 0 <= a) by (subst a; unfold already_read; destruct (_ =? _); lia).
  assert (Hbody : zlength (sub_bytes str 4 a) = a) by (apply zlength_sub_bytes; lia).
  fold L in Heq. rewrite Heq.
  assert (Hk : 0 <= 4 + a <= zlength str) by lia.
  destruct (read_block_rest_spec str (4 + a) L (sub_bytes str 4 a) f2 Hat Hk)
    as [Hbad Hgood].
  rewrite Hbody in Hbad, Hgood. rewrite Hbe in Hgood.
  replace (4 + a + (L - 12 - a)) with (L - 8) in Hgood by lia.
  replace (L - 8 + 4) with (L - 4) in Hgood by lia.
  assert (HL' : L' = get32 (block_endianness block_type f) str (L - 8)) by reflexivity.
  destruct (Z.eq_dec (L mod 4) 0) as [Hmod | Hmod];
    [destruct (Z.le_gt_cases (12 + a) L) as [Hsize | Hsize] |].
  - destruct (Hgood Hmod Hsize) as (Hshort & Hdiff & Hsame).
    rewrite <- HL' in Hdiff, Hsame.
    destruct (Z.le_gt_cases (L - 4) (zlength str)) as [Hfit | Hcut].
    + destruct (Z.eq_dec L L') as [Hll | Hll].
      * destruct (Hsame Hfit Hll) as (f3 & Hr & Hat3). rewrite Hr. split.
        -- split; [discriminate |]. intros [H | [H | [_ H]]]; [tauto | lia | tauto].
        -- intros body f' Hres. injection Hres as <- <-.
           rewrite sub_bytes_app by lia. replace (a + (L - 12 - a)) with (L - 12) by lia.
           rewrite zlength_sub_bytes by lia.
           rewrite (at_offset_remaining str (L - 4) f3 Hat3).
           repeat split; assumption || lia.
      * rewrite (Hdiff Hfit Hll). split.
        -- split; [| reflexivity]. intros _. right. right. split; assumption.
        -- intros body f' Hres.
           assert (H : fst (read_block_rest L (sub_bytes str 4 a) f2) = inr body)
             by (rewrite Hres; reflexivity).
           rewrite (Hdiff Hfit Hll) in H. discriminate.
    + split.
      * rewrite (Hshort Hcut). split; [discriminate |].
        intros [H | [H | [H _]]]; [tauto | lia | lia].
      * intros body f' Hres.
        assert (H : fst (read_block_rest L (sub_bytes str 4 a) f2) = inr body)
          by (rewrite Hres; reflexivity).
        rewrite (Hshort Hcut) in H. discriminate.
  - split.
    + rewrite (Hbad (or_intror Hsize)). split; [| reflexivity]. intros _. right. left. lia.
    + intros body f' Hres.
      assert (H : fst (read_block_rest L (sub_bytes str 4 a) f2) = inr body)
        by (rewrite Hres; reflexivity).
      rewrite (Hbad (or_intror Hsize)) in H. discriminate.
  - split.
    + rewrite (Hbad (or_introl Hmod)). split; [| reflexivity]. intros _. now left.
    + intros body f' Hres.
      assert (H : fst (read_block_rest L (sub_bytes str 4 a) f2) = inr body)
        by (rewrite Hres; reflexivity).
      rewrite (Hbad (or_introl Hmod)) in H. discriminate.
Qed.

(** In a Section Header whose leading length is 12, the last four bytes of
    the block are the byte-order magic, which is not 12. *)
Lemma short_section_header (f : PcapFile) :
  block_start PCAPNG_SECTION_HEADER f ->
  leading_length PCAPNG_SECTION_HEADER f = 12 ->
  trailing_length PCAPNG_SECTION_HEADER f = PCAPNG_ORDER_BE.
Proof.
  intros [_ Hmagic] HL. unfold trailing_length. rewrite HL.
  unfold block_endianness. change (PCAPNG_SECTION_HEADER =? PCAPNG_SECTION_HEADER) with true.
  cbv iota. apply order_magic_value. now apply Hmagic.
Qed.

(** C3: on an input that holds the block, [readNgBlockBody] fails with
    BadBlockLength exactly when the leading length [L] is below 12, or is
    not a multiple of 4, or differs from the trailing length [L'], the last
    four bytes of the block; on success both lengths are equal, at least 12
    and divisible by 4, and the body is the [L - 12] bytes between them.  A
    Section Header of 12 bytes, whose body cannot hold the byte-order magic
    that is read first, is rejected too: its last four bytes are the magic
    itself. *)
Theorem ng_block_framing (block_type : Z) (f : PcapFile) :
  block_present block_type f ->
  let L := leading_length block_type f in
  let L' := trailing_length block_type f in
  (fst (readNgBlockBody block_type f) = inl BadBlockLength <->
     L < 12 \/ L mod 4 <> 0 \/ L <> L') /\
  (forall body f', readNgBlockBody block_type f = (inr body, f') ->
     L = L' /\ 12 <= L /\ L mod 4 = 0 /\
     body = sub_bytes (remaining f) 4 (L - 12) /\ zlength body = L - 12 /\
     remaining f' = skipn (Z.to_nat (L - 4)) (remaining f)).
Proof.
  intros [Hstart Hthere] L L'.
  destruct (readNgBlockBody_lengths block_type f Hstart) as [Hiff Hok].
  fold L in Hiff, Hok, Hthere. fold L' in Hiff, Hok.
  split; [| exact Hok].
  rewrite Hiff. split.
  - intros [H | [H | [_ H]]]; [tauto | | tauto].
    destruct (Z.lt_ge_cases L 12) as [H12 | H12]; [tauto |].
    destruct (Z.eq_dec (L mod 4) 0) as [Hmod | Hmod]; [| tauto].
    right. right.
    assert (Hsh : block_type = PCAPNG_SECTION_HEADER).
    { unfold already_read in H.
      destruct (Z.eqb_spec block_type PCAPNG_SECTION_HEADER); [assumption | lia]. }
    subst block_type.
    assert (HL : L = 12).
    { unfold already_read in H.
      change (PCAPNG_SECTION_HEADER =? PCAPNG_SECTION_HEADER) with true in H.
      cbv iota in H. apply Z.div_exact in Hmod; lia. }
    subst L'. rewrite (short_section_header f Hstart HL), HL.
    unfold PCAPNG_ORDER_BE. lia.
  - intros [H | [H | H]]; [| tauto | tauto].
    right. left. unfold already_read. destruct (_ =? _); lia.
Qed.

Lemma ng_block_framing_witness :
  let good := reader_on idb_input in
  let bad := reader_on idb_input_bad in
  let short := reader_on short_section in
  fst (readNgBlockBody PCAPNG_INTERFACE_DESC bad) = inl BadBlockLength /\
  fst (readNgBlockBody PCAPNG_SECTION_HEADER short) = inl BadBlockLength /\
  exists body f',
    readNgBlockBody PCAPNG_INTERFACE_DESC good = (inr body, f') /\
    leading_length PCAPNG_INTERFACE_DESC good = 20 /\
    trailing_length PCAPNG_INTERFACE_DESC good = 20 /\
    zlength body = 8.
Proof.
  intros good bad short.
  assert (Hgood : block_present PCAPNG_INTERFACE_DESC good).
  { split; [split; [| discriminate] | vm_compute; discriminate].
    eexists. split; [reflexivity |]. split; [reflexivity |]. vm_compute. discriminate. }
  assert (Hbad : block_present PCAPNG_INTERFACE_DESC bad).
  { split; [split; [| discriminate] | vm_compute; discriminate].
    eexists. split; [reflexivity |]. split; [reflexivity |]. vm_compute. discriminate. }
  assert (Hshort : block_present PCAPNG_SECTION_HEADER short).
  { split; [split | vm_compute; discriminate].
    - eexists. split; [reflexivity |]. split; [reflexivity |]. vm_compute. discriminate.
    - intros _. right. vm_compute. reflexivity. }
  split; [| split].
  - apply (proj1 (ng_block_framing PCAPNG_INTERFACE_DESC bad Hbad)).
    right. right. vm_compute. discriminate.
  - apply (proj1 (ng_block_framing PCAPNG_SECTION_HEADER short Hshort)).
    right. right. vm_compute. discriminate.
  - destruct (ng_block_framing PCAPNG_INTERFACE_DESC good Hgood) as [_ Hok].
    pose (body := match fst (readNgBlockBody PCAPNG_INTERFACE_DESC good) with
                  | inr b => b
                  | inl _ => []
                  end).
    pose (f' := snd (readNgBlockBody PCAPNG_INTERFACE_DESC good)).
    assert (Hr : readNgBlockBody PCAPNG_INTERFACE_DESC good = (inr body, f'))
      by (vm_compute; reflexivity).
    assert (HL : leading_length PCAPNG_INTERFACE_DESC good = 20) by (vm_compute; reflexivity).
    destruct (Hok body f' Hr) as (Hll & _ & _ & _ & Hz & _).
    exists body, f'. split; [exact Hr |]. split; [exact HL |].
    split; [exact (eq_trans (eq_sym Hll) HL) |].
    exact (eq_trans Hz (f_equal (fun x => x - 12) HL)).
Defined.

(** ** The addresses of the filter *)

Lemma flow_verdict_unfold (p : PcapFilter) (packet : IPPacket) :
  flow_verdict p packet =
  if forward_match p packet then
    (Accept, if unspecified_filter p
             then set_addresses (ip_source packet) (ip_destination packet) p else p)
  else if backward_match p packet then
    (Accept, if unspecified_filter p
             then set_addresses (ip_destination packet) (ip_source packet) p else p)
  else (Drop, p).
Proof. reflexivity. Qed.

Lemma unspecified_flow (p q : PcapFilter) :
  flow_of p = flow_of q -> unspecified_filter p = unspecified_filter q.
Proof.
  unfold flow_of. intros H. injection H as Hp Hs Hd Hb Hw.
  unfold unspecified_filter, addressFilterIsSet, use_port. now rewrite Hp, Hs, Hd, Hw.
Qed.

Lemma filter_packet_specified (p : PcapFilter) (packet : IPPacket)
    (vlans : VLANIdStack) (timestamp : Z) :
  unspecified_filter p = false -> snd (filter_packet p packet vlans timestamp) = p.
Proof.
  intros H. unfold filter_packet.
  destruct (window_verdict p packet vlans timestamp); try reflexivity.
  rewrite flow_verdict_unfold, H.
  destruct (forward_match p packet); [reflexivity |].
  destruct (backward_match p packet); reflexivity.
Qed.

Lemma filter_packet_file (p : PcapFilter) (packet : IPPacket) (vlans : VLANIdStack)
    (timestamp : Z) :
  file (snd (filter_packet p packet vlans timestamp)) = file p.
Proof.
  unfold filter_packet.
  destruct (window_verdict p packet vlans timestamp); try reflexivity.
  rewrite flow_verdict_unfold.
  destruct (forward_match p packet); [destruct (unspecified_filter p); reflexivity |].
  destruct (backward_match p packet); [destruct (unspecified_filter p); reflexivity |].
  reflexivity.
Qed.

Section FilterAddresses.

Variable packet_reset : list byte -> option IPPacket.

(** The fuel of [PcapFilter_readIP] is enough: every packet that is dropped
    has consumed input. *)
Lemma PcapFilter_loop_total (n : nat) (p : PcapFilter) :
  (length (remaining (file p)) < n)%nat -> PcapFilter_loop packet_reset n p <> None.
Proof.
  revert p. induction n as [| n IH]; intros p Hn; [lia |]. simpl.
  destruct (readIP packet_reset (file p)) as [[e | [[packet vlans] timestamp]] f1] eqn:Hr;
    [discriminate |].
  apply readIP_progress in Hr.
  pose proof (filter_packet_file (set_file f1 p) packet vlans timestamp) as Hfile.
  destruct (filter_packet (set_file f1 p) packet vlans timestamp) as [v p1].
  simpl in Hfile. destruct v; try discriminate.
  apply IH. rewrite Hfile. simpl. lia.
Qed.

Lemma PcapFilter_loop_flow (n : nat) (p p' : PcapFilter) (r : option Error + Found) :
  unspecified_filter p = false ->
  PcapFilter_loop packet_reset n p = Some (r, p') -> flow_of p' = flow_of p.
Proof.
  revert p. induction n as [| n IH]; intros p Hspec; [discriminate |]. simpl.
  destruct (readIP packet_reset (file p)) as [[e | [[packet vlans] timestamp]] f1].
  - intros H. injection H as _ <-. reflexivity.
  - assert (Hspec1 : unspecified_filter (set_file f1 p) = false).
    { rewrite <- Hspec. now apply unspecified_flow. }
    pose proof (filter_packet_specified (set_file f1 p) packet vlans timestamp Hspec1) as Hsame.
    destruct (filter_packet (set_file f1 p) packet vlans timestamp) as [v p1].
    simpl in Hsame. subst p1.
    destruct v.
    + intros H. injection H as _ <-. reflexivity.
    + intros H. apply IH in H; [| exact Hspec1]. rewrite H. reflexivity.
    + intros H. injection H as _ <-. reflexivity.
Qed.

Lemma PcapFilter_readIP_flow (p : PcapFilter) :
  unspecified_filter p = false ->
  flow_of (snd (PcapFilter_readIP packet_reset p)) = flow_of p.
Proof.
  intros Hspec. unfold PcapFilter_readIP.
  destruct (PcapFilter_loop packet_reset (readIP_fuel (file p)) p) as [[r p'] |] eqn:H;
    [| reflexivity].
  simpl. eapply PcapFilter_loop_flow; eassumption.
Qed.

End FilterAddresses.

(** C7, as stated, fails: a filter without addresses that may not use
    wildcards takes the addresses of the first packet it accepts, here an
    ICMP packet from A to B, which has no ports; the filter is then still not
    fully specified, and the next accepted packet, UDP from A:5 to B:6,
    replaces the learned pair without any [open]. *)
Lemma learned_pair_replaced_counterexample :
  let p0 := learning_filter in
  let p1 := snd (filter_packet p0 icmp_A_B [] 0) in
  let p2 := snd (filter_packet p1 udp_A_B [] 0) in
  unspecified_filter p0 = true /\
  fst (filter_packet p0 icmp_A_B [] 0) = Accept /\
  (_source p1, _destination p1) = (ip_source icmp_A_B, ip_destination icmp_A_B) /\
  fst (filter_packet p1 udp_A_B [] 0) = Accept /\
  (_source p2, _destination p2) <> (_source p1, _destination p1).
Proof.
  vm_compute. repeat split; discriminate.
Qed.

(** C7 (amended): while wildcards are off and the source/destination filter
    is not fully specified (address and, when the protocol set is empty or
    contains TCP or UDP, port, for both endpoints), every packet that the
    flow match accepts, not only the first one, sets the filter to its
    (source, destination) pair, swapped when only the reverse bidirectional
    branch matched; a packet that matches in neither way is rejected; the
    filter that this leaves is fully specified when the endpoints of the
    packet are, and a fully specified filter is left as it is by every
    later [readIP], until a successful [open] clears the addresses. *)
Theorem flow_learning (packet_reset : list byte -> option IPPacket)
    (p : PcapFilter) (packet : IPPacket) :
  let src := ip_source packet in
  let dst := ip_destination packet in
  (unspecified_filter p = true -> forward_match p packet = true ->
     flow_verdict p packet = (Accept, set_addresses src dst p)) /\
  (unspecified_filter p = true -> forward_match p packet = false ->
   backward_match p packet = true ->
     flow_verdict p packet = (Accept, set_addresses dst src p)) /\
  (forward_match p packet = false -> backward_match p packet = false ->
     flow_verdict p packet = (Drop, p) /\
     forall vlans timestamp, fst (filter_packet p packet vlans timestamp) <> Accept) /\
  (fully_specified p packet ->
     unspecified_filter (set_addresses src dst p) = false /\
     unspecified_filter (set_addresses dst src p) = false) /\
  (unspecified_filter p = false ->
     (forall vlans timestamp, snd (filter_packet p packet vlans timestamp) = p) /\
     forall n, flow_of (Nat.iter n (fun q => snd (PcapFilter_readIP packet_reset q)) p)
               = flow_of p) /\
  (forall source piped p', PcapFilter_open source piped p = (inr tt, p') ->
     _source p' = sock_clear /\ _destination p' = sock_clear /\ _wildcard_filter p' = true).
Proof.
  intros src dst. split; [| split; [| split; [| split; [| split]]]].
  - intros Hu Hf. rewrite flow_verdict_unfold, Hf, Hu. reflexivity.
  - intros Hu Hf Hb. rewrite flow_verdict_unfold, Hf, Hb, Hu. reflexivity.
  - intros Hf Hb. split.
    + rewrite flow_verdict_unfold, Hf, Hb. reflexivity.
    + intros vlans timestamp. unfold filter_packet.
      destruct (window_verdict p packet vlans timestamp); simpl; try discriminate.
      rewrite flow_verdict_unfold, Hf, Hb. discriminate.
  - intros (Hs & Hd & Hp).
    unfold unspecified_filter, addressFilterIsSet. simpl.
    change (use_port (set_addresses src dst p)) with (use_port p).
    change (use_port (set_addresses dst src p)) with (use_port p).
    fold src in Hs. fold dst in Hd. rewrite Hs, Hd.
    destruct (use_port p).
    + destruct (Hp eq_refl) as [Hps Hpd]. fold src in Hps. fold dst in Hpd.
      rewrite Hps, Hpd. simpl. split; apply andb_false_r.
    + simpl. split; apply andb_false_r.
  - intros Hu. split.
    + intros vlans timestamp. now apply filter_packet_specified.
    + induction n as [| n IH]; [reflexivity |]. simpl.
      rewrite PcapFilter_readIP_flow; [exact IH |].
      rewrite <- Hu. now apply unspecified_flow.
  - intros source piped p' H. unfold PcapFilter_open in H.
    destruct (open source piped (file p)) as [[e | u] f']; [discriminate |].
    injection H as <-. repeat split.
Qed.

Lemma flow_learning_witness :
  let p0 := learning_filter_bidirectional in
  let p1 := set_addresses (ip_source tcp_A_B) (ip_destination tcp_A_B) p0 in
  flow_verdict p0 tcp_A_B = (Accept, p1) /\
  filter_packet p1 tcp_B_A [] 0 = (Accept, p1) /\
  flow_verdict p1 tcp_C_D = (Drop, p1).
Proof.
  intros p0 p1. split; [| split].
  - apply (proj1 (flow_learning ipv4_reset p0 tcp_A_B)); reflexivity.
  - assert (Hfull : fully_specified p0 tcp_A_B).
    { repeat split. }
    destruct (proj1 (proj2 (proj2 (proj2 (flow_learning ipv4_reset p0 tcp_A_B)))) Hfull)
      as [Hspec _].
    destruct (proj1 (proj2 (proj2 (proj2 (proj2 (flow_learning ipv4_reset p1 tcp_B_A))))) Hspec)
      as [Hkeep _].
    specialize (Hkeep [] 0).
    assert (Hv : fst (filter_packet p1 tcp_B_A [] 0) = Accept) by reflexivity.
    destruct (filter_packet p1 tcp_B_A [] 0) as [v q]. simpl in Hkeep, Hv. now subst.
  - apply (proj1 (proj2 (proj2 (flow_learning ipv4_reset p1 tcp_C_D)))); reflexivity.
Defined.

(** The scenario of the specification: a bidirectional filter between
    wildcards learns A:1234 -> B:80, then accepts B:80 -> A:1234 and rejects
    C:9 -> D:9. *)
Example bidirectional_learning :
  let p := filter_run [tcp_A_B] learning_filter_bidirectional in
  (_source p, _destination p) = (ip_source tcp_A_B, ip_destination tcp_A_B) /\
  fst (filter_packet p tcp_B_A [] 0) = Accept /\
  fst (filter_packet p tcp_C_D [] 0) = Drop /\
  filter_run [tcp_B_A; tcp_C_D] p = p.
Proof. vm_compute. repeat split; reflexivity. Qed.

(** ** The timestamps of the packets that the filter yields *)

Lemma getDate_nonneg (arg : DateArg) (def_value : Z) :
  0 <= def_value -> 0 <= getDate arg def_value.
Proof.
  intros H. destruct arg as [| | millis]; simpl; try assumption.
  destruct (Z.ltb_spec millis 0); lia.
Qed.

Lemma loadArgs_first_time (args : Args) (p : PcapFilter) :
  0 <= _opt_first_time (loadArgs args p).
Proof. simpl. apply getDate_nonneg. lia. Qed.

Lemma PcapFilter_open_first_time (source : option (list byte)) (piped : bool)
    (p p' : PcapFilter) :
  PcapFilter_open source piped p = (inr tt, p') -> _first_time p' = _opt_first_time p.
Proof.
  unfold PcapFilter_open.
  destruct (open source piped (file p)) as [[e | u] f']; [discriminate |].
  intros H. injection H as <-. reflexivity.
Qed.

Lemma window_accept (p : PcapFilter) (packet : IPPacket) (vlans : VLANIdStack)
    (timestamp : Z) :
  window_verdict p packet vlans timestamp = Accept -> _first_time p <= timestamp.
Proof.
  unfold window_verdict.
  destruct (_ || _ || _); [discriminate |].
  destruct (timestamp <? _first_time p) eqn:E.
  - rewrite !orb_true_r. simpl. discriminate.
  - intros _. now apply Z.ltb_ge.
Qed.

Lemma filter_packet_accept (p p' : PcapFilter) (packet : IPPacket) (vlans : VLANIdStack)
    (timestamp : Z) :
  filter_packet p packet vlans timestamp = (Accept, p') -> _first_time p <= timestamp.
Proof.
  unfold filter_packet.
  destruct (window_verdict p packet vlans timestamp) eqn:E; try discriminate.
  intros _. eapply window_accept. eassumption.
Qed.

Lemma filter_packet_first_time (p : PcapFilter) (packet : IPPacket) (vlans : VLANIdStack)
    (timestamp : Z) :
  _first_time (snd (filter_packet p packet vlans timestamp)) = _first_time p.
Proof.
  unfold filter_packet.
  destruct (window_verdict p packet vlans timestamp); try reflexivity.
  rewrite flow_verdict_unfold.
  destruct (forward_match p packet); [destruct (unspecified_filter p); reflexivity |].
  destruct (backward_match p packet); [destruct (unspecified_filter p); reflexivity |].
  reflexivity.
Qed.

Section FilterTimestamps.

Variable packet_reset : list byte -> option IPPacket.

Lemma PcapFilter_loop_first_time (n : nat) (p p' : PcapFilter) (r : option Error + Found) :
  PcapFilter_loop packet_reset n p = Some (r, p') ->
  _first_time p' = _first_time p /\
  match r with
  | inr (_, _, timestamp) => _first_time p <= timestamp
  | inl _ => True
  end.
Proof.
  revert p. induction n as [| n IH]; intros p; [discriminate |]. simpl.
  destruct (readIP packet_reset (file p)) as [[e | [[packet vlans] timestamp]] f1].
  - intros H. injection H as <- <-. split; [reflexivity | exact I].
  - pose proof (filter_packet_first_time (set_file f1 p) packet vlans timestamp) as Hft.
    destruct (filter_packet (set_file f1 p) packet vlans timestamp) as [v p1] eqn:Hfp.
    simpl in Hft. destruct v.
    + intros H. injection H as <- <-. split; [exact Hft | exact I].
    + intros H. apply IH in H. rewrite Hft in H. exact H.
    + intros H. injection H as <- <-. split; [exact Hft |].
      apply (filter_packet_accept _ _ _ _ _ Hfp).
Qed.

Lemma PcapFilter_readIP_first_time (p : PcapFilter) :
  _first_time (snd (PcapFilter_readIP packet_reset p)) = _first_time p /\
  match fst (PcapFilter_readIP packet_reset p) with
  | inr (_, _, timestamp) => _first_time p <= timestamp
  | inl _ => True
  end.
Proof.
  unfold PcapFilter_readIP.
  destruct (PcapFilter_loop packet_reset (readIP_fuel (file p)) p) as [[r p'] |] eqn:H.
  - apply (PcapFilter_loop_first_time _ _ _ _ H).
  - split; [reflexivity | exact I].
Qed.

Lemma Session_first_time (args : Args) (p : PcapFilter) :
  Session packet_reset args p -> 0 <= _first_time p.
Proof.
  induction 1 as [p0 p source piped Hopen | p Hs IH | p protocols src dst b w Hs IH].
  - rewrite (PcapFilter_open_first_time _ _ _ _ Hopen). apply loadArgs_first_time.
  - now rewrite (proj1 (PcapFilter_readIP_first_time p)).
  - exact IH.
Qed.

End FilterTimestamps.

(** C10: once [loadArgs] has loaded the options, whatever they are, every
    packet that [PcapFilter::readIP] yields has a timestamp that is not
    negative: the lower bound [_first_time] is never negative, so a packet
    without timestamp (-1) fails the test [timestamp < _first_time] and is
    dropped; and [PcapFile::readIP] alone does return such packets. *)
Theorem filter_yields_timestamps (packet_reset : list byte -> option IPPacket) :
  (forall (args : Args) (p p' : PcapFilter) (packet : IPPacket) (vlans : VLANIdStack)
          (timestamp : Z),
     Session packet_reset args p ->
     PcapFilter_readIP packet_reset p = (inr (packet, vlans, timestamp), p') ->
     0 <= _first_time p /\ _first_time p <= timestamp /\ 0 <= timestamp) /\
  (exists f packet vlans f',
     isOpen f = true /\ readIP ipv4_reset f = (inr (packet, vlans, -1), f') /\
     exists e, fst (PcapFilter_readIP ipv4_reset (fresh_filter f)) = inl e).
Proof.
  split.
  - intros args p p' packet vlans timestamp Hs Hread.
    pose proof (Session_first_time packet_reset args p Hs) as H0.
    pose proof (proj2 (PcapFilter_readIP_first_time packet_reset p)) as H1.
    rewrite Hread in H1. simpl in H1.
    split; [exact H0 |]. split; [exact H1 | lia].
  - exists (snd (opened simple_packet_file)).
    eexists. eexists. eexists. split; [reflexivity |]. split.
    + vm_compute. reflexivity.
    + eexists. vm_compute. reflexivity.
Qed.

Lemma filter_yields_timestamps_witness :
  let p := snd (opened_filter one_packet_file) in
  exists packet vlans p',
    PcapFilter_readIP ipv4_reset p = (inr (packet, vlans, 10500000), p') /\
    0 <= 10500000.
Proof.
  intros p.
  assert (Hs : Session ipv4_reset no_args p).
  { apply (session_open ipv4_reset no_args (blank_filter PcapFile_default) p
             (Some (bytes_of one_packet_file)) false).
    vm_compute. reflexivity. }
  pose (r := PcapFilter_readIP ipv4_reset p).
  pose (packet := match fst r with
                  | inr (pk, _, _) => pk
                  | inl _ => tcp_A_B
                  end).
  pose (vlans := match fst r with
                 | inr (_, vl, _) => vl
                 | inl _ => []
                 end).
  assert (Hread : PcapFilter_readIP ipv4_reset p = (inr (packet, vlans, 10500000), snd r))
    by (vm_compute; reflexivity).
  exists packet, vlans, (snd r). split; [exact Hread |].
  exact (proj2 (proj2
           (proj1 (filter_yields_timestamps ipv4_reset)
              no_args p (snd r) packet vlans 10500000 Hs Hread))).
Defined.

(** * Further properties of the reader *)

(** ** [readall] and the size of the file *)

(** Two reads in a row deliver the bytes of one read of both sizes, and
    leave the same input and the same file size. *)
Theorem readall_compose (n m : Z) (f : PcapFile) :
  0 < n -> 0 < m -> readable (n + m) f ->
  exists a b f1 f2 f3,
    readall n f = (inr a, f1) /\ readall m f1 = (inr b, f2) /\
    readall (n + m) f = (inr (a ++ b), f3) /\
    zlength a = n /\ zlength b = m /\
    remaining f2 = remaining f3 /\ _file_size f2 = _file_size f3 /\
    _error f2 = _error f /\ counters f2 = counters f.
Proof.
  intros Hn Hm (s & Hin & Hf & Hlen).
  pose proof (advance_in n f s Hin) as Hin1.
  assert (Hl1 : zlength (skipn (Z.to_nat n) (rest s)) = zlength (rest s) - n)
    by (apply zlength_skipn; lia).
  exists (firstn (Z.to_nat n) (rest s)),
         (firstn (Z.to_nat m) (skipn (Z.to_nat n) (rest s))),
         (advance n f), (advance m (advance n f)), (advance (n + m) f).
  rewrite (readall_success n f s Hin Hf) by lia.
  rewrite (readall_success m (advance n f) _ Hin1 eq_refl) by (cbn [rest]; lia).
  rewrite (readall_success (n + m) f s Hin Hf) by lia.
  cbn [rest].
  split; [reflexivity |]. split; [reflexivity |]. split.
  { f_equal. f_equal. replace (Z.to_nat (n + m)) with (Z.to_nat n + Z.to_nat m)%nat by lia.
    apply firstn_add. }
  split; [apply zlength_firstn; lia |].
  split; [apply zlength_firstn; lia |].
  unfold remaining, counters. rewrite (advance_in m (advance n f) _ Hin1).
  rewrite (advance_in (n + m) f s Hin). cbn [rest].
  split.
  { rewrite skipn_skipn. f_equal. lia. }
  unfold advance. rewrite Hin. cbn [gpos seekable rest].
  destruct (seekable s); cbn; rewrite ?Hin; cbn; repeat split; lia.
Qed.

Lemma readall_compose_witness :
  let f := reader_on idb_input in
  exists a b f1 f2 f3,
    readall 4 f = (inr a, f1) /\ readall 8 f1 = (inr b, f2) /\
    readall 12 f = (inr (a ++ b), f3) /\ remaining f2 = remaining f3.
Proof.
  intros f.
  assert (Hr : readable (4 + 8) f).
  { eexists. split; [reflexivity |]. split; [reflexivity |]. vm_compute. discriminate. }
  destruct (readall_compose 4 8 f ltac:(lia) ltac:(lia) Hr)
    as (a & b & f1 & f2 & f3 & H1 & H2 & H3 & _ & _ & H4 & _).
  exists a, b, f1, f2, f3. repeat split; assumption.
Defined.

Lemma positioned_error (size : Z) (f : PcapFile) :
  positioned size f -> positioned size (error f).
Proof.
  intros (s & Hin & Hs & Hr & Hf & Hp). exists s. repeat split; try assumption; apply Hr || apply Hp; assumption.
Qed.

Lemma keeps_position_ret {A} (a : A) : keeps_position (ret a).
Proof. intros size f H. exact H. Qed.

Lemma keeps_position_get {A} (g : PcapFile -> A) : keeps_position (get g).
Proof. intros size f H. exact H. Qed.

Lemma keeps_position_fail {A} (e : Error) : keeps_position (@fail A e).
Proof. intros size f H. now apply positioned_error. Qed.

Lemma keeps_position_modify (g : PcapFile -> PcapFile) :
  (forall f, _in (g f) = _in f /\ _file_size (g f) = _file_size f /\ _error (g f) = _error f) ->
  keeps_position (modify g).
Proof.
  intros Hg size f (s & Hin & Hs & Hr & Hf & Hp). destruct (Hg f) as (H1 & H2 & H3).
  exists s. simpl. rewrite H1, H2, H3. repeat split; try assumption; apply Hr || apply Hp; assumption.
Qed.

Lemma keeps_position_bind {A B} (m : M A) (k : A -> M B) :
  keeps_position m -> (forall a, keeps_position (k a)) -> keeps_position (bind m k).
Proof.
  intros Hm Hk size f H. unfold bind. specialize (Hm size f H).
  destruct (m f) as [[e | a] f1]; simpl in *.
  - now apply positioned_error.
  - now apply Hk.
Qed.

Lemma keeps_position_readall (n : Z) : keeps_position (readall n).
Proof.
  intros size f (s & Hin & Hs & Hr & Hf & Hp). unfold readall.
  destruct (n <=? 0) eqn:En; [exists s; repeat split; try assumption; apply Hr || apply Hp; assumption |].
  apply Z.leb_gt in En. rewrite Hin.
  destruct (failed s || (zlength (rest s) <? n)) eqn:Ef.
  - eexists. simpl. split; [reflexivity |]. simpl.
    repeat split; try assumption; try apply Hr; discriminate.
  - apply orb_false_iff in Ef. destruct Ef as [Ef Elen]. apply Z.ltb_ge in Elen.
    destruct (Hp Ef) as [Hfs Hpos]. rewrite Hs.
    eexists. simpl. split; [reflexivity |]. simpl.
    pose proof (zlength_nonneg (skipn (Z.to_nat n) (rest s))) as Hnn.
    assert (Hl : zlength (skipn (Z.to_nat n) (rest s)) = zlength (rest s) - n)
      by (apply zlength_skipn; lia).
    repeat split; try assumption; try discriminate; lia.
Qed.

Ltac keeps_position_tac :=
  repeat first
    [ apply keeps_position_ret
    | apply keeps_position_get
    | apply keeps_position_fail
    | apply keeps_position_readall
    | apply keeps_position_modify; intros ?; repeat split; reflexivity
    | apply keeps_position_bind; [| intros ?]
    | match goal with
      | |- keeps_position (if ?c then _ else _) => destruct c
      | |- keeps_position (match ?x with _ => _ end) => destruct x
      end ].

Lemma keeps_position_readNgBlockBody (block_type : Z) :
  keeps_position (readNgBlockBody block_type).
Proof. unfold readNgBlockBody, read_order_magic, read_block_rest. keeps_position_tac. Qed.

Lemma keeps_position_readHeader (magic : Z) : keeps_position (readHeader magic).
Proof.
  unfold readHeader.
  destruct (is_pcap_magic magic); [keeps_position_tac |].
  destruct (magic =? PCAPNG_MAGIC); [| keeps_position_tac].
  apply keeps_position_bind; [keeps_position_tac | intros _].
  apply keeps_position_bind; [apply keeps_position_readNgBlockBody | intros header].
  keeps_position_tac.
Qed.

Lemma keeps_position_read_block : keeps_position read_block.
Proof.
  intros size f. unfold read_block. destruct (_ng f); revert size f.
  - unfold read_ng_block.
    apply keeps_position_bind; [apply keeps_position_readall | intros type_field].
    apply keeps_position_bind; [apply keeps_position_get | intros be].
    unfold ng_block.
    destruct (_ =? PCAPNG_SECTION_HEADER).
    { apply keeps_position_bind; [apply keeps_position_readHeader | intros _].
      apply keeps_position_ret. }
    apply keeps_position_bind; [apply keeps_position_readNgBlockBody | intros buffer].
    unfold analyzeNgInterface. keeps_position_tac.
  - unfold read_pcap_record, pcap_record. keeps_position_tac.
Qed.

Section ReaderPosition.

Variable packet_reset : list byte -> option IPPacket.

(** The second half of a turn only touches the counters and timestamps. *)
Lemma process_captured_frame (c : Captured) (f : PcapFile) :
  let f' := snd (process_captured packet_reset c f) in
  _in f' = _in f /\ _error f' = _error f /\ _file_size f' = _file_size f /\
  _be f' = _be f /\ _ng f' = _ng f /\ _if f' = _if f /\
  _packet_count f' = _packet_count f.
Proof.
  unfold process_captured.
  destruct (cap_size c <? orig_size c); [simpl; repeat split |].
  unfold update_timestamps.
  destruct (0 <=? c_timestamp c);
    [destruct (_first_timestamp _ <? 0) |];
    match goal with
    | |- context [decapsulate ?i ?b ?bu ?s ?z] =>
        destruct (decapsulate i b bu s z) as [[start size] vlans]
    end;
    (destruct (0 <? size); [destruct (packet_reset _) |]); simpl; repeat split.
Qed.

Lemma positioned_process_captured (size : Z) (c : Captured) (f : PcapFile) :
  positioned size f -> positioned size (snd (process_captured packet_reset c f)).
Proof.
  intros (s & Hin & Hs & Hr & Hf & Hp).
  destruct (process_captured_frame c f) as (H1 & H2 & H3 & _).
  exists s. rewrite H1, H2, H3. repeat split; try assumption; apply Hr || apply Hp; assumption.
Qed.

Lemma positioned_readIP_turn (size : Z) (f : PcapFile) :
  positioned size f -> positioned size (snd (readIP_turn packet_reset f)).
Proof.
  intros H. unfold readIP_turn.
  pose proof (keeps_position_read_block size f H) as H1.
  destruct (read_block f) as [[e | [c |]] f1]; simpl in *; try assumption.
  now apply positioned_process_captured.
Qed.

Lemma positioned_readIP_loop (size : Z) (n : nat) (f f' : PcapFile) (r : Error + Found) :
  positioned size f -> readIP_loop packet_reset n f = Some (r, f') -> positioned size f'.
Proof.
  revert f. induction n as [| n IH]; intros f H; [discriminate |]. simpl.
  pose proof (positioned_readIP_turn size f H) as H1.
  destruct (readIP_turn packet_reset f) as [[e | [x |]] f1]; simpl in H1.
  - intros E. injection E as _ <-. exact H1.
  - intros E. injection E as _ <-. exact H1.
  - now apply IH.
Qed.

Lemma positioned_readIP (size : Z) (f : PcapFile) :
  positioned size f -> positioned size (snd (readIP packet_reset f)).
Proof.
  intros H. unfold readIP.
  destruct (_in f); [| exact H]. destruct (_error f); [exact H |].
  destruct (readIP_loop packet_reset (readIP_fuel f) f) as [[r f'] |] eqn:E.
  - simpl. eapply positioned_readIP_loop; eassumption.
  - simpl. now apply positioned_error.
Qed.

Lemma positioned_after_reads (size : Z) (n : nat) (f : PcapFile) :
  positioned size f -> positioned size (after_reads packet_reset n f).
Proof.
  revert f. induction n as [| n IH]; intros f H; [exact H |].
  simpl. apply IH. now apply positioned_readIP.
Qed.

End ReaderPosition.

Lemma positioned_open (content : list byte) (f0 f : PcapFile) :
  open (Some content) false f0 = (inr tt, f) -> positioned (zlength content) f.
Proof.
  unfold open. destruct (_in f0); [discriminate |].
  set (f1 := set_in _ (reset_counters f0)).
  assert (H1 : positioned (zlength content) f1).
  { eexists. split; [reflexivity |]. simpl.
    pose proof (zlength_nonneg content).
    repeat split; try discriminate; lia. }
  pose proof (keeps_position_readall 4 _ f1 H1) as H2.
  destruct (readall 4 f1) as [[e | magic] f2]; [discriminate |]. simpl in H2.
  pose proof (keeps_position_readHeader (GetUInt32BE magic 0) _ f2 H2) as H3.
  destruct (readHeader (GetUInt32BE magic 0) f2) as [[e | u] f3]; [discriminate |].
  simpl in H3. intros E. injection E as <-. exact H3.
Qed.

(** On a regular file, whose position can be told, [fileSize()] never
    exceeds the size of the file, and
    as long as the reader is not in error it is exactly the number of bytes
    consumed so far, after [open] and after any number of [readIP]. *)
Theorem file_size_tracks_input (packet_reset : list byte -> option IPPacket)
    (content : list byte) (f0 f : PcapFile) (n : nat) :
  open (Some content) false f0 = (inr tt, f) ->
  let g := after_reads packet_reset n f in
  0 <= _file_size g <= zlength content /\
  (_error g = false -> _file_size g + zlength (remaining g) = zlength content).
Proof.
  intros Hopen g.
  pose proof (positioned_after_reads packet_reset _ n f (positioned_open _ _ _ Hopen))
    as (s & Hin & Hs & Hr & Hf & Hp).
  fold g in Hin, Hr, Hf, Hp.
  split; [exact Hr |]. intros He.
  destruct (failed s) eqn:E.
  - rewrite (Hf eq_refl) in He. discriminate.
  - destruct (Hp eq_refl) as [H1 H2]. unfold remaining. rewrite Hin. lia.
Qed.

Lemma file_size_tracks_input_witness :
  let g := after_reads ipv4_reset 1 (snd (opened unordered_file)) in
  _file_size g = 82 /\ zlength (remaining g) = 58.
Proof.
  intros g.
  assert (Hopen : open (Some (bytes_of unordered_file)) false PcapFile_default
                  = (inr tt, snd (opened unordered_file))) by (vm_compute; reflexivity).
  destruct (file_size_tracks_input ipv4_reset _ _ _ 1%nat Hopen) as [_ H].
  fold g in H.
  assert (He : _error g = false) by (vm_compute; reflexivity).
  assert (Hrem : zlength (remaining g) = 58) by (vm_compute; reflexivity).
  specialize (H He). rewrite Hrem in H.
  assert (Hlen : zlength (bytes_of unordered_file) = 140) by (vm_compute; reflexivity).
  rewrite Hlen in H. split; [lia | exact Hrem].
Defined.

(** ** The packet counters *)

Lemma wrap64_small (z : Z) : 0 <= z < 2 ^ 64 -> wrap64 z = z.
Proof. intros H. unfold wrap64. now apply Z.mod_small. Qed.

Lemma keeps_count_analyzeNgInterface (data : list byte) :
  keeps_count (analyzeNgInterface data).
Proof. unfold analyzeNgInterface. keeps_count_tac. Qed.

Lemma counts_spec_none {A} (m : M A) : keeps_count m -> counts_spec (m ;;; ret None).
Proof.
  intros Hm f. unfold bind, ret. specialize (Hm f).
  destruct (m f) as [[e | a] f1]; simpl in *; [now left | exact Hm].
Qed.

Lemma counts_spec_bind {A} (m : M A) (k : A -> M (option Captured)) :
  keeps_count m -> (forall a, counts_spec (k a)) -> counts_spec (bind m k).
Proof.
  intros Hm Hk f. unfold bind. specialize (Hm f).
  destruct (m f) as [[e | a] f1]; simpl in *; [now left |].
  specialize (Hk a f1). rewrite <- Hm. exact Hk.
Qed.

Lemma counts_spec_ng_block (type : Z) : counts_spec (ng_block type).
Proof.
  unfold ng_block.
  destruct (_ =? PCAPNG_SECTION_HEADER);
    [apply counts_spec_none, keeps_count_readHeader |].
  apply counts_spec_bind; [apply keeps_count_readNgBlockBody | intros buffer].
  destruct (_ =? PCAPNG_INTERFACE_DESC);
    [apply counts_spec_none, keeps_count_analyzeNgInterface |].
  destruct (is_packet_block _ && _); [intros f; reflexivity |].
  destruct (_ && _); intros f; reflexivity.
Qed.

Lemma counts_spec_read_pcap_record : counts_spec read_pcap_record.
Proof.
  intros f. unfold read_pcap_record, pcap_record, bind, modify, get. cbn beta iota.
  pose proof (keeps_count_readall 16 (incr_packet_count f)) as H16.
  destruct (readall 16 (incr_packet_count f)) as [[e | header] f1]; simpl in H16.
  - simpl. right. exact H16.
  - cbn [fst snd].
    match goal with
    | |- context [readall ?n f1] =>
        pose proof (keeps_count_readall n f1) as Hn; destruct (readall n f1) as [[e | b] f2]
    end; simpl in *.
    + right. congruence.
    + congruence.
Qed.

Lemma counts_spec_read_block : counts_spec read_block.
Proof.
  intros f. unfold read_block. destruct (_ng f).
  - revert f. unfold read_ng_block.
    apply counts_spec_bind; [apply keeps_count_readall | intros type_field].
    apply counts_spec_bind; [apply keeps_count_get | intros be].
    apply counts_spec_ng_block.
  - apply counts_spec_read_pcap_record.
Qed.

Section ReaderCounters.

Variable packet_reset : list byte -> option IPPacket.

Lemma process_captured_ip_count (c : Captured) (f : PcapFile) :
  let f' := snd (process_captured packet_reset c f) in
  _ip_packet_count f' = _ip_packet_count f \/
  _ip_packet_count f' = wrap64 (_ip_packet_count f + 1).
Proof.
  unfold process_captured.
  destruct (cap_size c <? orig_size c); [simpl; now left |].
  unfold update_timestamps.
  destruct (0 <=? c_timestamp c);
    [destruct (_first_timestamp _ <? 0) |];
    match goal with
    | |- context [decapsulate ?i ?b ?bu ?s ?z] =>
        destruct (decapsulate i b bu s z) as [[start size] vlans]
    end;
    (destruct (0 <? size); [destruct (packet_reset _) |]); simpl; auto.
Qed.

Lemma counted_readIP_turn (bound : Z) (f : PcapFile) :
  bound < 2 ^ 64 -> _error f = false -> counted bound f ->
  counted bound (snd (readIP_turn packet_reset f)).
Proof.
  intros Hb He [[Hip Hpc] Hbound]. rewrite He in Hbound.
  pose proof (zlength_nonneg (remaining f)) as Hrem.
  assert (Hw : wrap64 (_packet_count f + 1) = _packet_count f + 1)
    by (apply wrap64_small; lia).
  unfold readIP_turn, counted.
  pose proof (regular_read_block f) as (Herr & Hlen & _ & Hc).
  pose proof (counts_spec_read_block f) as Hcount.
  pose proof (read_block_progress f) as Hprog.
  destruct (read_block f) as [[e | [c |]] f1]; simpl in Herr, Hlen, Hc, Hcount.
  - simpl. unfold counters in Hc. injection Hc as Hipc _ _ _ _. rewrite Herr, Hipc.
    unfold zlength in *. destruct Hcount as [-> | ->]; rewrite ?Hw; lia.
  - destruct (process_captured_frame packet_reset c f1) as (Hin & Herr2 & _ & _ & _ & _ & Hpc2).
    pose proof (process_captured_ip_count c f1) as Hip2.
    specialize (Hprog f1 (Some c) eq_refl).
    unfold counters in Hc. injection Hc as Hipc _ _ _ _.
    assert (Hrem2 : remaining (snd (process_captured packet_reset c f1)) = remaining f1)
      by (unfold remaining; now rewrite Hin).
    rewrite Hrem2, Herr2, Hpc2, Herr, He, Hcount, Hw.
    assert (Hw2 : wrap64 (_ip_packet_count f + 1) = _ip_packet_count f + 1)
      by (apply wrap64_small; lia).
    rewrite Hipc in Hip2. unfold zlength in *.
    destruct Hip2 as [-> | ->]; rewrite ?Hw2; lia.
  - simpl. specialize (Hprog f1 None eq_refl).
    unfold counters in Hc. injection Hc as Hipc _ _ _ _.
    rewrite Herr, He, Hipc, Hcount. unfold zlength in *. lia.
Qed.

Lemma counted_readIP_loop (bound : Z) (n : nat) (f f' : PcapFile) (r : Error + Found) :
  bound < 2 ^ 64 -> _error f = false -> counted bound f ->
  readIP_loop packet_reset n f = Some (r, f') -> counted bound f'.
Proof.
  intros Hb. revert f. induction n as [| n IH]; intros f He H; [discriminate |]. simpl.
  pose proof (counted_readIP_turn bound f Hb He H) as H1.
  pose proof (readIP_turn_spec packet_reset f) as Hspec.
  destruct (readIP_turn packet_reset f) as [[e | [x |]] f1]; simpl in H1.
  - intros E. injection E as _ <-. exact H1.
  - intros E. injection E as _ <-. exact H1.
  - apply IH; [| exact H1]. destruct Hspec as (_ & -> & _). exact He.
Qed.

Lemma counted_readIP (bound : Z) (f : PcapFile) :
  bound < 2 ^ 64 -> counted bound f -> counted bound (snd (readIP packet_reset f)).
Proof.
  intros Hb H. unfold readIP.
  destruct (_in f); [| exact H]. destruct (_error f) eqn:He; [exact H |].
  destruct (readIP_loop packet_reset (readIP_fuel f) f) as [[r f'] |] eqn:E.
  - simpl. eapply counted_readIP_loop; eassumption.
  - exfalso. revert E. apply readIP_loop_total. unfold readIP_fuel. lia.
Qed.

Lemma counted_after_reads (bound : Z) (n : nat) (f : PcapFile) :
  bound < 2 ^ 64 -> counted bound f -> counted bound (after_reads packet_reset n f).
Proof.
  intros Hb. revert f. induction n as [| n IH]; intros f H; [exact H |].
  simpl. apply IH. now apply counted_readIP.
Qed.

End ReaderCounters.

Lemma open_remaining (content : list byte) (piped : bool) (f0 f : PcapFile) :
  open (Some content) piped f0 = (inr tt, f) ->
  zlength (remaining f) + 4 <= zlength content /\ _error f = false.
Proof.
  intros Hopen.
  assert (Hclosed : isOpen f0 = false).
  { unfold open in Hopen. unfold isOpen. destruct (_in f0); [discriminate | reflexivity]. }
  split; [| now apply (open_resets_error _ _ _ _ Hclosed Hopen)].
  revert Hopen. unfold open. destruct (_in f0); [discriminate |].
  set (f1 := set_in _ (reset_counters f0)).
  pose proof (readall_progress 4 f1) as Hp.
  destruct (readall 4 f1) as [[e | magic] f2] eqn:Hr; [discriminate |].
  pose proof (regular_readHeader (GetUInt32BE magic 0) f2) as (_ & Hl & _).
  destruct (readHeader (GetUInt32BE magic 0) f2) as [[e | u] f3]; [discriminate |].
  simpl in Hl. intros E. injection E as <-.
  assert (Hr4 : zlength (remaining f2) + 4 = zlength content).
  { set (s0 := mkIstream content 0 (negb piped) false O) in *.
    assert (Hin1 : _in f1 = Some s0) by reflexivity.
    destruct (Z.ltb_spec (zlength content) 4) as [Hshort | Hlong].
    - pose proof (readall_short 4 f1 s0 Hin1 Hshort) as Hs. rewrite Hr in Hs. discriminate.
    - rewrite (readall_success 4 f1 s0 Hin1 eq_refl) in Hr by (cbn [rest s0]; lia).
      injection Hr as _ <-. unfold remaining. rewrite (advance_in 4 f1 s0 Hin1).
      cbn [rest s0]. rewrite zlength_skipn; lia. }
  unfold zlength in *. lia.
Qed.

(** The number of IP packets never exceeds the number of captured packets,
    which never exceeds the size of the file, after [open] and after any
    number of [readIP], for a file of less than 2^64 bytes. *)
Theorem packet_counts_ordered (packet_reset : list byte -> option IPPacket)
    (content : list byte) (piped : bool) (f0 f : PcapFile) (n : nat) :
  zlength content < 2 ^ 64 ->
  open (Some content) piped f0 = (inr tt, f) ->
  let g := after_reads packet_reset n f in
  0 <= _ip_packet_count g <= _packet_count g /\ _packet_count g <= zlength content.
Proof.
  intros Hsize Hopen g.
  destruct (open_remaining _ _ _ _ Hopen) as [Hrem He].
  destruct (open_counters _ _ _ _ Hopen) as [Hpc Hc].
  unfold counters in Hc. injection Hc as Hipc _ _ _ _.
  assert (H0 : counted (zlength content) f).
  { unfold counted. rewrite Hpc, Hipc, He. lia. }
  pose proof (counted_after_reads packet_reset _ n f Hsize H0) as [H1 H2].
  fold g in H1, H2. split; [exact H1 |].
  pose proof (zlength_nonneg (remaining g)). destruct (_error g); lia.
Qed.

Lemma packet_counts_ordered_witness :
  let g := after_reads ipv4_reset 3 (snd (opened truncated_file)) in
  0 <= _ip_packet_count g <= _packet_count g /\ _packet_count g <= 598.
Proof.
  intros g.
  assert (Hopen : open (Some (bytes_of truncated_file)) false PcapFile_default
                  = (inr tt, snd (opened truncated_file))) by (vm_compute; reflexivity).
  assert (Hlen : zlength (bytes_of truncated_file) = 598) by (vm_compute; reflexivity).
  assert (Hsize : zlength (bytes_of truncated_file) < 2 ^ 64) by (rewrite Hlen; reflexivity).
  pose proof (packet_counts_ordered ipv4_reset _ false _ _ 3%nat Hsize Hopen) as H.
  rewrite Hlen in H. exact H.
Defined.


(** ** Decapsulation *)

Lemma land_0x0FFF_range (z : Z) : 0 <= Z.land z 0x0FFF < 4096.
Proof.
  change 0x0FFF with (Z.ones 12). rewrite Z.land_ones by lia.
  change (2 ^ 12) with 4096. apply Z.mod_pos_bound. lia.
Qed.

Lemma zlength_cons {A} (x : A) (l : list A) : zlength (x :: l) = zlength l + 1.
Proof. unfold zlength. simpl length. lia. Qed.

(** The loop on VLAN tags moves forward inside the window it is given, and
    pushes one 12-bit id for every tag of at least 4 bytes it steps over. *)
Lemma vlan_loop_window (fuel : nat) (buffer : list byte) :
  forall (ether_type start size : Z) (vlans : VLANIdStack),
    0 <= size ->
    exists ether_type' start' size' extra,
      vlan_loop fuel buffer ether_type start size vlans
        = (ether_type', start', size', vlans ++ extra) /\
      start <= start' /\ 0 <= size' /\ start' + size' <= start + size /\
      Forall vlan_id_ok extra /\ 4 * zlength extra <= start' - start.
Proof.
  induction fuel as [| fuel IH]; intros ether_type start size vlans Hs.
  - exists ether_type, start, size, []. rewrite app_nil_r. cbn [vlan_loop].
    repeat split; try lia; try constructor. unfold zlength. simpl. lia.
  - cbn [vlan_loop].
    destruct (negb _ && negb _ && (0 <? size)).
    2:{ exists ether_type, start, size, []. rewrite app_nil_r.
        repeat split; try lia; try constructor. unfold zlength. simpl. lia. }
    destruct ((_ || _) && (4 <=? size)) eqn:E1.
    + apply andb_prop in E1 as [_ E1]. apply Z.leb_le in E1.
      match goal with
      | |- context [vlan_loop fuel buffer ?e ?s ?z (vlans ++ [?v])] =>
          destruct (IH e s z (vlans ++ [v]) ltac:(lia))
            as (e1 & s1 & z1 & extra & Heq & H1 & H2 & H3 & H4 & H5);
          exists e1, s1, z1, (v :: extra)
      end.
      rewrite Heq, <- app_assoc. rewrite zlength_cons.
      repeat split; try lia.
      constructor; [apply land_0x0FFF_range | exact H4].
    + destruct ((ether_type =? ETHERTYPE_802_1AH) && (18 <=? size)) eqn:E2.
      * apply andb_prop in E2 as [_ E2]. apply Z.leb_le in E2.
        match goal with
        | |- context [vlan_loop fuel buffer ?e ?s ?z (vlans ++ [?v])] =>
            destruct (IH e s z (vlans ++ [v]) ltac:(lia))
              as (e1 & s1 & z1 & extra & Heq & H1 & H2 & H3 & H4 & H5);
            exists e1, s1, z1, (v :: extra)
        end.
        rewrite Heq, <- app_assoc. rewrite zlength_cons.
        repeat split; try lia.
        constructor; [apply land_0x0FFF_range | exact H4].
      * destruct (IH ether_type start 0 vlans ltac:(lia))
          as (e1 & s1 & z1 & extra & Heq & H1 & H2 & H3 & H4 & H5).
        exists e1, s1, z1, extra. rewrite Heq. repeat split; try lia. exact H4.
Qed.

Lemma decapsulate_window (ifd : InterfaceDesc) (be : bool) (buffer : list byte)
    (start0 size0 : Z) :
  0 <= size0 -> 0 <= fcs_size ifd ->
  exists start size vlans,
    decapsulate ifd be buffer start0 size0 = (start, size, vlans) /\
    start0 <= start /\ 0 <= size /\ start + size <= start0 + size0 /\
    Forall vlan_id_ok vlans /\ 4 * zlength vlans <= start - start0.
Proof.
  intros Hs Hfcs. unfold decapsulate.
  assert (Hnil : zlength (@nil VLANId) = 0) by reflexivity.
  destruct (is_bsd_ip _) eqn:Eb.
  - exists (start0 + 4), (size0 - 4), []. rewrite Hnil.
    unfold bsd_protocol in Eb. destruct (4 <=? size0) eqn:E4; [| discriminate Eb].
    apply Z.leb_le in E4. repeat split; try lia. constructor.
  - destruct (_ && (ETHER_HEADER_SIZE + fcs_size ifd <? size0)) eqn:Ee.
    + apply andb_prop in Ee as [_ Ee]. apply Z.ltb_lt in Ee.
      unfold ethernet_decap, vlan_unwrap. unfold ETHER_HEADER_SIZE in *.
      match goal with
      | |- context [vlan_loop ?n buffer ?e ?s ?z []] =>
          destruct (vlan_loop_window n buffer e s z [] ltac:(lia))
            as (e1 & s1 & z1 & extra & Heq & H1 & H2 & H3 & H4 & H5)
      end.
      rewrite Heq. cbn [app]. exists s1, z1, extra. repeat split; try lia. exact H4.
    + destruct ((_ =? LINKTYPE_RAW) && (1 <=? size0));
        [destruct (negb _ && negb _) |].
      * exists start0, 0, []. rewrite Hnil. repeat split; try lia. constructor.
      * exists start0, size0, []. rewrite Hnil. repeat split; try lia. constructor.
      * exists start0, 0, []. rewrite Hnil. repeat split; try lia. constructor.
Qed.

(** Whatever the link type and the bytes, the datagram that the
    decapsulation locates lies within the captured packet, and every VLAN
    tag that is reported has a 12-bit id and has taken at least 4 bytes of
    the packet. *)
Theorem decapsulate_inside_capture (ifd : InterfaceDesc) (be : bool)
    (buffer : list byte) (start0 size0 : Z) :
  0 <= size0 -> 0 <= fcs_size ifd ->
  let '(start, size, vlans) := decapsulate ifd be buffer start0 size0 in
  start0 <= start /\ 0 <= size /\ start + size <= start0 + size0 /\
  Forall vlan_id_ok vlans /\ 4 * zlength vlans <= start - start0.
Proof.
  intros Hs Hfcs.
  destruct (decapsulate_window ifd be buffer start0 size0 Hs Hfcs)
    as (start & size & vlans & -> & H).
  exact H.
Qed.

Lemma decapsulate_inside_capture_witness :
  let '(start, size, vlans) :=
    decapsulate (mkInterfaceDesc LINKTYPE_ETHERNET 4 micro_den 0) true
                (bytes_of nested_vlan_frame) 0 (zlength nested_vlan_frame) in
  0 <= start /\ 0 <= size /\ start + size <= 0 + zlength nested_vlan_frame /\
  Forall vlan_id_ok vlans /\ 4 * zlength vlans <= start - 0.
Proof.
  apply (decapsulate_inside_capture (mkInterfaceDesc LINKTYPE_ETHERNET 4 micro_den 0) true
           (bytes_of nested_vlan_frame) 0 (zlength nested_vlan_frame)).
  - vm_compute. discriminate.
  - simpl. lia.
Defined.


(** ** Invariants of the reader *)

Section Invariants.

(** An invariant that does not depend on the input stream, the recorded
    position or the error indicator. *)
Variable P : PcapFile -> Prop.
Hypothesis P_error : forall f, P f -> P (error f).
Hypothesis P_in : forall s f, P f -> P (set_in s f).
Hypothesis P_file_size : forall z f, P f -> P (set_file_size z f).

Lemma preserves_ret {A} (a : A) : preserves P (ret a).
Proof. intros f H. exact H. Qed.

Lemma preserves_get {A} (g : PcapFile -> A) : preserves P (get g).
Proof. intros f H. exact H. Qed.

Lemma preserves_fail {A} (e : Error) : preserves P (@fail A e).
Proof. intros f H. now apply P_error. Qed.

Lemma preserves_modify (g : PcapFile -> PcapFile) :
  (forall f, P f -> P (g f)) -> preserves P (modify g).
Proof. intros Hg f H. now apply Hg. Qed.

Lemma preserves_bind {A B} (m : M A) (k : A -> M B) :
  preserves P m -> (forall a, preserves P (k a)) -> preserves P (bind m k).
Proof.
  intros Hm Hk f H. unfold bind. specialize (Hm f H).
  destruct (m f) as [[e | a] f1]; simpl in *; [now apply P_error | now apply Hk].
Qed.

Lemma preserves_readall (n : Z) : preserves P (readall n).
Proof.
  intros f H. unfold readall. destruct (n <=? 0); [exact H |].
  destruct (_in f) as [s |]; [| now apply P_error].
  destruct (failed s || (zlength (rest s) <? n)); simpl.
  - now apply P_error, P_in.
  - destruct (seekable s); [apply P_file_size |]; now apply P_in.
Qed.

End Invariants.

Lemma wf_pcap_interface (old : list InterfaceDesc) (magic : Z) (be : bool)
    (header : list byte) :
  wf_interface (pcap_interface old magic be header).
Proof.
  unfold wf_interface, pcap_interface, pcap_fcs_size. cbn [fcs_size].
  destruct (_ =? 0); [lia |].
  destruct (fcs_field_div (byte_at header 16) (byte_at_range header 16)) as [-> H]. lia.
Qed.

Lemma ng_options_wf (fuel : nat) (be : bool) (data : list byte) (size : Z) :
  forall (pos : Z) (ifd ifd' : InterfaceDesc),
    wf_interface ifd -> ng_options fuel be data size pos ifd = inr ifd' ->
    wf_interface ifd'.
Proof.
  induction fuel as [| fuel IH]; intros pos ifd ifd' Hwf; cbn [ng_options].
  - intros E. injection E as <-. exact Hwf.
  - destruct (pos + 4 <=? size); [| intros E; injection E as <-; exact Hwf].
    destruct (size <? _); [discriminate |].
    apply IH.
    destruct (_ && _); [| destruct (_ && _); [| destruct (_ && _)]];
      try exact Hwf.
    unfold wf_interface. cbn [fcs_size].
    match goal with |- context [byte_at ?b ?i] => pose proof (byte_at_range b i) end. lia.
Qed.

Ltac preserves_tac :=
  repeat first
    [ apply preserves_ret
    | apply preserves_get
    | apply preserves_fail; intros; assumption
    | apply preserves_readall; intros; assumption
    | apply preserves_modify; intros; assumption
    | apply preserves_bind; [intros; assumption | | intros ?]
    | match goal with
      | |- preserves _ (if ?c then _ else _) => destruct c
      | |- preserves _ (match ?x with _ => _ end) => destruct x
      end ].

Lemma interfaces_wf_readNgBlockBody (block_type : Z) :
  preserves interfaces_wf (readNgBlockBody block_type).
Proof. unfold readNgBlockBody, read_order_magic, read_block_rest. preserves_tac. Qed.

Lemma interfaces_wf_readHeader (magic : Z) : preserves interfaces_wf (readHeader magic).
Proof.
  unfold readHeader.
  destruct (is_pcap_magic magic).
  - apply preserves_bind; [intros; assumption | preserves_tac | intros header].
    apply preserves_modify. intros f _. constructor; [apply wf_pcap_interface | constructor].
  - destruct (magic =? PCAPNG_MAGIC); [| preserves_tac].
    apply preserves_bind; [intros; assumption | preserves_tac | intros _].
    apply preserves_bind;
      [intros; assumption | apply interfaces_wf_readNgBlockBody | intros header].
    destruct (zlength header <? 16); [preserves_tac |].
    apply preserves_modify. intros f _. constructor.
Qed.

Lemma interfaces_wf_analyzeNgInterface (data : list byte) :
  preserves interfaces_wf (analyzeNgInterface data).
Proof.
  unfold analyzeNgInterface.
  destruct (zlength data <? 8); [preserves_tac |].
  apply preserves_bind; [intros; assumption | preserves_tac | intros be].
  destruct (ng_options _ _ _ _ _ _) as [e | ifd'] eqn:E; [preserves_tac |].
  apply preserves_modify. intros f H. unfold interfaces_wf. cbn.
  apply Forall_app. split; [exact H |].
  constructor; [| constructor].
  refine (ng_options_wf _ _ _ _ _ _ _ _ E). unfold wf_interface. cbn [fcs_size]. lia.
Qed.

Lemma interfaces_wf_read_block : preserves interfaces_wf read_block.
Proof.
  intros f. unfold read_block. destruct (_ng f); revert f.
  - unfold read_ng_block.
    apply preserves_bind; [intros; assumption | preserves_tac | intros type_field].
    apply preserves_bind; [intros; assumption | preserves_tac | intros be].
    unfold ng_block.
    destruct (_ =? PCAPNG_SECTION_HEADER).
    { apply preserves_bind;
        [intros; assumption | apply interfaces_wf_readHeader | intros _].
      preserves_tac. }
    apply preserves_bind;
      [intros; assumption | apply interfaces_wf_readNgBlockBody | intros buffer].
    destruct (_ =? PCAPNG_INTERFACE_DESC).
    { apply preserves_bind;
        [intros; assumption | apply interfaces_wf_analyzeNgInterface | intros _].
      preserves_tac. }
    preserves_tac.
  - unfold read_pcap_record, pcap_record. preserves_tac.
Qed.

(** [open] replaces the interfaces of the reader: one for a pcap file,
    none yet for a pcap-ng file. *)
Lemma interfaces_wf_open (source : option (list byte)) (piped : bool) (f0 f : PcapFile) :
  open source piped f0 = (inr tt, f) -> interfaces_wf f.
Proof.
  unfold open. destruct (_in f0); [discriminate |].
  destruct source as [content |]; [| discriminate].
  destruct (readall 4 _) as [[e | magic] f2]; [discriminate |].
  unfold readHeader.
  destruct (is_pcap_magic _).
  - unfold bind, modify. destruct (readall 20 f2) as [[e | header] f3]; [discriminate |].
    intros E. injection E as <-. constructor; [apply wf_pcap_interface | constructor].
  - destruct (_ =? PCAPNG_MAGIC); [| discriminate].
    unfold bind at 1. unfold modify at 1. unfold bind at 1.
    destruct (readNgBlockBody _ _) as [[e | header] f3]; [discriminate |].
    destruct (zlength header <? 16); [discriminate |].
    unfold modify. intros E. injection E as <-. constructor.
Qed.

Section ReaderInterfaces.

Variable packet_reset : list byte -> option IPPacket.

Lemma interfaces_wf_readIP_turn (f : PcapFile) :
  interfaces_wf f -> interfaces_wf (snd (readIP_turn packet_reset f)).
Proof.
  intros H. unfold readIP_turn.
  pose proof (interfaces_wf_read_block f H) as H1.
  destruct (read_block f) as [[e | [c |]] f1]; simpl in *; try assumption.
  destruct (process_captured_frame packet_reset c f1) as (_ & _ & _ & _ & _ & Hif & _).
  unfold interfaces_wf. rewrite Hif. exact H1.
Qed.

Lemma interfaces_wf_readIP_loop (n : nat) (f f' : PcapFile) (r : Error + Found) :
  interfaces_wf f -> readIP_loop packet_reset n f = Some (r, f') -> interfaces_wf f'.
Proof.
  revert f. induction n as [| n IH]; intros f H; [discriminate |]. simpl.
  pose proof (interfaces_wf_readIP_turn f H) as H1.
  destruct (readIP_turn packet_reset f) as [[e | [x |]] f1]; simpl in H1.
  - intros E. injection E as _ <-. exact H1.
  - intros E. injection E as _ <-. exact H1.
  - now apply IH.
Qed.

Lemma interfaces_wf_readIP (f : PcapFile) :
  interfaces_wf f -> interfaces_wf (snd (readIP packet_reset f)).
Proof.
  intros H. unfold readIP.
  destruct (_in f); [| exact H]. destruct (_error f); [exact H |].
  destruct (readIP_loop packet_reset (readIP_fuel f) f) as [[r f'] |] eqn:E.
  - simpl. eapply interfaces_wf_readIP_loop; eassumption.
  - exact H.
Qed.

Lemma interfaces_wf_after_reads (n : nat) (f : PcapFile) :
  interfaces_wf f -> interfaces_wf (after_reads packet_reset n f).
Proof.
  revert f. induction n as [| n IH]; intros f H; [exact H |].
  simpl. apply IH. now apply interfaces_wf_readIP.
Qed.

End ReaderInterfaces.


(** ** From the block to the datagram *)

Lemma readall_length (n : Z) (f f' : PcapFile) (b : list byte) :
  readall n f = (inr b, f') -> zlength b = Z.max 0 n.
Proof.
  unfold readall. destruct (n <=? 0) eqn:En.
  - apply Z.leb_le in En. intros E. injection E as <- _. unfold zlength. simpl. lia.
  - apply Z.leb_gt in En. destruct (_in f) as [s |]; [| discriminate].
    destruct (failed s); [discriminate |]. cbn [orb].
    destruct (zlength (rest s) <? n) eqn:El; [discriminate |]. apply Z.ltb_ge in El.
    intros E. injection E as <- _. rewrite zlength_firstn; lia.
Qed.

(** The captured packet that the first half of a turn locates lies inside
    the block or record that was read. *)
Lemma ng_block_within (type : Z) (f f' : PcapFile) (c : Captured) :
  ng_block type f = (inr (Some c), f') ->
  within (c_buffer c) (cap_start c) (cap_size c).
Proof.
  unfold ng_block.
  destruct (_ =? PCAPNG_SECTION_HEADER).
  { unfold bind, ret. destruct (readHeader type f) as [[e | u] f1]; discriminate. }
  unfold bind at 1. destruct (readNgBlockBody type f) as [[e | buffer] f1]; [discriminate |].
  destruct (_ =? PCAPNG_INTERFACE_DESC).
  { unfold bind, ret. destruct (analyzeNgInterface buffer f1) as [[e | u] f2]; discriminate. }
  destruct (is_packet_block _ && (20 <=? zlength buffer)) eqn:E1.
  { apply andb_prop in E1 as [_ E1]. apply Z.leb_le in E1.
    unfold bind, modify, get, ret. intros E. injection E as <- _.
    unfold within. cbn [c_buffer cap_start cap_size].
    pose proof (get32_range (_be f1) buffer 12). lia. }
  destruct (_ && (4 <=? zlength buffer)) eqn:E2; [| discriminate].
  apply andb_prop in E2 as [_ E2]. apply Z.leb_le in E2.
  unfold bind, modify, get, ret. intros E. injection E as <- _.
  unfold within. cbn [c_buffer cap_start cap_size].
  pose proof (get32_range (_be f1) buffer 0). lia.
Qed.

Lemma read_block_within (f f' : PcapFile) (c : Captured) :
  read_block f = (inr (Some c), f') ->
  within (c_buffer c) (cap_start c) (cap_size c).
Proof.
  unfold read_block. destruct (_ng f).
  - unfold read_ng_block, bind at 1.
    destruct (readall 4 f) as [[e | type_field] f1]; [discriminate |].
    unfold bind, get. apply ng_block_within.
  - unfold read_pcap_record, pcap_record, bind, modify, get, ret.
    destruct (readall 16 _) as [[e | header] f1]; [discriminate |].
    destruct (readall _ f1) as [[e | buffer] f2] eqn:Er; [discriminate |].
    apply readall_length in Er.
    intros E. injection E as <- _.
    unfold within. cbn [c_buffer cap_start cap_size].
    pose proof (get32_range (_be f1) header 8). lia.
Qed.

Lemma interface_of_wf (f : PcapFile) (idx : Z) :
  interfaces_wf f -> wf_interface (interface_of f idx).
Proof.
  intros H. assert (Hd : wf_interface InterfaceDesc_default) by (unfold wf_interface; simpl; lia).
  unfold interface_of. destruct (idx <? _); [| exact Hd].
  destruct (nth_in_or_default (Z.to_nat idx) (_if f) InterfaceDesc_default) as [Hin | ->];
    [| exact Hd].
  unfold interfaces_wf in H. rewrite Forall_forall in H. now apply H.
Qed.

Section Delivery.

Variable packet_reset : list byte -> option IPPacket.

(** A packet is delivered only as the parse of the non-empty datagram that
    the decapsulation has located. *)
Lemma process_captured_delivers (c : Captured) (f f' : PcapFile)
    (packet : IPPacket) (vlans : VLANIdStack) (timestamp : Z) :
  process_captured packet_reset c f = (inr (Some (packet, vlans, timestamp)), f') ->
  exists start size,
    decapsulate (interface_of f (if_index c)) (_be f) (c_buffer c) (cap_start c) (cap_size c)
      = (start, size, vlans) /\
    0 < size /\ packet_reset (sub_bytes (c_buffer c) start size) = Some packet.
Proof.
  unfold process_captured.
  destruct (cap_size c <? orig_size c); [discriminate |].
  unfold update_timestamps.
  destruct (0 <=? c_timestamp c);
    [destruct (_first_timestamp _ <? 0) |];
    match goal with
    | |- context [decapsulate ?i ?b ?bu ?s ?z] =>
        destruct (decapsulate i b bu s z) as [[start size] vlans'] eqn:Ed
    end;
    (destruct (0 <? size) eqn:Es; [| discriminate]);
    (destruct (packet_reset _) as [p |] eqn:Ep; [| discriminate]);
    intros E; injection E as <- <- _ _; apply Z.ltb_lt in Es;
    exists start, size; (split; [exact Ed | split; [exact Es | exact Ep]]).
Qed.

End Delivery.

(** After [open] and any number of [readIP], a packet that a turn of the
    loop delivers is the parse of a non-empty run of bytes that lies inside
    the captured packet, itself inside the block or record just read; the
    VLAN ids delivered with it are 12-bit values. *)
Theorem delivered_from_block (packet_reset : list byte -> option IPPacket)
    (source : option (list byte)) (piped : bool) (f0 f g1 g2 : PcapFile) (n : nat)
    (c : Captured) (packet : IPPacket) (vlans : VLANIdStack) (timestamp : Z) :
  open source piped f0 = (inr tt, f) ->
  read_block (after_reads packet_reset n f) = (inr (Some c), g1) ->
  process_captured packet_reset c g1 = (inr (Some (packet, vlans, timestamp)), g2) ->
  exists start size,
    packet_reset (sub_bytes (c_buffer c) start size) = Some packet /\
    0 < size /\
    cap_start c <= start /\ start + size <= cap_start c + cap_size c /\
    within (c_buffer c) start size /\
    Forall vlan_id_ok vlans.
Proof.
  intros Hopen Hrb Hpc.
  pose proof (interfaces_wf_after_reads packet_reset n f (interfaces_wf_open _ _ _ _ Hopen))
    as Hwf.
  pose proof (interfaces_wf_read_block _ Hwf) as Hwf1. rewrite Hrb in Hwf1. simpl in Hwf1.
  destruct (read_block_within _ _ _ Hrb) as (Hstart & Hsize & Hend).
  destruct (process_captured_delivers packet_reset _ _ _ _ _ _ Hpc)
    as (start & size & Hd & Hpos & Hparse).
  destruct (interface_of_wf g1 (if_index c) Hwf1) as [Hfcs _].
  destruct (decapsulate_window (interface_of g1 (if_index c)) (_be g1) (c_buffer c)
              (cap_start c) (cap_size c) Hsize Hfcs)
    as (start' & size' & vlans' & Hd' & H1 & H2 & H3 & H4 & _).
  rewrite Hd in Hd'. injection Hd' as <- <- <-.
  exists start, size. unfold within. repeat split; try assumption; lia.
Qed.

Lemma delivered_from_block_witness :
  exists start size,
    ipv4_reset (sub_bytes (bytes_of udp_frame) start size)
      <> None /\
    0 < size /\ start + size <= 42.
Proof.
  pose (f := snd (opened one_packet_file)).
  pose (c := match fst (read_block f) with
             | inr (Some c) => c
             | _ => mkCaptured [] 0 0 0 0 0
             end).
  pose (g1 := snd (read_block f)).
  pose (r := process_captured ipv4_reset c g1).
  pose (packet := match fst r with
                  | inr (Some (p, _, _)) => p
                  | _ => mkIPPacket sock_clear sock_clear 0 0 0
                  end).
  pose (vlans := match fst r with inr (Some (_, v, _)) => v | _ => [] end).
  pose (timestamp := match fst r with inr (Some (_, _, t)) => t | _ => 0 end).
  assert (Hopen : open (Some (bytes_of one_packet_file)) false PcapFile_default
                  = (inr tt, f)) by (vm_compute; reflexivity).
  assert (Hrb : read_block (after_reads ipv4_reset 0 f) = (inr (Some c), g1))
    by (vm_compute; reflexivity).
  assert (Hpc : process_captured ipv4_reset c g1
                = (inr (Some (packet, vlans, timestamp)), snd r))
    by (vm_compute; reflexivity).
  destruct (delivered_from_block ipv4_reset _ _ _ _ _ _ 0%nat _ _ _ _ Hopen Hrb Hpc)
    as (start & size & Hparse & Hpos & _ & Hend & _).
  exists start, size.
  assert (Hbuf : c_buffer c = bytes_of udp_frame)
    by (vm_compute; reflexivity).
  assert (Hcap : cap_start c + cap_size c = 42) by (vm_compute; reflexivity).
  rewrite <- Hbuf. rewrite Hparse. split; [discriminate |]. split; [exact Hpos | lia].
Defined.


(** ** Writing a pcap-ng block and reading it back *)

Lemma skipn_app_length {A} (a b : list A) (n : nat) :
  skipn (length a + n) (a ++ b) = skipn n b.
Proof. induction a as [| x a IH]; [reflexivity | exact IH]. Qed.

Lemma firstn_app_length {A} (a b : list A) : firstn (length a) (a ++ b) = a.
Proof. induction a as [| x a IH]; [reflexivity | simpl; now rewrite IH]. Qed.

Lemma sub_bytes_skip (a b : list byte) (k n : Z) :
  0 <= k -> sub_bytes (a ++ b) (zlength a + k) n = sub_bytes b k n.
Proof.
  intros Hk. unfold sub_bytes, zlength.
  replace (Z.to_nat (Z.of_nat (length a) + k)) with (length a + Z.to_nat k)%nat by lia.
  now rewrite skipn_app_length.
Qed.

Lemma sub_bytes_prefix (a b : list byte) : sub_bytes (a ++ b) 0 (zlength a) = a.
Proof.
  unfold sub_bytes, zlength. rewrite Nat2Z.id. cbn [Z.to_nat skipn].
  apply firstn_app_length.
Qed.

Lemma zlength_app {A} (a b : list A) : zlength (a ++ b) = zlength a + zlength b.
Proof. unfold zlength. rewrite length_app. lia. Qed.

(** A block other than a Section Header, written as its total length, its
    body and its total length again in the byte order of the section, is
    read back as its body, and the reader is left right after the block. *)
Theorem ng_block_round_trip (block_type : Z) (body tail : list byte) (f : PcapFile) :
  block_type <> PCAPNG_SECTION_HEADER ->
  zlength body mod 4 = 0 ->
  zlength body + 12 < 2 ^ 32 ->
  readable 0 f ->
  remaining f = put32 (_be f) (zlength body + 12) ++ body
                ++ put32 (_be f) (zlength body + 12) ++ tail ->
  exists f',
    readNgBlockBody block_type f = (inr body, f') /\
    remaining f' = tail /\ _error f' = _error f /\ _be f' = _be f.
Proof.
  intros Htype Hmod Hsize Hread Hrem.
  pose proof (zlength_nonneg body) as Hb. pose proof (zlength_nonneg tail) as Ht.
  set (len := zlength body) in *. set (L := put32 (_be f) (len + 12)) in *.
  assert (HL : zlength L = 4) by apply zlength_put32.
  destruct (at_offset_start f 0 Hread) as [Hat _].
  set (str := remaining f) in *.
  assert (Hstr : zlength str = len + 8 + zlength tail).
  { rewrite Hrem, !zlength_app, HL. fold len. lia. }
  assert (Hget : get32 (_be f) L 0 = len + 12).
  { rewrite <- (app_nil_r L). apply get32_put32. lia. }
  assert (S0 : sub_bytes str 0 4 = L).
  { rewrite Hrem, <- HL. apply sub_bytes_prefix. }
  assert (S1 : sub_bytes str 4 len = body).
  { rewrite Hrem, <- HL. replace (zlength L) with (zlength L + 0) by lia.
    rewrite sub_bytes_skip by lia. apply sub_bytes_prefix. }
  assert (S2 : sub_bytes str (4 + len) 4 = L).
  { rewrite Hrem, <- HL at 1. rewrite sub_bytes_skip by lia.
    replace len with (zlength body + 0) by (fold len; lia).
    rewrite sub_bytes_skip by lia. rewrite <- HL. apply sub_bytes_prefix. }
  assert (S3 : skipn (Z.to_nat (4 + len + 4)) str = tail).
  { rewrite Hrem. unfold len, zlength in *.
    replace (Z.to_nat (4 + Z.of_nat (length body) + 4))
      with (length L + (length body + (length L + 0)))%nat by lia.
    now rewrite !skipn_app_length. }
  unfold readNgBlockBody.
  destruct (at_offset_readall str 0 4 f Hat) as (f1 & Hr1 & Hat1 & Hbe1); try lia.
  unfold bind at 1. rewrite Hr1, S0.
  unfold read_order_magic.
  destruct (Z.eqb_spec block_type PCAPNG_SECTION_HEADER) as [E | _]; [contradiction |].
  unfold bind, ret, get. rewrite Hbe1, Hget.
  assert (Hk : 0 <= 4 <= zlength str) by lia.
  destruct (read_block_rest_spec str 4 (len + 12) [] f1 Hat1 Hk) as [_ Hgood].
  change (zlength (@nil byte)) with 0 in Hgood.
  replace (len + 12 - 12 - 0) with len in Hgood by lia.
  destruct Hgood as (_ & _ & Hok).
  { rewrite <- Z.add_mod_idemp_l by lia. rewrite Hmod. reflexivity. }
  { lia. }
  destruct Hok as (f2 & Hr2 & Hat2).
  { lia. }
  { rewrite Hbe1, <- get32_sub_bytes by lia. rewrite S2. now rewrite Hget. }
  exists f2. rewrite S1 in Hr2. cbn [app] in Hr2.
  split; [exact Hr2 |].
  split; [rewrite (at_offset_remaining _ _ _ Hat2); exact S3 |].
  pose proof (regular_read_block_rest (len + 12) [] f1) as (He & _).
  rewrite Hr2 in He. cbn [fst snd] in He.
  pose proof (regular_readall 4 f) as (He1 & _).
  rewrite Hr1 in He1. cbn [fst snd] in He1.
  split; [congruence |].
  assert (Hkeep : preserves (fun g => _be g = _be f) (read_block_rest (len + 12) [])).
  { unfold read_block_rest. preserves_tac. }
  specialize (Hkeep f1 Hbe1). rewrite Hr2 in Hkeep. exact Hkeep.
Qed.

Lemma ng_block_round_trip_witness :
  let f := set_be true (reader_on (be32 20 ++ [1; 2; 3; 4; 5; 6; 7; 8] ++ be32 20 ++ [9; 9])) in
  exists f',
    readNgBlockBody PCAPNG_ENHANCED_PACKET f = (inr (bytes_of [1; 2; 3; 4; 5; 6; 7; 8]), f') /\
    remaining f' = bytes_of [9; 9].
Proof.
  intros f.
  destruct (ng_block_round_trip PCAPNG_ENHANCED_PACKET
              (bytes_of [1; 2; 3; 4; 5; 6; 7; 8]) (bytes_of [9; 9]) f)
    as (f' & Hr & Hrem & _).
  - vm_compute. discriminate.
  - reflexivity.
  - reflexivity.
  - eexists. split; [reflexivity |]. split; [reflexivity |]. vm_compute. discriminate.
  - reflexivity.
  - exists f'. split; assumption.
Defined.


(** ** The interface and the timestamps of a pcap file *)

Lemma ng_readNgBlockBody (block_type : Z) :
  preserves (fun f => _ng f = true) (readNgBlockBody block_type).
Proof. unfold readNgBlockBody, read_order_magic, read_block_rest. preserves_tac. Qed.

(** A section header keeps the reader in pcap-ng format, whether it is read
    or not. *)
Lemma ng_section_header (magic : Z) (f : PcapFile) :
  _ng (snd ((modify (set_ng true) ;;;
             header <- readNgBlockBody magic ;;
             if zlength header <? 16 then fail TruncatedSectionHeader
             else modify (fun f =>
                    set_if [] (set_version (get16 (_be f) header 4)
                                           (get16 (_be f) header 6) f))) f)) = true.
Proof.
  unfold bind at 1. unfold modify at 1.
  assert (H : preserves (fun f => _ng f = true)
                (header <- readNgBlockBody magic ;;
                 if zlength header <? 16 then fail TruncatedSectionHeader
                 else modify (fun f =>
                        set_if [] (set_version (get16 (_be f) header 4)
                                               (get16 (_be f) header 6) f)))).
  { apply preserves_bind; [intros; assumption | apply ng_readNgBlockBody | intros header].
    preserves_tac. }
  exact (H (set_ng true f) eq_refl).
Qed.

Lemma pcap_interface_units (old : list InterfaceDesc) (magic : Z) (be : bool)
    (header : list byte) :
  time_units (pcap_interface old magic be header) = micro_den \/
  time_units (pcap_interface old magic be header) = nano_den.
Proof. unfold pcap_interface. cbn [time_units]. destruct (_ || _); auto. Qed.

Lemma pcap_mode_ok_readHeader (magic : Z) : preserves pcap_mode_ok (readHeader magic).
Proof.
  unfold readHeader. destruct (is_pcap_magic magic).
  - apply preserves_bind; [intros; assumption | preserves_tac | intros header].
    intros f _. right. eexists. split; [reflexivity | apply pcap_interface_units].
  - destruct (magic =? PCAPNG_MAGIC); [| preserves_tac].
    intros f _. left. apply ng_section_header.
Qed.

Lemma pcap_mode_ok_established (magic : Z) (f f' : PcapFile) (u : unit) :
  readHeader magic f = (inr u, f') -> pcap_mode_ok f'.
Proof.
  unfold readHeader. destruct (is_pcap_magic magic).
  - unfold bind, modify. destruct (readall 20 f) as [[e | header] f1]; [discriminate |].
    intros E. injection E as _ <-. right. eexists.
    split; [reflexivity | apply pcap_interface_units].
  - destruct (magic =? PCAPNG_MAGIC); [| discriminate].
    intros E. left. pose proof (ng_section_header magic f) as H.
    rewrite E in H. exact H.
Qed.

Lemma ng_readHeader (magic : Z) :
  is_pcap_magic magic = false -> preserves (fun f => _ng f = true) (readHeader magic).
Proof.
  intros Hm. unfold readHeader. rewrite Hm.
  destruct (magic =? PCAPNG_MAGIC); [| preserves_tac].
  intros f _. apply ng_section_header.
Qed.

Lemma ng_analyzeNgInterface (data : list byte) :
  preserves (fun f => _ng f = true) (analyzeNgInterface data).
Proof. unfold analyzeNgInterface. preserves_tac. Qed.

Lemma ng_read_ng_block : preserves (fun f => _ng f = true) read_ng_block.
Proof.
  unfold read_ng_block.
  apply preserves_bind; [intros; assumption | preserves_tac | intros type_field].
  apply preserves_bind; [intros; assumption | preserves_tac | intros be].
  unfold ng_block.
  destruct (Z.eqb_spec (get32 be type_field 0) PCAPNG_SECTION_HEADER) as [-> | _].
  { apply preserves_bind;
      [intros; assumption | apply ng_readHeader; reflexivity | intros _].
    preserves_tac. }
  apply preserves_bind; [intros; assumption | apply ng_readNgBlockBody | intros buffer].
  destruct (_ =? PCAPNG_INTERFACE_DESC).
  { apply preserves_bind;
      [intros; assumption | apply ng_analyzeNgInterface | intros _].
    preserves_tac. }
  preserves_tac.
Qed.

Lemma pcap_mode_ok_read_block : preserves pcap_mode_ok read_block.
Proof.
  intros f H. unfold read_block. destruct (_ng f) eqn:Eng.
  - left. now apply ng_read_ng_block.
  - revert f H Eng. unfold read_pcap_record, pcap_record.
    assert (Hp : preserves pcap_mode_ok
                   (modify incr_packet_count ;;;
                    header <- readall 16 ;;
                    be <- get _be ;;
                    ifs <- get _if ;;
                    buffer <- readall (get32 be header 8) ;;
                    ret (Some {| c_buffer := buffer; cap_start := 0;
                                 cap_size := get32 be header 8;
                                 orig_size := get32 be header 12;
                                 if_index := 0;
                                 c_timestamp :=
                                   pcap_timestamp (time_units (nth 0 ifs InterfaceDesc_default))
                                     (get32 be header 0) (get32 be header 4) |})))
      by preserves_tac.
    intros f H _. exact (Hp f H).
Qed.

Lemma pcap_mode_ok_open (source : option (list byte)) (piped : bool) (f0 f : PcapFile) :
  open source piped f0 = (inr tt, f) -> pcap_mode_ok f.
Proof.
  unfold open. destruct (_in f0); [discriminate |].
  destruct source as [content |]; [| discriminate].
  destruct (readall 4 _) as [[e | magic] f2]; [discriminate |].
  destruct (readHeader _ f2) as [[e | u] f3] eqn:E; [discriminate |].
  intros E1. injection E1 as <-. destruct u. exact (pcap_mode_ok_established _ _ _ _ E).
Qed.

Section ReaderMode.

Variable packet_reset : list byte -> option IPPacket.

Lemma pcap_mode_ok_readIP_turn (f : PcapFile) :
  pcap_mode_ok f -> pcap_mode_ok (snd (readIP_turn packet_reset f)).
Proof.
  intros H. unfold readIP_turn.
  pose proof (pcap_mode_ok_read_block f H) as H1.
  destruct (read_block f) as [[e | [c |]] f1]; simpl in *; try assumption.
  destruct (process_captured_frame packet_reset c f1) as (_ & _ & _ & _ & Hng & Hif & _).
  unfold pcap_mode_ok. rewrite Hng, Hif. exact H1.
Qed.

Lemma pcap_mode_ok_readIP_loop (n : nat) (f f' : PcapFile) (r : Error + Found) :
  pcap_mode_ok f -> readIP_loop packet_reset n f = Some (r, f') -> pcap_mode_ok f'.
Proof.
  revert f. induction n as [| n IH]; intros f H; [discriminate |]. simpl.
  pose proof (pcap_mode_ok_readIP_turn f H) as H1.
  destruct (readIP_turn packet_reset f) as [[e | [x |]] f1]; simpl in H1.
  - intros E. injection E as _ <-. exact H1.
  - intros E. injection E as _ <-. exact H1.
  - now apply IH.
Qed.

Lemma pcap_mode_ok_readIP (f : PcapFile) :
  pcap_mode_ok f -> pcap_mode_ok (snd (readIP packet_reset f)).
Proof.
  intros H. unfold readIP.
  destruct (_in f); [| exact H]. destruct (_error f); [exact H |].
  destruct (readIP_loop packet_reset (readIP_fuel f) f) as [[r f'] |] eqn:E.
  - simpl. eapply pcap_mode_ok_readIP_loop; eassumption.
  - exact H.
Qed.

Lemma pcap_mode_ok_after_reads (n : nat) (f : PcapFile) :
  pcap_mode_ok f -> pcap_mode_ok (after_reads packet_reset n f).
Proof.
  revert f. induction n as [| n IH]; intros f H; [exact H |].
  simpl. apply IH. now apply pcap_mode_ok_readIP.
Qed.

End ReaderMode.

Lemma readall_bytes (n : Z) (f f' : PcapFile) (b : list byte) :
  0 < n -> readall n f = (inr b, f') -> b = firstn (Z.to_nat n) (remaining f).
Proof.
  intros Hn. unfold readall, remaining.
  assert (E : (n <=? 0) = false) by (apply Z.leb_gt; lia). rewrite E.
  destruct (_in f) as [s |]; [| discriminate].
  destruct (failed s || _); [discriminate |].
  intros E1. injection E1 as <- _. reflexivity.
Qed.

Lemma pcap_timestamp_micro (tstamp sub_tstamp : Z) :
  pcap_timestamp micro_den tstamp sub_tstamp = tstamp * 1000000 + sub_tstamp.
Proof.
  unfold pcap_timestamp, micro_den. cbn [Z.ltb Z.compare].
  now rewrite Z.quot_mul by lia.
Qed.

Lemma pcap_timestamp_nano (tstamp sub_tstamp : Z) :
  0 <= sub_tstamp ->
  pcap_timestamp nano_den tstamp sub_tstamp = tstamp * 1000000 + sub_tstamp / 1000.
Proof.
  intros H. unfold pcap_timestamp, nano_den, micro_den. cbn [Z.ltb Z.compare].
  rewrite Z.quot_div_nonneg by lia.
  change 1000000000 with (1000 * 1000000).
  now rewrite Z.div_mul_cancel_r by lia.
Qed.

(** In a pcap file, after [open] and any number of [readIP], there is
    exactly one interface, whose time unit is the microsecond or the
    nanosecond, so that the next record is read with [_if[0]] present and
    without a division by zero; its timestamp is the seconds field times
    10^6 plus the sub-second field, divided by 1000 in a nanosecond file,
    which is never negative and never overflows 64 bits. *)
Theorem pcap_record_timestamp (packet_reset : list byte -> option IPPacket)
    (source : option (list byte)) (piped : bool) (f0 f : PcapFile) (n : nat) :
  open source piped f0 = (inr tt, f) ->
  let g := after_reads packet_reset n f in
  _ng g = false ->
  exists i,
    _if g = [i] /\ (time_units i = micro_den \/ time_units i = nano_den) /\
    forall c g1, read_block g = (inr (Some c), g1) ->
      let sec := get32 (_be g) (remaining g) 0 in
      let sub := get32 (_be g) (remaining g) 4 in
      c_timestamp c = sec * 1000000 + (if time_units i =? micro_den then sub else sub / 1000) /\
      0 <= c_timestamp c < 2 ^ 52.
Proof.
  intros Hopen g Hng.
  pose proof (pcap_mode_ok_after_reads packet_reset n f (pcap_mode_ok_open _ _ _ _ Hopen))
    as Hok.
  fold g in Hok. destruct Hok as [Hng' | (i & Hif & Hunits)]; [congruence |].
  exists i. split; [exact Hif |]. split; [exact Hunits |].
  intros c g1. unfold read_block. rewrite Hng.
  unfold read_pcap_record, pcap_record, bind, modify, get, ret.
  destruct (readall 16 (incr_packet_count g)) as [[e | header] f1] eqn:E16; [discriminate |].
  assert (Hbe : _be f1 = _be g).
  { assert (Hp : preserves (fun x => _be x = _be g) (readall 16))
      by (apply preserves_readall; intros; assumption).
    specialize (Hp (incr_packet_count g) eq_refl). now rewrite E16 in Hp. }
  assert (Hif1 : _if f1 = _if g).
  { assert (Hp : preserves (fun x => _if x = _if g) (readall 16))
      by (apply preserves_readall; intros; assumption).
    specialize (Hp (incr_packet_count g) eq_refl). now rewrite E16 in Hp. }
  apply readall_bytes in E16; [| lia].
  change (remaining (incr_packet_count g)) with (remaining g) in E16.
  destruct (readall _ f1) as [[e | buffer] f2]; [discriminate |].
  intros E. injection E as <- _. cbn [c_timestamp].
  rewrite Hbe, Hif1, Hif. cbn [nth].
  assert (H0 : get32 (_be g) header 0 = get32 (_be g) (remaining g) 0).
  { rewrite E16. apply (get32_sub (_be g) (remaining g) 0 16 0); lia. }
  assert (H4 : get32 (_be g) header 4 = get32 (_be g) (remaining g) 4).
  { rewrite E16. apply (get32_sub (_be g) (remaining g) 0 16 4); lia. }
  rewrite H0, H4.
  pose proof (get32_range (_be g) (remaining g) 0) as R0.
  pose proof (get32_range (_be g) (remaining g) 4) as R4.
  change (2 ^ 32) with 4294967296 in R0, R4. change (2 ^ 52) with 4503599627370496.
  destruct Hunits as [-> | ->].
  - rewrite pcap_timestamp_micro. change (micro_den =? micro_den) with true. cbv iota.
    split; [reflexivity | lia].
  - rewrite pcap_timestamp_nano by lia. change (nano_den =? micro_den) with false. cbv iota.
    split; [reflexivity |].
    assert (0 <= get32 (_be g) (remaining g) 4 / 1000 < 4294967296).
    { split; [apply Z.div_pos; lia | apply Z.div_lt_upper_bound; lia]. }
    lia.
Qed.

Lemma pcap_record_timestamp_witness :
  let g := snd (opened one_packet_file) in
  exists i, _if g = [i] /\
    forall c g1, read_block g = (inr (Some c), g1) -> c_timestamp c = 10500000.
Proof.
  intros g.
  assert (Hopen : open (Some (bytes_of one_packet_file)) false PcapFile_default
                  = (inr tt, g)) by (vm_compute; reflexivity).
  assert (Hng : _ng (after_reads ipv4_reset 0 g) = false) by (vm_compute; reflexivity).
  destruct (pcap_record_timestamp ipv4_reset _ _ _ _ 0%nat Hopen Hng)
    as (i & Hif & _ & Hts).
  exists i. split; [exact Hif |].
  intros c g1 Hrb. destruct (Hts c g1 Hrb) as [Heq _].
  rewrite Heq.
  assert (Hi : i = mkInterfaceDesc LINKTYPE_ETHERNET 0 micro_den 0).
  { assert (H : _if g = [mkInterfaceDesc LINKTYPE_ETHERNET 0 micro_den 0])
      by (vm_compute; reflexivity).
    cbn [after_reads] in Hif. rewrite H in Hif. now injection Hif as <-. }
  rewrite Hi. vm_compute. reflexivity.
Defined.


(** ** What [PcapFilter::readIP] lets through *)

Lemma window_verdict_accept (p : PcapFilter) (packet : IPPacket) (vlans : VLANIdStack)
    (timestamp : Z) :
  window_verdict p packet vlans timestamp = Accept ->
  _first_packet p <= _packet_count (file p) <= _last_packet p /\
  _first_time p <= timestamp <= _last_time p /\
  _first_time_offset p <= timeOffset (file p) timestamp <= _last_time_offset p /\
  (_protocols p = [] \/ contains (_protocols p) (ip_protocol packet) = true) /\
  vlans_match vlans (_opt_vlans p) = true.
Proof.
  unfold window_verdict.
  destruct (_ || _ || _) eqn:E1; [discriminate |].
  destruct (_ || _ || _ || _ || _) eqn:E2; [discriminate |]. intros _.
  repeat rewrite orb_false_iff in E1. repeat rewrite orb_false_iff in E2.
  destruct E1 as ((L1 & L2) & L3). destruct E2 as ((((F0 & F1) & F2) & F3) & F4).
  rewrite Z.ltb_ge in L1, L2, L3, F1, F2, F3.
  rewrite negb_false_iff in F4. rewrite andb_false_iff, !negb_false_iff in F0.
  repeat split; try assumption.
  destruct F0 as [F0 | F0]; [left | right; exact F0].
  destruct (_protocols p); [reflexivity | discriminate].
Qed.

Lemma window_verdict_stop (p : PcapFilter) (packet : IPPacket) (vlans : VLANIdStack)
    (timestamp : Z) :
  window_verdict p packet vlans timestamp = Stop -> final_condition p (file p) timestamp.
Proof.
  unfold window_verdict, final_condition.
  destruct (_ || _ || _) eqn:E1.
  - intros _. rewrite !orb_true_iff, !Z.ltb_lt in E1. tauto.
  - destruct (_ || _ || _ || _ || _); discriminate.
Qed.

Lemma filter_packet_cases (p p' : PcapFilter) (packet : IPPacket) (vlans : VLANIdStack)
    (timestamp : Z) (v : Verdict) :
  filter_packet p packet vlans timestamp = (v, p') ->
  match v with
  | Stop => p' = p /\ window_verdict p packet vlans timestamp = Stop
  | Drop => p' = p
  | Accept => window_verdict p packet vlans timestamp = Accept /\
              (forward_match p packet = true \/ backward_match p packet = true)
  end.
Proof.
  unfold filter_packet.
  destruct (window_verdict p packet vlans timestamp) eqn:Ew.
  - intros E. injection E as <- <-. split; reflexivity.
  - intros E. injection E as <- <-. reflexivity.
  - rewrite flow_verdict_unfold.
    destruct (forward_match p packet) eqn:Ef.
    { intros E. injection E as <- _. split; [reflexivity | now left]. }
    destruct (backward_match p packet) eqn:Eb.
    { intros E. injection E as <- _. split; [reflexivity | now right]. }
    intros E. injection E as <- <-. reflexivity.
Qed.

Section FilterSound.

Variable packet_reset : list byte -> option IPPacket.

Lemma readIP_loop_success (n : nat) (f f' : PcapFile) (r : Found) :
  readIP_loop packet_reset n f = Some (inr r, f') ->
  _error f' = _error f /\ isOpen f' = isOpen f.
Proof.
  revert f. induction n as [| n IH]; intros f; [discriminate |]. simpl.
  pose proof (readIP_turn_spec packet_reset f) as H.
  destruct (readIP_turn packet_reset f) as [[e1 | [r1 |]] f1]; cbn beta iota in H.
  - discriminate.
  - intros H1. injection H1 as _ <-. destruct H as (_ & H). exact H.
  - intros H1. apply IH in H1. destruct H as (_ & He & Ho), H1 as (He1 & Ho1).
    split; congruence.
Qed.

Lemma readIP_success (f f' : PcapFile) (r : Found) :
  readIP packet_reset f = (inr r, f') -> _error f' = false /\ isOpen f' = true.
Proof.
  unfold readIP. destruct (_in f) as [s |] eqn:Hin; [| discriminate].
  destruct (_error f) eqn:He; [discriminate |].
  destruct (readIP_loop packet_reset (readIP_fuel f) f) as [[r1 f1] |] eqn:Hloop;
    [| discriminate].
  intros H. injection H as -> ->.
  destruct (readIP_loop_success _ _ _ _ Hloop) as [H1 H2].
  split; [congruence |]. rewrite H2. unfold isOpen. now rewrite Hin.
Qed.

Lemma PcapFilter_loop_passes (n : nat) (p p' : PcapFilter) (packet : IPPacket)
    (vlans : VLANIdStack) (timestamp : Z) :
  PcapFilter_loop packet_reset n p = Some (inr (packet, vlans, timestamp), p') ->
  passes p (file p') packet vlans timestamp.
Proof.
  revert p. induction n as [| n IH]; intros p; [discriminate |]. simpl.
  destruct (readIP packet_reset (file p)) as [[e | [[packet0 vlans0] timestamp0]] f1];
    [discriminate |].
  pose proof (filter_packet_file (set_file f1 p) packet0 vlans0 timestamp0) as Hfile.
  destruct (filter_packet (set_file f1 p) packet0 vlans0 timestamp0) as [v p1] eqn:Hfp.
  apply filter_packet_cases in Hfp. cbn [snd] in Hfile. destruct v.
  - discriminate.
  - subst p1. intros H. apply IH in H. exact H.
  - intros H. injection H as <- <- <- <-. destruct Hfp as [Hw Hflow].
    apply window_verdict_accept in Hw. rewrite Hfile. unfold passes.
    destruct Hw as (H1 & H2 & H3 & H4 & H5).
    repeat split; try apply H1; try apply H2; try apply H3; assumption.
Qed.

Lemma PcapFilter_loop_stop (n : nat) (p p' : PcapFilter) :
  PcapFilter_loop packet_reset n p = Some (inl None, p') ->
  _error (file p') = false /\ isOpen (file p') = true /\
  exists k packet vlans timestamp,
    readIP packet_reset (after_reads packet_reset k (file p))
      = (inr (packet, vlans, timestamp), file p') /\
    final_condition p (file p') timestamp.
Proof.
  revert p. induction n as [| n IH]; intros p; [discriminate |]. simpl.
  destruct (readIP packet_reset (file p)) as [[e | [[packet0 vlans0] timestamp0]] f1] eqn:Hr;
    [discriminate |].
  pose proof (readIP_success _ _ _ Hr) as Hok.
  destruct (filter_packet (set_file f1 p) packet0 vlans0 timestamp0) as [v p1] eqn:Hfp.
  apply filter_packet_cases in Hfp. destruct v.
  - destruct Hfp as [-> Hw]. intros H. injection H as <-.
    apply window_verdict_stop in Hw.
    split; [apply Hok |]. split; [apply Hok |].
    exists 0%nat, packet0, vlans0, timestamp0. split; [exact Hr | exact Hw].
  - subst p1. intros H. apply IH in H.
    destruct H as (He & Ho & k & packet & vlans & timestamp & Hk & Hfc).
    split; [exact He |]. split; [exact Ho |].
    exists (S k), packet, vlans, timestamp. split; [| exact Hfc].
    cbn [after_reads]. rewrite Hr. exact Hk.
  - discriminate.
Qed.

Lemma PcapFilter_loop_failure (n : nat) (p p' : PcapFilter) (e : Error) :
  PcapFilter_loop packet_reset n p = Some (inl (Some e), p') ->
  isOpen (file p) = true ->
  _error (file p') = true /\ isOpen (file p') = true.
Proof.
  revert p. induction n as [| n IH]; intros p; [discriminate |]. simpl.
  destruct (readIP packet_reset (file p)) as [[e1 | [[packet0 vlans0] timestamp0]] f1] eqn:Hr.
  - intros H Hopen. injection H as _ <-. exact (readIP_latches packet_reset _ _ _ Hopen Hr).
  - pose proof (readIP_success _ _ _ Hr) as Hok.
    destruct (filter_packet (set_file f1 p) packet0 vlans0 timestamp0) as [v p1] eqn:Hfp.
    apply filter_packet_cases in Hfp. destruct v.
    + discriminate.
    + subst p1. intros H _. apply IH in H; [exact H | apply Hok].
    + discriminate.
Qed.

Lemma PcapFilter_loop_reads (n : nat) (p p' : PcapFilter) (r : option Error + Found) :
  PcapFilter_loop packet_reset n p = Some (r, p') ->
  exists k, (1 <= k <= n)%nat /\ file p' = after_reads packet_reset k (file p).
Proof.
  revert p. induction n as [| n IH]; intros p; [discriminate |]. simpl.
  destruct (readIP packet_reset (file p)) as [[e | [[packet0 vlans0] timestamp0]] f1] eqn:Hr.
  - intros H. injection H as _ <-. exists 1%nat. split; [lia |]. simpl. now rewrite Hr.
  - pose proof (filter_packet_file (set_file f1 p) packet0 vlans0 timestamp0) as Hfile.
    destruct (filter_packet (set_file f1 p) packet0 vlans0 timestamp0) as [v p1].
    cbn [snd] in Hfile. cbn [file set_file] in Hfile.
    assert (H1 : file p1 = after_reads packet_reset 1 (file p)) by (simpl; now rewrite Hr).
    destruct v.
    + intros H. injection H as _ <-. exists 1%nat. split; [lia | exact H1].
    + intros H. apply IH in H. destruct H as (k & Hk & Hf).
      exists (S k). split; [lia |]. rewrite Hf, Hfile. simpl. now rewrite Hr.
    + intros H. injection H as _ <-. exists 1%nat. split; [lia | exact H1].
Qed.

End FilterSound.

(** A packet that [PcapFilter::readIP] returns passes every filter that was
    in force when the call was made: its number, its timestamp and its time
    offset are within the bounds, its protocol is in the protocol set when
    there is one, its VLAN stack matches, and its addresses match the
    address filter in one of the two directions. *)
Theorem filter_yields_passing (packet_reset : list byte -> option IPPacket)
    (p p' : PcapFilter) (packet : IPPacket) (vlans : VLANIdStack) (timestamp : Z) :
  PcapFilter_readIP packet_reset p = (inr (packet, vlans, timestamp), p') ->
  passes p (file p') packet vlans timestamp.
Proof.
  unfold PcapFilter_readIP.
  destruct (PcapFilter_loop packet_reset (readIP_fuel (file p)) p) as [[r p1] |] eqn:H;
    [| discriminate].
  intros E. injection E as -> ->. eapply PcapFilter_loop_passes. eassumption.
Qed.

Lemma filter_yields_passing_witness :
  let p := snd (opened_filter one_packet_file) in
  exists packet vlans p',
    PcapFilter_readIP ipv4_reset p = (inr (packet, vlans, 10500000), p') /\
    passes p (file p') packet vlans 10500000.
Proof.
  intros p.
  pose (r := PcapFilter_readIP ipv4_reset p).
  pose (packet := match fst r with
                  | inr (pk, _, _) => pk
                  | inl _ => tcp_A_B
                  end).
  pose (vlans := match fst r with
                 | inr (_, vl, _) => vl
                 | inl _ => []
                 end).
  assert (Hread : PcapFilter_readIP ipv4_reset p = (inr (packet, vlans, 10500000), snd r))
    by (vm_compute; reflexivity).
  exists packet, vlans, (snd r). split; [exact Hread |].
  exact (filter_yields_passing ipv4_reset p (snd r) packet vlans 10500000 Hread).
Defined.

(** When [PcapFilter::readIP] returns false on a final condition, the
    reader is still open and not in error, and the packet that the last
    call of [PcapFile::readIP] has delivered is beyond the last packet
    number, the last date or the last time offset; when it returns false
    because the superclass did, on an open reader, the reader is in error:
    on an open reader [endOfFile()] tells the two returns apart. *)
Theorem filter_stop_not_error (packet_reset : list byte -> option IPPacket)
    (p p' : PcapFilter) :
  (PcapFilter_readIP packet_reset p = (inl None, p') ->
   endOfFile (file p') = false /\ isOpen (file p') = true /\
   exists k packet vlans timestamp,
     readIP packet_reset (after_reads packet_reset k (file p))
       = (inr (packet, vlans, timestamp), file p') /\
     final_condition p (file p') timestamp) /\
  (forall e, PcapFilter_readIP packet_reset p = (inl (Some e), p') ->
   isOpen (file p) = true ->
   endOfFile (file p') = true /\ isOpen (file p') = true).
Proof.
  unfold PcapFilter_readIP.
  destruct (PcapFilter_loop packet_reset (readIP_fuel (file p)) p) as [[r p1] |] eqn:H.
  - split.
    + intros E. injection E as -> ->. eapply PcapFilter_loop_stop. eassumption.
    + intros e E. injection E as -> ->. eapply PcapFilter_loop_failure. eassumption.
  - exfalso. revert H. apply PcapFilter_loop_total. unfold readIP_fuel. lia.
Qed.

Lemma filter_stop_not_error_witness :
  let p := snd (PcapFilter_open (Some (bytes_of unordered_file)) false
                  (loadArgs (mkArgs None (Some 1) None None DateAbsent DateAbsent [])
                            (blank_filter PcapFile_default))) in
  let p1 := snd (PcapFilter_readIP ipv4_reset p) in
  let p2 := snd (PcapFilter_readIP ipv4_reset p1) in
  endOfFile (file p2) = false /\
  _last_packet p1 = 1 /\ _packet_count (file p2) = 2 /\
  exists k packet vlans timestamp,
    readIP ipv4_reset (after_reads ipv4_reset k (file p1))
      = (inr (packet, vlans, timestamp), file p2) /\
    final_condition p1 (file p2) timestamp.
Proof.
  intros p p1 p2.
  assert (Hread : PcapFilter_readIP ipv4_reset p1 = (inl None, p2))
    by (vm_compute; reflexivity).
  destruct (proj1 (filter_stop_not_error ipv4_reset p1 p2) Hread) as (He & _ & Hlast).
  split; [exact He |].
  split; [vm_compute; reflexivity |]. split; [vm_compute; reflexivity | exact Hlast].
Defined.

(** [PcapFilter::readIP] moves the reader only through [PcapFile::readIP]:
    the state of the superclass after a call is its state after one or more
    calls of [PcapFile::readIP], at most one per remaining byte plus one. *)
Theorem filter_reads_through_superclass (packet_reset : list byte -> option IPPacket)
    (p : PcapFilter) :
  exists k, (1 <= k <= readIP_fuel (file p))%nat /\
    file (snd (PcapFilter_readIP packet_reset p)) = after_reads packet_reset k (file p).
Proof.
  unfold PcapFilter_readIP.
  destruct (PcapFilter_loop packet_reset (readIP_fuel (file p)) p) as [[r p1] |] eqn:H.
  - cbn [snd]. eapply PcapFilter_loop_reads. eassumption.
  - exfalso. revert H. apply PcapFilter_loop_total. unfold readIP_fuel. lia.
Qed.


(** ** Interface descriptions *)



(** ** Packets of an interface that was not described *)

Lemma decapsulate_unknown (ifd : InterfaceDesc) (be : bool) (buffer : list byte)
    (start size : Z) :
  link_type ifd = LINKTYPE_UNKNOWN -> decapsulate ifd be buffer start size = (start, 0, []).
Proof.
  intros H. unfold decapsulate, bsd_protocol. rewrite H.
  destruct (4 <=? size); reflexivity.
Qed.

(** A captured packet whose interface index is not below the number of
    interfaces described so far, such as a Simple Packet block that comes
    before any interface description, is never delivered, whatever its
    bytes: it only adds to the total size of the captured packets. *)
Theorem unknown_interface_ignored (packet_reset : list byte -> option IPPacket)
    (c : Captured) (f : PcapFile) :
  zlength (_if f) <= if_index c ->
  let r := process_captured packet_reset c f in
  fst r = inr None /\
  _packets_size (snd r) = wrap64 (_packets_size f + cap_size c) /\
  _ip_packet_count (snd r) = _ip_packet_count f /\
  _ip_packets_size (snd r) = _ip_packets_size f.
Proof.
  intros Hidx. unfold process_captured.
  destruct (cap_size c <? orig_size c); [cbn; repeat split |].
  assert (Hi : forall g, _if g = _if f -> interface_of g (if_index c) = InterfaceDesc_default).
  { intros g Hg. unfold interface_of. rewrite Hg.
    assert (E : (if_index c <? zlength (_if f)) = false) by (apply Z.ltb_ge; lia).
    now rewrite E. }
  rewrite Hi by reflexivity.
  unfold update_timestamps.
  destruct (0 <=? c_timestamp c); [destruct (_first_timestamp _ <? 0) |];
    rewrite decapsulate_unknown by reflexivity; cbn; repeat split.
Qed.

Lemma unknown_interface_ignored_witness :
  let c := mkCaptured (bytes_of udp_frame) 0 42 42 0 (-1) in
  fst (process_captured ipv4_reset c PcapFile_default) = inr None.
Proof.
  intros c.
  apply (unknown_interface_ignored ipv4_reset c PcapFile_default).
  vm_compute. discriminate.
Defined.

(** ** The end of the file *)

(** At the end of the input, [readIP] fails without a diagnostic and sets
    the error indicator; in a pcap file the record that is not there has
    been counted already, so that [packetCount()] is one more than the
    number of records, while in a pcap-ng file it is left as it was. *)
Theorem end_of_file_counts (packet_reset : list byte -> option IPPacket)
    (f : PcapFile) (s : istream) :
  _in f = Some s -> _error f = false ->
  zlength (rest s) < (if _ng f then 4 else 16) ->
  let r := readIP packet_reset f in
  fst r = inl ShortRead /\ _error (snd r) = true /\
  _packet_count (snd r) =
    (if _ng f then _packet_count f else wrap64 (_packet_count f + 1)) /\
  _ip_packet_count (snd r) = _ip_packet_count f.
Proof.
  intros Hin He Hlen.
  assert (Hrb : exists f1,
             read_block f = (inl ShortRead, f1) /\ _error f1 = true /\
             _packet_count f1 =
               (if _ng f then _packet_count f else wrap64 (_packet_count f + 1)) /\
             _ip_packet_count f1 = _ip_packet_count f).
  { unfold read_block. destruct (_ng f).
    - unfold read_ng_block, bind.
      pose proof (readall_short 4 f s Hin Hlen) as Hs.
      pose proof (keeps_count_readall 4 f) as Hc.
      pose proof (regular_readall 4 f) as (_ & _ & _ & Hk).
      destruct (readall 4 f) as [[e | a] f1]; [| discriminate].
      cbn in Hs, Hc, Hk. injection Hs as ->.
      unfold counters in Hk. injection Hk as Hipc _ _ _ _.
      eexists. split; [reflexivity |]. cbn. repeat split; assumption.
    - unfold read_pcap_record, bind, modify.
      pose proof (readall_short 16 (incr_packet_count f) s Hin Hlen) as Hs.
      pose proof (keeps_count_readall 16 (incr_packet_count f)) as Hc.
      pose proof (regular_readall 16 (incr_packet_count f)) as (_ & _ & _ & Hk).
      destruct (readall 16 (incr_packet_count f)) as [[e | a] f1]; [| discriminate].
      cbn in Hs, Hc, Hk. injection Hs as ->.
      unfold counters in Hk. injection Hk as Hipc _ _ _ _.
      eexists. split; [reflexivity |]. cbn. repeat split; assumption. }
  destruct Hrb as (f1 & Hrb & H1 & H2 & H3).
  intros r. subst r. unfold readIP. rewrite Hin, He.
  unfold readIP_fuel. cbn [readIP_loop]. unfold readIP_turn. rewrite Hrb.
  cbn [fst snd]. repeat split; assumption.
Qed.

Lemma end_of_file_counts_witness :
  let f := after_reads ipv4_reset 1 (snd (opened one_packet_file)) in
  fst (readIP ipv4_reset f) = inl ShortRead /\
  _packet_count f = 1 /\ _packet_count (snd (readIP ipv4_reset f)) = 2.
Proof.
  intros f.
  pose (s := match _in f with Some s => s | None => mkIstream [] 0 true false O end).
  assert (Hin : _in f = Some s) by (vm_compute; reflexivity).
  assert (He : _error f = false) by (vm_compute; reflexivity).
  assert (Hlen : zlength (rest s) < (if _ng f then 4 else 16)) by (vm_compute; reflexivity).
  destruct (end_of_file_counts ipv4_reset f s Hin He Hlen) as (Hr & _ & Hc & _).
  split; [exact Hr |].
  assert (H1 : _packet_count f = 1) by (vm_compute; reflexivity).
  split; [exact H1 |]. rewrite Hc, H1. vm_compute. reflexivity.
Defined.


(** ** Opening a pcap file *)

Lemma get16_sub (be : bool) (l : list byte) (k n off : Z) :
  0 <= k -> 0 <= off -> off + 2 <= n ->
  get16 be (firstn (Z.to_nat n) (skipn (Z.to_nat k) l)) off = get16 be l (k + off).
Proof.
  intros Hk Ho Hn. unfold get16, GetUInt16BE, GetUInt16LE.
  rewrite !byte_at_sub by lia.
  replace (k + (off + 1)) with (k + off + 1) by lia.
  reflexivity.
Qed.

(** The file starts with one of the four pcap magic numbers: [open]
    succeeds exactly when the 24 bytes of the header are there.  It then
    leaves a pcap reader right after the header, with the byte order of the
    magic number, the version and the link type of the header; else it
    fails without a diagnostic, the reader closed and in error. *)
Theorem open_pcap_header (content : list byte) (piped : bool) (f0 : PcapFile) :
  _in f0 = None ->
  is_pcap_magic (GetUInt32BE content 0) = true ->
  let magic := GetUInt32BE content 0 in
  let be := (magic =? PCAP_MAGIC_BE) || (magic =? PCAPNS_MAGIC_BE) in
  (24 <= zlength content ->
   exists f,
     open (Some content) piped f0 = (inr tt, f) /\
     _ng f = false /\ _be f = be /\
     _major f = get16 be content 4 /\ _minor f = get16 be content 6 /\
     remaining f = skipn 24 content /\
     exists i, _if f = [i] /\ link_type i = get16 be content 22) /\
  (zlength content < 24 ->
   exists f,
     open (Some content) piped f0 = (inl ShortRead, f) /\
     isOpen f = false /\ _error f = true).
Proof.
  intros Hin0 Hmagic magic be. unfold open. rewrite Hin0.
  set (s0 := mkIstream content 0 (negb piped) false O).
  set (f1 := set_in (Some s0) (reset_counters f0)).
  assert (Hin1 : _in f1 = Some s0) by reflexivity.
  assert (Hshort : forall n g s, _in g = Some s -> zlength (rest s) < n ->
            exists g', readall n g = (inl ShortRead, g') /\ _error g' = true).
  { intros n g s Hg Hn. pose proof (readall_short n g s Hg Hn) as Hs.
    pose proof (regular_readall n g) as (He & _).
    destruct (readall n g) as [[e | a] g']; [| discriminate].
    cbn in Hs, He. injection Hs as ->. now exists g'. }
  destruct (Z.ltb_spec (zlength content) 4) as [H4 | H4].
  { split; [intros; lia | intros _].
    destruct (Hshort 4 f1 s0 Hin1 H4) as (g' & -> & He).
    exists (close g'). repeat split. exact He. }
  rewrite (readall_success 4 f1 s0 Hin1 eq_refl) by (cbn [rest s0]; lia).
  cbn [rest s0].
  assert (Hm : GetUInt32BE (firstn (Z.to_nat 4) content) 0 = magic).
  { apply (GetUInt32BE_sub content 0 4 0); lia. }
  rewrite Hm. unfold readHeader. fold magic in Hmagic. rewrite Hmagic.
  pose proof (advance_in 4 f1 s0 Hin1) as Hin2. cbn [rest gpos seekable reads s0] in Hin2.
  set (s1 := mkIstream (skipn (Z.to_nat 4) content) (0 + 4) (negb piped) false 1) in Hin2.
  unfold bind, modify.
  assert (Hl1 : zlength (rest s1) = zlength content - 4).
  { cbn [rest s1]. rewrite zlength_skipn; lia. }
  split.
  - intros H24.
    rewrite (readall_success 20 (advance 4 f1) s1 Hin2 eq_refl) by lia.
    eexists. split; [reflexivity |]. cbn [_ng _be _major _minor _if set_if set_version set_be set_ng].
    fold be. cbn [rest s1].
    split; [reflexivity |]. split; [reflexivity |].
    split; [apply (get16_sub be content 4 20 0); lia |].
    split; [apply (get16_sub be content 4 20 2); lia |].
    split.
    + unfold remaining. cbn [_in set_if set_version set_be set_ng].
      rewrite (advance_in 20 (advance 4 f1) s1 Hin2). cbn [rest s1].
      rewrite skipn_skipn. reflexivity.
    + eexists. split; [reflexivity |]. unfold pcap_interface. cbn [link_type].
      apply (get16_sub be content 4 20 18); lia.
  - intros H24.
    destruct (Hshort 20 (advance 4 f1) s1 Hin2 ltac:(lia)) as (g' & -> & He).
    exists (close (error g')). repeat split.
Qed.

Lemma open_pcap_header_witness :
  exists f,
    open (Some (bytes_of one_packet_file)) false PcapFile_default = (inr tt, f) /\
    _be f = true /\ _major f = 2 /\ _minor f = 4 /\
    zlength (remaining f) = 58.
Proof.
  destruct (open_pcap_header (bytes_of one_packet_file) false PcapFile_default)
    as [Hok _]; [reflexivity | vm_compute; reflexivity |].
  destruct Hok as (f & Hopen & _ & Hbe & Hmaj & Hmin & Hrem & _);
    [vm_compute; discriminate |].
  exists f. split; [exact Hopen |].
  rewrite Hbe, Hmaj, Hmin, Hrem. repeat split; vm_compute; reflexivity.
Defined.

(** A file whose first four bytes are none of the magic numbers is
    rejected: [open] reports an unknown magic number and leaves the reader
    closed and in error, with its counters reset. *)
Theorem open_rejects_unknown_magic (content : list byte) (piped : bool) (f0 : PcapFile) :
  _in f0 = None ->
  4 <= zlength content ->
  is_pcap_magic (GetUInt32BE content 0) = false ->
  GetUInt32BE content 0 <> PCAPNG_MAGIC ->
  exists f,
    open (Some content) piped f0 = (inl UnknownMagic, f) /\
    isOpen f = false /\ endOfFile f = true /\ _packet_count f = 0.
Proof.
  intros Hin0 H4 Hmagic Hng. unfold open. rewrite Hin0.
  set (s0 := mkIstream content 0 (negb piped) false O).
  set (f1 := set_in (Some s0) (reset_counters f0)).
  assert (Hin1 : _in f1 = Some s0) by reflexivity.
  rewrite (readall_success 4 f1 s0 Hin1 eq_refl) by (cbn [rest s0]; lia).
  cbn [rest s0].
  assert (Hm : GetUInt32BE (firstn (Z.to_nat 4) content) 0 = GetUInt32BE content 0).
  { apply (GetUInt32BE_sub content 0 4 0); lia. }
  rewrite Hm. unfold readHeader. rewrite Hmagic.
  destruct (Z.eqb_spec (GetUInt32BE content 0) PCAPNG_MAGIC) as [E | _]; [contradiction |].
  unfold fail. eexists. split; [reflexivity |].
  destruct (advance_fields 4 f1) as (_ & _ & _ & _ & Hpc & _).
  repeat split. cbn. exact Hpc.
Qed.

Lemma open_rejects_unknown_magic_witness :
  exists f,
    open (Some (bytes_of [1; 2; 3; 4; 5])) false PcapFile_default = (inl UnknownMagic, f) /\
    isOpen f = false.
Proof.
  destruct (open_rejects_unknown_magic (bytes_of [1; 2; 3; 4; 5]) false PcapFile_default)
    as (f & Hopen & Hclosed & _).
  - reflexivity.
  - vm_compute. discriminate.
  - vm_compute. reflexivity.
  - vm_compute. discriminate.
  - exists f. split; assumption.
Defined.


(** ** The TLV connection *)

Section TLVConnection.

Variable Net : Type.
Variable Message : Type.
Variable receive : Z -> Net -> option (list byte) * Net.
Variable send : Message -> Net -> bool * Net.
Variable disconnect : Net -> Net.
Variable GetUInt16 : list byte -> Z -> Z.
Variable analyze : list byte -> option Message + Message.

Local Abbreviation count := (TLV._invalid_msg_count Net).
Local Abbreviation max := (TLV._max_invalid_msg Net).
Local Abbreviation auto_response := (TLV._auto_error_response Net).
Local Abbreviation invalid_message := (TLV.invalid_message Net Message send disconnect).
Local Abbreviation receive_turn :=
  (TLV.receive_turn Net Message receive send disconnect GetUInt16 analyze).
Local Abbreviation receiveMessage :=
  (TLV.receiveMessage Net Message receive send disconnect GetUInt16 analyze).

(** What a turn keeps: the settings of the connection. *)
Lemma invalid_message_settings (resp : Message) (c : TLV.Connection Net) :
  match invalid_message resp c with
  | TLV.Return _ _ msg c' => msg = None /\ max c' = max c /\ auto_response c' = auto_response c
  | TLV.Again _ _ c' => max c' = max c /\ auto_response c' = auto_response c
  end.
Proof.
  unfold TLV.invalid_message. cbn [TLV._auto_error_response TLV.set_invalid_msg_count].
  destruct (auto_response c) eqn:Ha.
  - destruct (send resp _) as [[|] n]; cbn; [| repeat split; assumption].
    destruct (_ && _); cbn; repeat split; assumption.
  - cbn. destruct (_ && _); cbn; repeat split; assumption.
Qed.

Lemma receive_turn_settings (c : TLV.Connection Net) :
  match receive_turn c with
  | TLV.Return _ _ msg c' =>
      max c' = max c /\ auto_response c' = auto_response c /\ (msg <> None -> count c' = 0)
  | TLV.Again _ _ c' => max c' = max c /\ auto_response c' = auto_response c
  end.
Proof.
  unfold TLV.receive_turn.
  destruct (receive _ _) as [[header |] n]; [| cbn; repeat split; congruence].
  destruct (receive _ _) as [[payload |] n1]; [| cbn; repeat split; congruence].
  destruct (analyze _) as [msg | resp]; [cbn; repeat split |].
  pose proof (invalid_message_settings resp (TLV.set_net Net n1 c)) as H.
  destruct (invalid_message resp _) as [msg c' | c']; cbn in H.
  - destruct H as (-> & H1 & H2). repeat split; congruence.
  - exact H.
Qed.

Lemma threshold_check (c : TLV.Connection Net) :
  0 < max c ->
  match (if (0 <? max c) && (max c <=? count c)
         then TLV.Return Net Message None (TLV.set_net Net (disconnect (TLV.net Net c)) c)
         else TLV.Again Net Message c)
  with
  | TLV.Return _ _ _ c' => count c' = count c
  | TLV.Again _ _ c' => count c' = count c /\ count c' < max c
  end.
Proof.
  intros Hpos. destruct (0 <? max c) eqn:E0; [| apply Z.ltb_ge in E0; lia].
  destruct (max c <=? count c) eqn:E1; cbn; [reflexivity |].
  apply Z.leb_gt in E1. split; [reflexivity | exact E1].
Qed.

(** Below the threshold, an invalid message either ends the call or counts
    for one, still below the threshold. *)
Lemma invalid_message_below (resp : Message) (c : TLV.Connection Net) :
  0 <= count c < max c -> max c < 2 ^ 64 ->
  match invalid_message resp c with
  | TLV.Return _ _ _ c' => count c' = count c + 1
  | TLV.Again _ _ c' => count c' = count c + 1 /\ count c' < max c
  end.
Proof.
  intros Hc Hm. unfold TLV.invalid_message.
  assert (Hw : wrap64 (count c + 1) = count c + 1) by (apply wrap64_small; lia).
  rewrite Hw.
  set (c1 := TLV.set_invalid_msg_count Net (count c + 1) c).
  assert (Hpos : forall n, 0 < max (TLV.set_net Net n c1)) by (intros n; cbn; lia).
  destruct (auto_response c1); [destruct (send resp (TLV.net Net c1)) as [[|] n] |].
  - exact (threshold_check (TLV.set_net Net n c1) (Hpos n)).
  - reflexivity.
  - exact (threshold_check c1 (Hpos (TLV.net Net c1))).
Qed.

Lemma receive_turn_below (c : TLV.Connection Net) :
  0 <= count c < max c -> max c < 2 ^ 64 ->
  match receive_turn c with
  | TLV.Return _ _ msg c' => 0 <= count c' <= max c
  | TLV.Again _ _ c' => count c' = count c + 1 /\ count c' < max c
  end.
Proof.
  intros Hc Hm. unfold TLV.receive_turn.
  destruct (receive _ _) as [[header |] n]; [| cbn; lia].
  destruct (receive _ _) as [[payload |] n1]; [| cbn; lia].
  destruct (analyze _) as [msg | resp]; [cbn; lia |].
  pose proof (invalid_message_below resp (TLV.set_net Net n1 c) Hc Hm) as H.
  destruct (invalid_message resp _) as [msg c' | c']; cbn in H |- *; lia.
Qed.

(** With a positive threshold, [receiveMessage] returns whatever the peer
    sends: a connection with [k] consecutive invalid messages so far, below
    the threshold [n], returns within [n - k] turns of its loop, whatever is
    received; the count is then at most [n], and it is 0 when a message is
    returned. *)
Theorem tlv_receiveMessage_returns (c : TLV.Connection Net) (fuel : nat) :
  0 <= count c < max c -> max c < 2 ^ 64 ->
  (Z.to_nat (max c - count c) <= fuel)%nat ->
  exists msg c',
    receiveMessage fuel c = Some (msg, c') /\
    max c' = max c /\ 0 <= count c' <= max c /\ (msg <> None -> count c' = 0).
Proof.
  revert c. induction fuel as [| fuel IH]; intros c Hc Hm Hfuel; [lia |].
  cbn [TLV.receiveMessage].
  pose proof (receive_turn_settings c) as Hs.
  pose proof (receive_turn_below c Hc Hm) as Hb.
  destruct (receive_turn c) as [msg c' | c'].
  - exists msg, c'. destruct Hs as (H1 & _ & H3). repeat split; try assumption; lia.
  - destruct Hs as (H1 & _). destruct Hb as (H2 & H3).
    destruct (IH c') as (msg & c'' & Hr & Hmax & Hcount & Hreset); try lia.
    exists msg, c''. rewrite Hr. repeat split; try assumption; lia.
Qed.

(** A call that returns a message leaves the count of consecutive invalid
    messages at 0, however many invalid messages came before it, and leaves
    the settings of the connection as they were. *)
Theorem tlv_receiveMessage_resets (c c' : TLV.Connection Net) (fuel : nat)
    (msg : option Message) :
  receiveMessage fuel c = Some (Some msg, c') ->
  count c' = 0 /\ max c' = max c /\ auto_response c' = auto_response c.
Proof.
  revert c. induction fuel as [| fuel IH]; intros c; [discriminate |].
  cbn [TLV.receiveMessage].
  pose proof (receive_turn_settings c) as Hs.
  destruct (receive_turn c) as [msg1 c1 | c1].
  - intros E. injection E as -> ->. destruct Hs as (H1 & H2 & H3).
    split; [apply H3; discriminate | split; assumption].
  - intros E. apply IH in E. destruct Hs as (H1 & H2), E as (E1 & E2 & E3).
    repeat split; congruence.
Qed.

End TLVConnection.

Lemma tlv_receiveMessage_returns_witness :
  let c := wire_connection [0; 0; 1; 0; 0; 0; 0; 2; 0; 0; 0; 0; 3; 0; 0] 2 in
  exists c', wire_receiveMessage reject_all 2 c = Some (None, c') /\
             TLV._invalid_msg_count _ c' = 2.
Proof.
  intros c.
  destruct (tlv_receiveMessage_returns (list byte) (list byte) wire_receive wire_send
              wire_disconnect GetUInt16BE reject_all c 2)
    as (msg & c' & Hr & _ & _ & _).
  - vm_compute. split; [discriminate | reflexivity].
  - reflexivity.
  - vm_compute. lia.
  - exists (TLV.mkConnection (list byte) [] true true 2 2). vm_compute. split; reflexivity.
Defined.

Lemma tlv_receiveMessage_resets_witness :
  let c := TLV.set_invalid_msg_count _ 7 (wire_connection [0; 0; 1; 0; 2; 8; 9] 0) in
  exists c', wire_receiveMessage accept_all 1 c
             = Some (Some (Some (bytes_of [0; 0; 1; 0; 2; 8; 9])), c') /\
             TLV._invalid_msg_count _ c' = 0.
Proof.
  intros c.
  pose (c' := TLV.mkConnection (list byte) [] true true 0 0).
  assert (Hr : wire_receiveMessage accept_all 1 c
               = Some (Some (Some (bytes_of [0; 0; 1; 0; 2; 8; 9])), c'))
    by (vm_compute; reflexivity).
  exists c'. split; [exact Hr |].
  exact (proj1 (tlv_receiveMessage_resets (list byte) (list byte) wire_receive wire_send
                  wire_disconnect GetUInt16BE accept_all c c' 1 _ Hr)).
Defined.

(** ** The size counters *)

Lemma readall_consumes (n : Z) (f f' : PcapFile) (b : list byte) :
  readall n f = (inr b, f') ->
  zlength b + zlength (remaining f') = zlength (remaining f) /\
  _packets_size f' = _packets_size f /\ _ip_packets_size f' = _ip_packets_size f.
Proof.
  unfold readall, remaining. destruct (n <=? 0) eqn:En.
  - intros E. injection E as <- <-. unfold zlength. simpl. lia.
  - apply Z.leb_gt in En. destruct (_in f) as [s |]; [| discriminate].
    destruct (failed s); [discriminate |]. cbn [orb].
    destruct (zlength (rest s) <? n) eqn:El; [discriminate |]. apply Z.ltb_ge in El.
    intros E. injection E as <- <-.
    rewrite zlength_firstn by lia.
    destruct (seekable s); cbn; rewrite zlength_skipn by lia; repeat split; lia.
Qed.

Lemma readNgBlockBody_consumes (block_type : Z) (f f' : PcapFile) (body : list byte) :
  readNgBlockBody block_type f = (inr body, f') ->
  zlength body + zlength (remaining f') <= zlength (remaining f).
Proof.
  unfold readNgBlockBody. unfold bind at 1.
  destruct (readall 4 f) as [[e | lenfield] f1] eqn:E1; [discriminate |].
  apply readall_consumes in E1. destruct E1 as (E1 & _).
  pose proof (zlength_nonneg lenfield) as Hl.
  unfold bind at 1.
  destruct (read_order_magic block_type f1) as [[e | body0] f2] eqn:E2; [discriminate |].
  assert (H2 : zlength body0 + zlength (remaining f2) = zlength (remaining f1)).
  { revert E2. unfold read_order_magic. destruct (_ =? PCAPNG_SECTION_HEADER).
    - unfold bind at 1. destruct (readall 4 f1) as [[e | b] g] eqn:Er; [discriminate |].
      apply readall_consumes in Er. destruct Er as (Er & _).
      destruct (_ && _); [discriminate |].
      unfold bind, modify, ret. intros E. injection E as <- <-. exact Er.
    - unfold ret. intros E. injection E as <- <-. unfold zlength at 1. simpl. lia. }
  unfold bind at 1. unfold get at 1. unfold read_block_rest.
  destruct (_ || _); [discriminate |].
  unfold bind at 1.
  destruct (readall _ f2) as [[e | more] f3] eqn:E3; [discriminate |].
  apply readall_consumes in E3. destruct E3 as (E3 & _).
  unfold bind at 1.
  destruct (readall 4 f3) as [[e | last] f4] eqn:E4; [discriminate |].
  apply readall_consumes in E4. destruct E4 as (E4 & _).
  pose proof (zlength_nonneg last) as Hl4.
  unfold bind, get. destruct (negb _); [discriminate |].
  unfold ret. intros E. injection E as <- <-. rewrite zlength_app. lia.
Qed.

(** The bytes of a captured packet have been taken from the input. *)
Lemma read_block_consumes (f f' : PcapFile) (c : Captured) :
  read_block f = (inr (Some c), f') ->
  zlength (c_buffer c) + zlength (remaining f') <= zlength (remaining f).
Proof.
  unfold read_block. destruct (_ng f).
  - unfold read_ng_block. unfold bind at 1.
    destruct (readall 4 f) as [[e | type_field] f1] eqn:E1; [discriminate |].
    apply readall_consumes in E1. destruct E1 as (E1 & _).
    pose proof (zlength_nonneg type_field) as Hl.
    unfold bind at 1. unfold get at 1. unfold ng_block.
    destruct (_ =? PCAPNG_SECTION_HEADER).
    { unfold bind, ret. destruct (readHeader _ f1) as [[e | u] f2]; discriminate. }
    unfold bind at 1.
    destruct (readNgBlockBody _ f1) as [[e | buffer] f2] eqn:E2; [discriminate |].
    apply readNgBlockBody_consumes in E2.
    destruct (_ =? PCAPNG_INTERFACE_DESC).
    { unfold bind, ret. destruct (analyzeNgInterface buffer f2) as [[e | u] f3]; discriminate. }
    destruct (is_packet_block _ && _).
    { unfold bind, modify, get, ret. intros E. injection E as <- <-.
      cbn [c_buffer]. change (remaining (incr_packet_count f2)) with (remaining f2). lia. }
    destruct (_ && _); [| discriminate].
    unfold bind, modify, get, ret. intros E. injection E as <- <-.
    cbn [c_buffer]. change (remaining (incr_packet_count f2)) with (remaining f2). lia.
  - unfold read_pcap_record, pcap_record, bind, modify, get, ret.
    destruct (readall 16 _) as [[e | header] f1] eqn:E1; [discriminate |].
    apply readall_consumes in E1. destruct E1 as (E1 & _).
    change (remaining (incr_packet_count f)) with (remaining f) in E1.
    pose proof (zlength_nonneg header) as Hl.
    destruct (readall _ f1) as [[e | buffer] f2] eqn:E2; [discriminate |].
    apply readall_consumes in E2. destruct E2 as (E2 & _).
    intros E. injection E as <- <-. cbn [c_buffer]. lia.
Qed.

Section ReaderSizes.

Variable packet_reset : list byte -> option IPPacket.

Lemma process_captured_sizes (c : Captured) (f : PcapFile) :
  0 <= cap_size c -> interfaces_wf f ->
  let f' := snd (process_captured packet_reset c f) in
  _packets_size f' = wrap64 (_packets_size f + cap_size c) /\
  (_ip_packets_size f' = _ip_packets_size f \/
   exists size, 0 < size <= cap_size c /\
                _ip_packets_size f' = wrap64 (_ip_packets_size f + size)).
Proof.
  intros Hcap Hwf. unfold process_captured.
  destruct (cap_size c <? orig_size c); [cbn; split; [reflexivity | now left] |].
  set (f1 := set_packets_size (wrap64 (_packets_size f + cap_size c)) f).
  destruct (interface_of_wf f1 (if_index c) Hwf) as [Hfcs _].
  unfold update_timestamps.
  destruct (0 <=? c_timestamp c); [destruct (_first_timestamp _ <? 0) |];
    match goal with
    | |- context [decapsulate ?i ?b ?bu ?s ?z] =>
        destruct (decapsulate_window i b bu s z Hcap Hfcs)
          as (start & size & vlans & -> & H1 & H2 & H3 & _)
    end;
    (destruct (0 <? size) eqn:Es;
     [apply Z.ltb_lt in Es; destruct (packet_reset _) |]);
    cbn; (split; [reflexivity |]); try (now left);
    right; exists size; (split; [lia | reflexivity]).
Qed.

Lemma sized_readIP_turn (bound : Z) (f : PcapFile) :
  bound < 2 ^ 64 -> interfaces_wf f -> 0 <= _packets_size f -> sized bound f ->
  sized bound (snd (readIP_turn packet_reset f)) /\
  0 <= _packets_size (snd (readIP_turn packet_reset f)).
Proof.
  intros Hb Hwf Hps [Hip Hbound].
  unfold readIP_turn, sized.
  pose proof (regular_read_block f) as (_ & Hlen & _ & Hc).
  pose proof (interfaces_wf_read_block f Hwf) as Hwf1.
  pose proof (zlength_nonneg (remaining f)) as Hrem.
  destruct (read_block f) as [[e | [c |]] f1] eqn:Hrb; cbn [fst snd] in Hlen, Hc, Hwf1 |- *.
  - unfold counters in Hc. injection Hc as _ Hps1 Hips1 _ _. rewrite Hps1, Hips1.
    unfold zlength in *. lia.
  - destruct (read_block_within _ _ _ Hrb) as (Hstart & Hsize & Hend).
    pose proof (read_block_consumes _ _ _ Hrb) as Hcons.
    destruct (process_captured_sizes c f1 Hsize Hwf1) as [Hps2 Hips2].
    destruct (process_captured_frame packet_reset c f1) as (Hin & _).
    assert (Hrem2 : remaining (snd (process_captured packet_reset c f1)) = remaining f1)
      by (unfold remaining; now rewrite Hin).
    unfold counters in Hc. injection Hc as _ Hps1 Hips1 _ _.
    pose proof (zlength_nonneg (remaining f1)) as Hrem1.
    assert (Hw : wrap64 (_packets_size f1 + cap_size c) = _packets_size f1 + cap_size c)
      by (apply wrap64_small; lia).
    rewrite Hrem2, Hps2, Hw, Hps1.
    destruct Hips2 as [-> | (size & Hsz & ->)]; rewrite Hips1.
    + lia.
    + assert (Hw2 : wrap64 (_ip_packets_size f + size) = _ip_packets_size f + size)
        by (apply wrap64_small; lia).
      rewrite Hw2. lia.
  - unfold counters in Hc. injection Hc as _ Hps1 Hips1 _ _. rewrite Hps1, Hips1.
    unfold zlength in *. lia.
Qed.

Lemma sized_readIP_loop (bound : Z) (n : nat) (f f' : PcapFile) (r : Error + Found) :
  bound < 2 ^ 64 -> interfaces_wf f -> 0 <= _packets_size f -> sized bound f ->
  readIP_loop packet_reset n f = Some (r, f') ->
  sized bound f' /\ 0 <= _packets_size f' /\ interfaces_wf f'.
Proof.
  intros Hb. revert f. induction n as [| n IH]; intros f Hwf Hps H; [discriminate |]. simpl.
  pose proof (sized_readIP_turn bound f Hb Hwf Hps H) as [H1 H2].
  pose proof (interfaces_wf_readIP_turn packet_reset f Hwf) as H3.
  destruct (readIP_turn packet_reset f) as [[e | [x |]] f1]; cbn [snd] in H1, H2, H3.
  - intros E. injection E as _ <-. auto.
  - intros E. injection E as _ <-. auto.
  - now apply IH.
Qed.

Lemma sized_readIP (bound : Z) (f : PcapFile) :
  bound < 2 ^ 64 -> interfaces_wf f -> 0 <= _packets_size f -> sized bound f ->
  sized bound (snd (readIP packet_reset f)) /\
  0 <= _packets_size (snd (readIP packet_reset f)) /\
  interfaces_wf (snd (readIP packet_reset f)).
Proof.
  intros Hb Hwf Hps H. unfold readIP.
  destruct (_in f); [| auto]. destruct (_error f); [auto |].
  destruct (readIP_loop packet_reset (readIP_fuel f) f) as [[r f'] |] eqn:E.
  - cbn [snd]. eapply sized_readIP_loop; eassumption.
  - exfalso. revert E. apply readIP_loop_total. unfold readIP_fuel. lia.
Qed.

Lemma sized_after_reads (bound : Z) (n : nat) (f : PcapFile) :
  bound < 2 ^ 64 -> interfaces_wf f -> 0 <= _packets_size f -> sized bound f ->
  sized bound (after_reads packet_reset n f).
Proof.
  intros Hb. revert f. induction n as [| n IH]; intros f Hwf Hps H; [exact H |].
  simpl. destruct (sized_readIP bound f Hb Hwf Hps H) as (H1 & H2 & H3). now apply IH.
Qed.

End ReaderSizes.

(** For a file of less than 2^64 bytes, after [open] and any number of
    [readIP], the total size of the IP packets never exceeds the total size
    of the captured packets, which never exceeds the number of bytes
    consumed from the file: the 64-bit size counters never wrap. *)
Theorem packet_sizes_ordered (packet_reset : list byte -> option IPPacket)
    (content : list byte) (piped : bool) (f0 f : PcapFile) (n : nat) :
  zlength content < 2 ^ 64 ->
  open (Some content) piped f0 = (inr tt, f) ->
  let g := after_reads packet_reset n f in
  0 <= totalIPPacketsSize g <= totalPacketsSize g /\
  totalPacketsSize g + zlength (remaining g) <= zlength content.
Proof.
  intros Hsize Hopen g.
  destruct (open_remaining _ _ _ _ Hopen) as [Hrem _].
  destruct (open_counters _ _ _ _ Hopen) as [_ Hc].
  unfold counters in Hc. injection Hc as _ Hps Hips _ _.
  assert (H0 : sized (zlength content) f).
  { unfold sized. rewrite Hps, Hips. lia. }
  unfold totalIPPacketsSize, totalPacketsSize.
  apply (sized_after_reads packet_reset _ n f Hsize (interfaces_wf_open _ _ _ _ Hopen));
    [lia | exact H0].
Qed.

Lemma packet_sizes_ordered_witness :
  let g := after_reads ipv4_reset 2 (snd (opened truncated_file)) in
  0 <= totalIPPacketsSize g <= totalPacketsSize g /\
  totalPacketsSize g + zlength (remaining g) <= 598.
Proof.
  intros g.
  assert (Hopen : open (Some (bytes_of truncated_file)) false PcapFile_default
                  = (inr tt, snd (opened truncated_file))) by (vm_compute; reflexivity).
  assert (Hlen : zlength (bytes_of truncated_file) = 598) by (vm_compute; reflexivity).
  assert (Hsize : zlength (bytes_of truncated_file) < 2 ^ 64) by (rewrite Hlen; reflexivity).
  pose proof (packet_sizes_ordered ipv4_reset _ false _ _ 2%nat Hsize Hopen) as H.
  rewrite Hlen in H. exact H.
Defined.


(** ** Delivered packets and sections *)

Section Deliveries.

Variable packet_reset : list byte -> option IPPacket.

Lemma process_captured_delivery_count (c : Captured) (f : PcapFile) :
  match process_captured packet_reset c f with
  | (inr (Some _), f') => _ip_packet_count f' = wrap64 (_ip_packet_count f + 1)
  | (_, f') => _ip_packet_count f' = _ip_packet_count f
  end.
Proof.
  unfold process_captured.
  destruct (cap_size c <? orig_size c); [reflexivity |].
  unfold update_timestamps.
  destruct (0 <=? c_timestamp c);
    [destruct (_first_timestamp _ <? 0) |];
    match goal with
    | |- context [decapsulate ?i ?b ?bu ?s ?z] =>
        destruct (decapsulate i b bu s z) as [[start size] vlans]
    end;
    (destruct (0 <? size); [destruct (packet_reset _) |]); reflexivity.
Qed.

Lemma readIP_turn_delivery_count (f : PcapFile) :
  match readIP_turn packet_reset f with
  | (inr (Some _), f') => _ip_packet_count f' = wrap64 (_ip_packet_count f + 1)
  | (_, f') => _ip_packet_count f' = _ip_packet_count f
  end.
Proof.
  unfold readIP_turn.
  pose proof (regular_read_block f) as (_ & _ & _ & Hc).
  destruct (read_block f) as [[e | [c |]] f1]; cbn [snd] in Hc;
    unfold counters in Hc; injection Hc as Hipc _ _ _ _; try exact Hipc.
  pose proof (process_captured_delivery_count c f1) as H.
  destruct (process_captured packet_reset c f1) as [[e | [r |]] f2]; congruence.
Qed.

Lemma readIP_loop_delivery_count (n : nat) (f f' : PcapFile) (r : Error + Found) :
  readIP_loop packet_reset n f = Some (r, f') ->
  match r with
  | inr _ => _ip_packet_count f' = wrap64 (_ip_packet_count f + 1)
  | inl _ => _ip_packet_count f' = _ip_packet_count f
  end.
Proof.
  revert f. induction n as [| n IH]; intros f; [discriminate |]. simpl.
  pose proof (readIP_turn_delivery_count f) as H.
  destruct (readIP_turn packet_reset f) as [[e | [x |]] f1].
  - intros E. injection E as <- <-. exact H.
  - intros E. injection E as <- <-. exact H.
  - intros E. apply IH in E. rewrite H in E. exact E.
Qed.

End Deliveries.

(** [ipPacketCount()] counts the packets that [readIP] has delivered: a
    call that returns a packet adds exactly one, whatever it has skipped,
    and a call that fails adds nothing. *)
Theorem ip_count_counts_deliveries (packet_reset : list byte -> option IPPacket)
    (f : PcapFile) :
  match readIP packet_reset f with
  | (inr _, f') => _ip_packet_count f' = wrap64 (_ip_packet_count f + 1)
  | (inl _, f') => _ip_packet_count f' = _ip_packet_count f
  end.
Proof.
  unfold readIP. destruct (_in f); [| reflexivity].
  destruct (_error f); [reflexivity |].
  destruct (readIP_loop packet_reset (readIP_fuel f) f) as [[r f'] |] eqn:E;
    [| reflexivity].
  apply readIP_loop_delivery_count in E. destruct r; exact E.
Qed.

(** A header that is not a pcap header and is read with success is a
    pcap-ng Section Header of at least 16 bytes of body; it leaves a pcap-ng
    reader without any interface, so that the interfaces described in a
    section are never used for the packets of the next one. *)
Theorem section_header_clears_interfaces (magic : Z) (f f' : PcapFile) :
  is_pcap_magic magic = false ->
  readHeader magic f = (inr tt, f') ->
  magic = PCAPNG_MAGIC /\ _ng f' = true /\ _if f' = [] /\
  _error f' = _error f /\ counters f' = counters f /\
  zlength (remaining f') + 24 <= zlength (remaining f).
Proof.
  intros Hm Hr.
  pose proof (regular_readHeader magic f) as (He & _ & _ & Hc).
  rewrite Hr in He, Hc. cbn [fst snd] in He, Hc.
  revert Hr. unfold readHeader. rewrite Hm.
  destruct (Z.eqb_spec magic PCAPNG_MAGIC) as [-> | _]; [| discriminate].
  unfold bind at 1. unfold modify at 1. unfold bind at 1.
  destruct (readNgBlockBody PCAPNG_MAGIC (set_ng true f)) as [[e | header] f1] eqn:Erb;
    [discriminate |].
  pose proof (ng_readNgBlockBody PCAPNG_MAGIC (set_ng true f) eq_refl) as Hng.
  rewrite Erb in Hng. cbn [snd] in Hng.
  assert (Hcons : zlength header + 8 + zlength (remaining f1) <= zlength (remaining f)).
  { revert Erb. unfold readNgBlockBody. unfold bind at 1.
    destruct (readall 4 (set_ng true f)) as [[e | lenfield] g1] eqn:E1; [discriminate |].
    pose proof (readall_length _ _ _ _ E1) as Hl1.
    apply readall_consumes in E1. destruct E1 as (E1 & _).
    change (remaining (set_ng true f)) with (remaining f) in E1.
    intros Erest.
    assert (Hrest : zlength header + 4 + zlength (remaining f1) <= zlength (remaining g1)).
    { revert Erest. unfold bind at 1.
      destruct (read_order_magic PCAPNG_MAGIC g1) as [[e | body0] g2] eqn:E2; [discriminate |].
      assert (H2 : zlength body0 + zlength (remaining g2) = zlength (remaining g1)).
      { revert E2. unfold read_order_magic.
        change (PCAPNG_MAGIC =? PCAPNG_SECTION_HEADER) with true. cbv iota.
        unfold bind at 1. destruct (readall 4 g1) as [[e | b] g] eqn:Er; [discriminate |].
        apply readall_consumes in Er. destruct Er as (Er & _).
        destruct (_ && _); [discriminate |].
        unfold bind, modify, ret. intros E. injection E as <- <-. exact Er. }
      unfold bind at 1. unfold get at 1. unfold read_block_rest.
      destruct (_ || _); [discriminate |].
      unfold bind at 1.
      destruct (readall _ g2) as [[e | more] g3] eqn:E3; [discriminate |].
      apply readall_consumes in E3. destruct E3 as (E3 & _).
      unfold bind at 1.
      destruct (readall 4 g3) as [[e | last] g4] eqn:E4; [discriminate |].
      pose proof (readall_length _ _ _ _ E4) as Hl4.
      apply readall_consumes in E4. destruct E4 as (E4 & _).
      unfold bind, get. destruct (negb _); [discriminate |].
      unfold ret. intros E. injection E as <- <-. rewrite zlength_app. lia. }
    lia. }
  destruct (zlength header <? 16) eqn:E16; [discriminate |]. apply Z.ltb_ge in E16.
  unfold modify. intros E. injection E as <-.
  cbn [_ng _if set_if set_version]. repeat split; try assumption.
  change (remaining (set_if [] (set_version (get16 (_be f1) header 4)
                                            (get16 (_be f1) header 6) f1)))
    with (remaining f1).
  lia.
Qed.

Lemma section_header_clears_interfaces_witness :
  let f := set_if [nano_interface] (reader_on (skipn 4 ng_section_be)) in
  _if (snd (readHeader PCAPNG_MAGIC f)) = [].
Proof.
  intros f.
  pose (f' := snd (readHeader PCAPNG_MAGIC f)).
  assert (Hr : readHeader PCAPNG_MAGIC f = (inr tt, f')) by (vm_compute; reflexivity).
  destruct (section_header_clears_interfaces PCAPNG_MAGIC f f' eq_refl Hr)
    as (_ & _ & Hif & _).
  exact Hif.
Defined.
